(** * GDPR deletion job: relational purge, Amplitude eraser and coordinator

    A shallow embedding of
    - [runGdprSqlWithTempTable] and [safeRollback]   (db.ts),
    - [calculateBackoff] and [deleteUsersAmplitude]  (amplitude.ts),
    - [main]                                         (main.ts),
    together with the properties of the deletion orchestration that the
    specification states about them.

    Conventions.  Asynchronous code is modelled by what it awaits: the
    database and the file system answer through an oracle, the HTTP
    service and the timers through a schedule of resolutions, and every
    interaction is recorded in a trace.  Console output always succeeds;
    the two report files are written to a disk that can refuse a write.
    A chunk size or a batch size is a natural number, [Infinity] or
    [NaN] (what [Number] makes of a string that is no number); a
    concurrency or a number of attempts is a natural number.  Delays are
    double-precision numbers, given by the rational numbers they are. *)

From Stdlib Require Import String DecimalString.
From Stdlib Require Import QArith Qminmax Qround Qpower Lqa.
From Stdlib Require Import List Arith Lia Bool Permutation.
Import ListNotations.

Local Open Scope string_scope.
Local Open Scope list_scope.
Local Open Scope nat_scope.

(* ================================================================== *)
(** ** JavaScript numbers and [Array.prototype.slice] *)

(** The numbers the two partition loops range over: a non-negative
    integer, [Infinity] (the default of [chunkSize]) or [NaN] (the
    [Number(...)] of a string that is no number). *)
Inductive jsnum : Type :=
| Fin (n : nat)
| Infinity
| NaN.

Definition is_NaN (c : jsnum) : bool :=
  match c with NaN => true | _ => false end.

(** [i + c] for a finite index [i]. *)
Definition js_plus (i : nat) (c : jsnum) : jsnum :=
  match c with
  | Fin n => Fin (i + n)
  | Infinity => Infinity
  | NaN => NaN
  end.

(** [1 <= c]: the partition sizes the data model allows. *)
Definition positive (c : jsnum) : Prop :=
  match c with
  | Fin n => 1 <= n
  | Infinity => True
  | NaN => False
  end.

(** [n <= c]: [c] as a bound on a length. *)
Definition at_most (n : nat) (c : jsnum) : Prop :=
  match c with
  | Fin k => n <= k
  | Infinity => True
  | NaN => False
  end.

(** [l.slice(s, e)] for [0 <= s]; [e] is clamped to the length, and
    [NaN] is taken as 0. *)
Definition slice {A : Type} (l : list A) (s : nat) (e : jsnum) : list A :=
  match e with
  | Fin j => skipn s (firstn j l)
  | Infinity => skipn s l
  | NaN => []
  end.

(** [String(n)] for a natural number. *)
Definition show_nat (n : nat) : string :=
  NilZero.string_of_uint (Nat.to_uint n).

(** Two lists share no element. *)
Definition disjoint {A : Type} (l1 l2 : list A) : Prop :=
  forall x, In x l1 -> In x l2 -> False.

(** The pieces of a list of lists are pairwise disjoint (by position). *)
Definition pairwise_disjoint {A : Type} (ls : list (list A)) : Prop :=
  forall i j a b,
    i <> j -> nth_error ls i = Some a -> nth_error ls j = Some b ->
    disjoint a b.

(* ================================================================== *)
(** ** The batch loop of the eraser client

    [const chunks = []; for (let i = 0; i < publicIds.length; i += batchSize)
       chunks.push(publicIds.slice(i, i + batchSize));]

    The loop does not terminate for [batchSize = 0]; [fuel] bounds the
    number of iterations and [None] stands for a loop still running.
    The test [i < publicIds.length] fails for [Infinity] and for
    [NaN]. *)

Fixpoint batch_loop {A : Type} (fuel : nat) (publicIds : list A)
  (batchSize : jsnum) (i : jsnum) (chunks : list (list A))
  : option (list (list A)) :=
  match i with
  | Infinity | NaN => Some chunks
  | Fin i0 =>
      if i0 <? length publicIds then
        match fuel with
        | 0 => None
        | S fuel' =>
            batch_loop fuel' publicIds batchSize (js_plus i0 batchSize)
              (chunks ++ [slice publicIds i0 (js_plus i0 batchSize)])
        end
      else Some chunks
  end.

Definition split_batches {A : Type} (fuel : nat) (publicIds : list A)
  (batchSize : jsnum) : option (list (list A)) :=
  batch_loop fuel publicIds batchSize (Fin 0) [].

(** The offsets and slices the chunk loop of the purge engine visits:
    [for (let start = 0; start < ids.length; start += chunkSize)
       { const slice = ids.slice(start, start + chunkSize); ... }].
    The engine below runs this loop with its body in place
    ([Db.chunk_loop]); [engine_slices] is the loop without the body. *)
Fixpoint engine_slices {A : Type} (fuel : nat) (ids : list A)
  (chunkSize : jsnum) (start : jsnum) : option (list (nat * list A)) :=
  match start with
  | Infinity | NaN => Some []
  | Fin s =>
      if s <? length ids then
        match fuel with
        | 0 => None
        | S fuel' =>
            match engine_slices fuel' ids chunkSize (js_plus s chunkSize) with
            | Some rest =>
                Some ((s, slice ids s (js_plus s chunkSize)) :: rest)
            | None => None
            end
        end
      else Some []
  end.

(* ================================================================== *)
(** ** Effects: a trace of interactions and a thrown error

    A computation yields the events it caused, in order, and either a
    value or the message of the error it threw ([err.message]). *)

Definition exn : Type := string.

Definition M (E A : Type) : Type := (list E * (exn + A))%type.

Definition ret {E A : Type} (a : A) : M E A := ([], inr a).

Definition throw {E A : Type} (e : exn) : M E A := ([], inl e).

Definition emit {E : Type} (ev : E) : M E unit := ([ev], inr tt).

Definition bind {E A B : Type} (m : M E A) (f : A -> M E B) : M E B :=
  match m with
  | (t, inl e) => (t, inl e)
  | (t, inr a) => let (t', r) := f a in (t ++ t', r)
  end.

(** [try { m } catch (err) { handler err }] *)
Definition try_catch {E A : Type} (m : M E A) (handler : exn -> M E A)
  : M E A :=
  match m with
  | (t, inl e) => let (t', r) := handler e in (t ++ t', r)
  | (t, inr a) => (t, inr a)
  end.

(** [try { m } finally { fin }]: [fin] always runs; its own error, if
    any, replaces the outcome of [m]. *)
Definition try_finally {E A : Type} (m : M E A) (fin : M E unit) : M E A :=
  let (t, r) := m in
  match fin with
  | (t', inl e') => (t ++ t', inl e')
  | (t', inr _) => (t ++ t', r)
  end.

Notation "x <- m ;; k" := (bind m (fun x => k))
  (at level 61, m at next level, right associativity).
Notation "m ;; k" := (bind m (fun _ => k))
  (at level 61, right associativity).

(* ================================================================== *)
(** ** Relational purge engine (db.ts) *)

Module Db.

(** What the engine awaits while it processes one chunk. *)
Inductive step : Type :=
| Connect      (* pool.connect() *)
| Begin        (* BEGIN *)
| CreateTemp   (* CREATE TEMP TABLE ids_to_delete ... ON COMMIT DROP *)
| BulkLoad     (* INSERT INTO ids_to_delete ... UNNEST($1::text[]) *)
| ReadSql      (* readFile(sqlPath) *)
| RunSql       (* client.query(sql): the reviewed deletion script *)
| Commit       (* COMMIT *)
| Rollback.    (* ROLLBACK *)

Definition step_eqb (a b : step) : bool :=
  match a, b with
  | Connect, Connect | Begin, Begin | CreateTemp, CreateTemp
  | BulkLoad, BulkLoad | ReadSql, ReadSql | RunSql, RunSql
  | Commit, Commit | Rollback, Rollback => true
  | _, _ => false
  end.

(** The engine's interactions.  [k] is the ordinal of the chunk. *)
Inductive event : Type :=
| NewPool (max : nat) (statement_timeout : Z)
| Call (k : nat) (s : step) (param : list string) (succeeded : bool)
| Processed (users offset : nat)   (* the log line after COMMIT *)
| Release (k : nat)                (* client.release() *)
| PoolEnd.                         (* pool.end() *)

Record RunSqlOptions : Type := {
  sqlPath : string;
  ids : list string;
  chunkSize : option jsnum;
  statementTimeoutMs : option Z
}.

Section Engine.

(** The store and the file system: [oracle k s = Some e] when step [s]
    of chunk [k] rejects with message [e]. *)
Variable oracle : nat -> step -> option exn.

Definition call (k : nat) (s : step) (param : list string) : M event unit :=
  match oracle k s with
  | Some e => ([Call k s param false], inl e)
  | None => ([Call k s param true], inr tt)
  end.

Definition safeRollback (k : nat) : M event unit :=
  try_catch (call k Rollback []) (fun _ => ret tt).

(** The body of the chunk loop. *)
Definition process_chunk (k start : nat) (slice : list string)
  : M event unit :=
  call k Connect [] ;;
  try_finally
    (try_catch
       (call k Begin [] ;;
        call k CreateTemp [] ;;
        call k BulkLoad slice ;;
        call k ReadSql [] ;;
        call k RunSql [] ;;
        call k Commit [] ;;
        emit (Processed (length slice) start))
       (fun err => safeRollback k ;; throw err))
    (emit (Release k)).

(** [for (let start = 0; start < ids.length; start += chunkSize)]. *)
Fixpoint chunk_loop (fuel : nat) (ids : list string) (chunkSize : jsnum)
  (start : jsnum) (k : nat) : option (M event unit) :=
  match start with
  | Infinity | NaN => Some (ret tt)
  | Fin s =>
      if s <? length ids then
        match fuel with
        | 0 => None
        | S fuel' =>
            match process_chunk k s (slice ids s (js_plus s chunkSize)) with
            | (t, inl e) => Some (t, inl e)
            | (t, inr _) =>
                match chunk_loop fuel' ids chunkSize
                        (js_plus s chunkSize) (S k) with
                | Some (t', r) => Some (t ++ t', r)
                | None => None
                end
            end
        end
      else Some (ret tt)
  end.

(** The loop body applied to a given sequence of slices. *)
Fixpoint run_slices (k : nat) (l : list (nat * list string))
  : M event unit :=
  match l with
  | [] => ret tt
  | (s, sl) :: rest =>
      match process_chunk k s sl with
      | (t, inl e) => (t, inl e)
      | (t, inr _) => let (t', r) := run_slices (S k) rest in (t ++ t', r)
      end
  end.

Definition runGdprSqlWithTempTable (fuel : nat) (options : RunSqlOptions)
  : option (M event unit) :=
  let chunkSize := match chunkSize options with
                   | Some c => c | None => Infinity end in
  let statementTimeoutMs := match statementTimeoutMs options with
                            | Some t => t | None => 300000%Z end in
  match chunk_loop fuel (ids options) chunkSize (Fin 0) 0 with
  | Some body =>
      Some (emit (NewPool 2 statementTimeoutMs) ;;
            try_finally body (emit PoolEnd))
  | None => None
  end.

End Engine.

(** The slices whose COMMIT succeeded, in order. *)
Fixpoint committed (t : list event) (staged : list string)
  : list (list string) :=
  match t with
  | [] => []
  | Call _ BulkLoad param true :: t' => committed t' param
  | Call _ Commit _ true :: t' => staged :: committed t' []
  | _ :: t' => committed t' staged
  end.

(** The ordinal of the chunk an event belongs to, if any. *)
Definition chunk_of (e : event) : option nat :=
  match e with
  | Call k _ _ _ => Some k
  | Release k => Some k
  | _ => None
  end.

End Db.

(* ================================================================== *)
(** ** External eraser client (amplitude.ts) *)

(** *** Double-precision arithmetic

    JavaScript numbers are IEEE 754 doubles: the result of a product
    or a sum is the exact result rounded to the nearest number with a
    significand of 53 bits, to the one with an even significand when
    two are equally near.  The range of the exponent is not modelled:
    the delays of the client are far from both of its ends. *)

(** The integer nearest to [q], the even one of two equally near. *)
Definition round_half_even (q : Q) : Z :=
  let f := Qfloor q in
  match (q - inject_Z f ?= 1 # 2)%Q with
  | Lt => f
  | Gt => (f + 1)%Z
  | Eq => if Z.even f then f else (f + 1)%Z
  end.

(** The exponent of [x], for [0 < x]: the [e] with [2^e <= x < 2^(e+1)].
    The difference of the two logarithms is [e] or [e + 1]. *)
Definition exponent (x : Q) : Z :=
  let e := (Z.log2 (Qnum x) - Z.log2 (Zpos (Qden x)))%Z in
  if Qle_bool (2 ^ e) x then e else (e - 1)%Z.

(** The double nearest to [x], for [0 < x]: a significand of 53 bits
    times the unit in the last place. *)
Definition nearest (x : Q) : Q :=
  let ulp := (2 ^ (exponent x - 52))%Q in
  (inject_Z (round_half_even (x / ulp)) * ulp)%Q.

(** The double an exact result [x] is rounded to. *)
Definition double (x : Q) : Q :=
  match (x ?= 0)%Q with
  | Eq => 0%Q
  | Gt => Qred (nearest x)
  | Lt => Qred (- nearest (- x))
  end.

Arguments double : simpl never.

(** [Math.min(capMs, baseMs * Math.pow(2, attempt)) + jitter] with
    [jitter = Math.random() * 250]; [random] is the value drawn.  The
    call sites pass [attempt] only, so [baseMs = 1000], [capMs = 15000].
    [Math.pow(2, attempt)] is exact; the two products and the sum are
    rounded. *)
Definition calculateBackoff (random : Q) (attempt : nat) (baseMs capMs : Q)
  : Q :=
  let jitter := double (random * 250) in
  double
    (Qmin capMs (double (baseMs * inject_Z (2 ^ Z.of_nat attempt)))
     + jitter).

Module Amplitude.

Record AmplitudeResult : Type := {
  id : string;
  ok : bool;
  error : option string
}.

(** The three options are numbers.  A batch size can be any of
    [jsnum].  A concurrency and a number of attempts are given as
    natural numbers: for both, [NaN] behaves as 0 does ([p-limit] rejects
    it with the same error, and [attempt < NaN] is false as [attempt < 0]
    is, so that the retry loop is not entered and its [catch] block not
    reached). *)
Record AmplitudeOptions : Type := {
  batchSize : option jsnum;
  concurrentBatches : option nat;
  maxAttempts : option nat
}.

(** Where the async function of one batch is suspended. *)
Inductive phase : Type :=
| Queued                              (* waiting in the limiter *)
| AwaitFetch (attempt : nat)          (* await fetch(...) *)
| AwaitText (attempt status : nat)    (* await res.text() *)
| AwaitSleep (attempt : nat)          (* await sleep(...) *)
| Finished.

(** How an awaited promise settles. *)
Inductive resolution : Type :=
| Response (status : nat)     (* fetch resolved with this status *)
| FetchError (err : exn)      (* fetch rejected *)
| Text (body : string)        (* res.text() resolved *)
| TextError (err : exn)       (* res.text() rejected *)
| Elapsed.                    (* the timer fired *)

(** One turn of the event loop: the promise awaited by batch [idx]
    settles ([random] is what [Math.random()] returns during the turn),
    or a SIGTERM/SIGINT handler of the coordinator runs. *)
Inductive tick : Type :=
| Resolve (idx : nat) (r : resolution) (random : Q)
| Signal.

(** The client's interactions. *)
Inductive event : Type :=
| Start (idx : nat)                              (* "Processing batch" *)
| Fetch (idx attempt : nat) (user_ids : list string) (apiKey : string)
| Settled (idx : nat) (r : resolution)
| Sleep (idx attempt : nat) (ms : Q)
| Exhausted (idx : nat)                          (* "failed after ..." *)
| Signalled.

(** A batch: its identifiers and where it is suspended. *)
Definition task : Type := (list string * phase)%type.

(** The event loop while the client runs.  [aborted] is the flag of the
    coordinator that its signal handlers set; the client has no access
    to it. *)
Record state : Type := {
  tasks : list task;
  results : list AmplitudeResult;
  trace : list event;
  aborted : bool
}.

(** [res.ok]: a status in the range 200-299. *)
Definition res_ok (status : nat) : bool :=
  (200 <=? status) && (status <=? 299).

(** The phases, told apart. *)
Definition is_finished (p : phase) : bool :=
  match p with Finished => true | _ => false end.

Definition is_active (p : phase) : bool :=
  match p with
  | AwaitFetch _ | AwaitText _ _ | AwaitSleep _ => true
  | _ => false
  end.

(** The limiter's [activeCount]. *)
Definition count_active (ts : list task) : nat :=
  length (filter (fun t => is_active (snd t)) ts).

(** [for (const id of chunk) results.push(entry id)] *)
Definition push_all (chunk : list string) (entry : string -> AmplitudeResult)
  (results : list AmplitudeResult) : list AmplitudeResult :=
  results ++ map entry chunk.

(** [for (const id of chunk)
       if (!results.find(r => r.id === id)) results.push({...})] *)
Definition push_missing (chunk : list string)
  (results : list AmplitudeResult) : list AmplitudeResult :=
  fold_left
    (fun res i =>
       if existsb (fun r => String.eqb (id r) i) res then res
       else res ++ [{| id := i; ok := false;
                       error := Some "Retry exhausted" |}])
    chunk results.

(** [{ id, ok: true }] *)
Definition succeeded (i : string) : AmplitudeResult :=
  {| id := i; ok := true; error := None |}.

(** [{ id, ok: false, error: msg }] *)
Definition failed (msg : string) (i : string) : AmplitudeResult :=
  {| id := i; ok := false; error := Some msg |}.

(** [`Amplitude ${res.status}: ${text}`] *)
Definition http_error (status : nat) (text : string) : string :=
  ("Amplitude " ++ show_nat status ++ ": " ++ text)%string.

(** [`Network error after ${maxAttempts} attempts: ${err}`] *)
Definition network_error (maxAttempts : nat) (err : exn) : string :=
  ("Network error after " ++ show_nat maxAttempts ++ " attempts: "
     ++ err)%string.

(** Where a batch is suspended next, the outcome entries, and the
    events of the turn. *)
Definition outcome : Type :=
  (phase * list AmplitudeResult * list event)%type.

Section Batch.

Variables (maxAttempts : nat) (apiKey : string).
Variables (idx : nat) (chunk : list string).

(** The head of the retry loop at [attempt]: issue the request, or
    leave the loop and mark what is still unmarked. *)
Definition iterate (attempt : nat) (results : list AmplitudeResult)
  : outcome :=
  if attempt <? maxAttempts then
    (AwaitFetch attempt, results, [Fetch idx attempt chunk apiKey])
  else
    (Finished, push_missing chunk results, [Exhausted idx]).

(** The [catch] block.  [attempt === maxAttempts - 1] is tested as
    [attempt + 1 = maxAttempts], which also holds the answer for
    [maxAttempts = 0]. *)
Definition on_error (attempt : nat) (err : exn) (random : Q)
  (results : list AmplitudeResult) : outcome :=
  if attempt + 1 =? maxAttempts then
    iterate (S attempt)
      (push_all chunk (failed (network_error maxAttempts err)) results)
  else
    (AwaitSleep attempt, results,
     [Sleep idx attempt (calculateBackoff random attempt 1000 15000)]).

(** The batch resumes from [p] when its promise settles with [r]. *)
Definition resume (p : phase) (r : resolution) (random : Q)
  (results : list AmplitudeResult) : option outcome :=
  match p, r with
  | AwaitFetch attempt, Response status =>
      if res_ok status then
        Some (Finished, push_all chunk succeeded results, [])
      else if status <? 500 then
        Some (AwaitText attempt status, results, [])
      else
        Some (AwaitSleep attempt, results,
              [Sleep idx attempt
                 (calculateBackoff random attempt 1000 15000)])
  | AwaitFetch attempt, FetchError err =>
      Some (on_error attempt err random results)
  | AwaitText attempt status, Text body =>
      Some (Finished,
            push_all chunk (failed (http_error status body)) results, [])
  | AwaitText attempt status, TextError err =>
      Some (on_error attempt err random results)
  | AwaitSleep attempt, Elapsed =>
      Some (iterate (S attempt) results)
  | _, _ => None
  end.

End Batch.

Section Client.

Variables (concurrency maxAttempts : nat) (apiKey : string).

(** The limiter ([p-limit]): queued batches start in the order they
    were submitted while fewer than [concurrency] are active.  A batch
    that starts runs to its first [await]. *)
Fixpoint dequeue (active idx : nat) (ts : list task)
  (results : list AmplitudeResult)
  : list task * list AmplitudeResult * list event :=
  match ts with
  | [] => ([], results, [])
  | (chunk, Queued) :: rest =>
      if active <? concurrency then
        let '(p, results1, ev) :=
          iterate maxAttempts apiKey idx chunk 0 results in
        let active1 := if is_active p then S active else active in
        let '(rest', results2, ev') :=
          dequeue active1 (S idx) rest results1 in
        ((chunk, p) :: rest', results2, Start idx :: ev ++ ev')
      else ((chunk, Queued) :: rest, results, [])
  | t :: rest =>
      let '(rest', results', ev') := dequeue active (S idx) rest results in
      (t :: rest', results', ev')
  end.

(** [ts] with the batch at [idx] replaced by [t]. *)
Fixpoint update (idx : nat) (t : task) (ts : list task) : list task :=
  match ts, idx with
  | [], _ => []
  | _ :: rest, 0 => t :: rest
  | t0 :: rest, S i => t0 :: update i t rest
  end.

(** One turn of the event loop.  A signal runs the handler
    ([aborted = true]).  A settlement resumes its batch, which runs to
    its next [await] or to its end; then the limiter starts what it can.
    [None] when batch [idx] does not await a promise that settles so. *)
Definition step (st : state) (tk : tick) : option state :=
  match tk with
  | Signal =>
      Some {| tasks := tasks st; results := results st;
              trace := trace st ++ [Signalled]; aborted := true |}
  | Resolve idx r random =>
      match nth_error (tasks st) idx with
      | Some (chunk, p) =>
          match resume maxAttempts apiKey idx chunk p r random
                  (results st) with
          | Some (p', results1, ev) =>
              let ts1 := update idx (chunk, p') (tasks st) in
              let '(ts2, results2, ev') :=
                dequeue (count_active ts1) 0 ts1 results1 in
              Some {| tasks := ts2; results := results2;
                      trace := trace st ++ Settled idx r :: ev ++ ev';
                      aborted := aborted st |}
          | None => None
          end
      | None => None
      end
  end.

(** [Promise.all] settles once every batch has finished. *)
Definition all_finished (st : state) : bool :=
  forallb (fun t => is_finished (snd t)) (tasks st).

(** The event loop runs the schedule until every batch has finished;
    [None] when a turn is not enabled or the schedule ends early or
    late. *)
Fixpoint run (st : state) (sched : list tick) : option state :=
  if all_finished st then
    match sched with [] => Some st | _ :: _ => None end
  else
    match sched with
    | [] => None
    | tk :: rest =>
        match step st tk with
        | Some st' => run st' rest
        | None => None
        end
    end.

(** The state when [Promise.all] is first awaited. *)
Definition start (chunks : list (list string)) (aborted0 : bool) : state :=
  let '(ts, results0, ev) :=
    dequeue 0 0 (map (fun c => (c, Queued)) chunks) [] in
  {| tasks := ts; results := results0; trace := ev; aborted := aborted0 |}.

End Client.

(** [deleteUsersAmplitude(publicIds, apiKey, options)] under a schedule:
    [inl e] when it throws [e] before any batch exists, [inr st] when it
    returns [results st], [None] when it does not return.  [fuel] bounds
    the batch loop; [aborted0] is the coordinator's flag when the call
    is made, kept in the state of the event loop because the signal
    handlers run between the turns of the client. *)
Definition deleteUsersAmplitude (fuel : nat) (publicIds : list string)
  (apiKey : string) (options : AmplitudeOptions)
  (aborted0 : bool) (sched : list tick) : option (exn + state) :=
  let batchSize := match batchSize options with
                   | Some c => c | None => Fin 300 end in
  let concurrentBatches := match concurrentBatches options with
                           | Some n => n | None => 4 end in
  let maxAttempts := match maxAttempts options with
                     | Some n => n | None => 5 end in
  if String.eqb apiKey "" then Some (inl "Missing Amplitude API key")
  else
    match split_batches fuel publicIds batchSize with
    | None => None
    | Some chunks =>
        (* pLimit rejects a concurrency that is not 1 or more *)
        if concurrentBatches =? 0 then
          Some (inl "Expected `concurrency` to be a number from 1 and up")
        else
          match run concurrentBatches maxAttempts apiKey
                  (start concurrentBatches maxAttempts apiKey chunks aborted0)
                  sched with
          | Some st => Some (inr st)
          | None => None
          end
    end.

(** Projections of a trace. *)
Definition event_idx (e : event) : option nat :=
  match e with
  | Start i | Fetch i _ _ _ | Settled i _ | Sleep i _ _ | Exhausted i => Some i
  | Signalled => None
  end.

Definition is_fetch_of (idx : nat) (e : event) : bool :=
  match e with Fetch i _ _ _ => i =? idx | _ => false end.

Definition is_fetch (e : event) : bool :=
  match e with Fetch _ _ _ _ => true | _ => false end.

Definition is_start (e : event) : bool :=
  match e with Start _ => true | _ => false end.

(** The events of batch [idx]. *)
Definition concerns (idx : nat) (e : event) : bool :=
  match event_idx e with
  | Some i => i =? idx
  | None => false
  end.

Definition proj (idx : nat) (t : list event) : list event :=
  filter (concerns idx) t.

(** The number of requests issued for batch [idx]. *)
Definition fetches (idx : nat) (t : list event) : nat :=
  length (filter is_fetch (proj idx t)).


(** What a batch does when the limiter lets it start: the head of the
    retry loop at attempt 0. *)
Definition first_phase (maxAttempts : nat) : phase :=
  if 0 <? maxAttempts then AwaitFetch 0 else Finished.

Definition first_events (maxAttempts : nat) (apiKey : string)
  (idx : nat) (chunk : list string) : list event :=
  if 0 <? maxAttempts then [Fetch idx 0 chunk apiKey] else [Exhausted idx].


(** A permanent failure: not [ok] and below 500. *)
Definition permanent (status : nat) : bool :=
  negb (res_ok status) && (status <? 500).


(** The identifiers of the batches whose phase satisfies [f]. *)
Definition ids_where (f : phase -> bool) (ts : list task) : list string :=
  flat_map (fun t => if f (snd t) then fst t else []) ts.

Definition is_queued (p : phase) : bool :=
  match p with Queued => true | _ => false end.

(** Every value [Math.random()] returns lies in [0, 1). *)
Definition random_ok (tk : tick) : Prop :=
  match tk with
  | Resolve _ _ random => (0 <= random /\ random < 1)%Q
  | Signal => True
  end.


End Amplitude.

(* ================================================================== *)
(** ** Run coordinator (main.ts) *)

Module Main.

(** The elements a parsed [ids.json] array can hold, as far as
    [String(...)] tells them apart: strings, natural numbers, booleans
    and [null]. *)
Inductive jsval : Type :=
| JString (s : string)
| JNumber (n : nat)
| JBoolean (b : bool)
| JNull.

(** [String(v)] *)
Definition js_String (v : jsval) : string :=
  match v with
  | JString s => s
  | JNumber n => show_nat n
  | JBoolean true => "true"
  | JBoolean false => "false"
  | JNull => "null"
  end.

(** [await readFile(idsPath, "utf8")] followed by [JSON.parse]. *)
Inductive file : Type :=
| Unreadable (e : exn)            (* readFile rejects *)
| Malformed (e : exn)             (* JSON.parse throws *)
| NotArray                        (* a JSON value that is not an array *)
| Array (elems : list jsval).

(** [new Set(iterable)]: elements in order of first insertion. *)
Fixpoint set_add_all (l seen : list string) : list string :=
  match l with
  | [] => seen
  | x :: rest =>
      set_add_all rest
        (if existsb (String.eqb x) seen then seen else seen ++ [x])
  end.

(** [[...new Set(xs)]] *)
Definition dedupe (xs : list string) : list string := set_add_all xs [].

Inductive db_status : Type := DbSuccess | DbFailed.

Record ReportInput : Type := { totalIds : nat; uniqueIds : nat }.

Record ReportDatabase : Type := {
  status : db_status;
  error : option string
}.

Record ReportAmplitude : Type := {
  successful : nat;
  failed : nat;
  results : list Amplitude.AmplitudeResult
}.

(** [GdprReport] without its two timestamps. *)
Record GdprReport : Type := {
  requestId : string;
  requestedBy : string;
  dryRun : bool;
  input : ReportInput;
  database : ReportDatabase;
  amplitude : ReportAmplitude
}.

(** Everything a run reads from outside.  A variable that is unset
    or empty is [None].  The four numeric options are given by what
    [Number(...)] makes of the string: for the two sizes a natural
    number, [Infinity], or [NaN] when the string is no number; for the
    concurrency and the number of attempts a natural number, 0 standing
    for [NaN] too (see [Amplitude.AmplitudeOptions]). *)
Record world : Type := {
  DB_URL : option string;
  AMPLITUDE_KEY : option string;
  REQUEST_ID : option string;
  REQUESTED_BY : option string;
  DRY_RUN : option string;
  SQL_PATH : option string;
  DB_CHUNK_SIZE : option jsnum;
  DB_STMT_TIMEOUT_MS : option Z;
  AMP_BATCH_SIZE : option jsnum;
  AMP_CONCURRENCY : option nat;
  AMP_MAX_ATTEMPTS : option nat;
  randomUUID : string;
  ids_json : file;
  store : nat -> Db.step -> option exn;
  signal_while_loading : bool;      (* SIGTERM/SIGINT before the first check *)
  signal_during_db : bool;          (* ... while the engine runs *)
  schedule : list Amplitude.tick    (* the event loop during the client *)
}.

Inductive summary : Type :=
| SummaryDone                   (* "GDPR Deletion Summary ..." *)
| SummaryFailed (msg : string)  (* "GDPR Deletion FAILED ... Error: msg" *)
| SummaryFatal (msg : string).  (* "FATAL ERROR: msg" *)

(** What a run leaves behind. *)
Record exit : Type := {
  code : nat;                          (* process.exit(code) *)
  report_json : option GdprReport;     (* report.json, when written *)
  summary_txt : summary;
  db_trace : list Db.event;
  amp_trace : list Amplitude.event
}.

(** [process.env[name] || fallback] *)
Definition or_else (v : option string) (fallback : string) : string :=
  match v with
  | Some s => if String.eqb s "" then fallback else s
  | None => fallback
  end.

Definition requireEnv (name : string) (v : option string) : exn + string :=
  match v with
  | Some s =>
      if String.eqb s "" then
        inl ("Missing required environment variable: " ++ name)%string
      else inr s
  | None => inl ("Missing required environment variable: " ++ name)%string
  end.

(** The [catch] block of [main]: write the report, exit with 1. *)
Definition fatal (report : GdprReport) (msg : string)
  (dt : list Db.event) (at_ : list Amplitude.event) : exit :=
  {| code := 1; report_json := Some report;
     summary_txt := SummaryFailed msg; db_trace := dt; amp_trace := at_ |}.

(** [main().catch(...)]: an error thrown outside the [try]. *)
Definition unexpected (msg : string) : exit :=
  {| code := 1; report_json := None;
     summary_txt := SummaryFatal msg; db_trace := []; amp_trace := [] |}.

Definition set_input (r : GdprReport) (i : ReportInput) : GdprReport :=
  {| requestId := requestId r; requestedBy := requestedBy r;
     dryRun := dryRun r; input := i; database := database r;
     amplitude := amplitude r |}.

Definition set_database (r : GdprReport) (d : ReportDatabase) : GdprReport :=
  {| requestId := requestId r; requestedBy := requestedBy r;
     dryRun := dryRun r; input := input r; database := d;
     amplitude := amplitude r |}.

Definition set_amplitude (r : GdprReport) (a : ReportAmplitude) : GdprReport :=
  {| requestId := requestId r; requestedBy := requestedBy r;
     dryRun := dryRun r; input := input r; database := database r;
     amplitude := a |}.

(** [main()] and the handler of [main().catch], on a disk that takes
    every write; [program] below is the run on a disk that refuses
    some. *)
Definition main (fuel : nat) (w : world) : option exit :=
  match requireEnv "DB_URL" (DB_URL w) with
  | inl e => Some (unexpected e)
  | inr dbUrl =>
  match requireEnv "AMPLITUDE_KEY" (AMPLITUDE_KEY w) with
  | inl e => Some (unexpected e)
  | inr amplitudeKey =>
    let requestId := or_else (REQUEST_ID w) (randomUUID w) in
    let requestedBy := or_else (REQUESTED_BY w) "unknown" in
    let dryRun := match DRY_RUN w with
                  | Some s => String.eqb s "true" | None => false end in
    let report :=
      {| requestId := requestId; requestedBy := requestedBy;
         dryRun := dryRun;
         input := {| totalIds := 0; uniqueIds := 0 |};
         database := {| status := DbSuccess; error := None |};
         amplitude := {| successful := 0; failed := 0; results := [] |} |} in
    let aborted := false in
    match ids_json w with
    | Unreadable e => Some (fatal report e [] [])
    | Malformed e => Some (fatal report e [] [])
    | NotArray =>
        Some (fatal report "Input must be a JSON array of user IDs" [] [])
    | Array parsedIds =>
      if length parsedIds =? 0 then
        Some (fatal report "Input array is empty" [] [])
      else
        let aborted := aborted || signal_while_loading w in
        (* Deduplicate IDs *)
        let allIds := dedupe (map js_String parsedIds) in
        let report :=
          set_input report {| totalIds := length parsedIds;
                              uniqueIds := length allIds |} in
        if aborted then
          Some (fatal report "Job aborted before database step" [] [])
        else
          (* Step 1: Database deletions *)
          match Db.runGdprSqlWithTempTable (store w) fuel
                  {| Db.sqlPath := or_else (SQL_PATH w) "sql/gdpr-deletion.sql";
                     Db.ids := allIds;
                     Db.chunkSize :=
                       Some (match DB_CHUNK_SIZE w with
                             | Some c => c | None => Infinity end);
                     Db.statementTimeoutMs :=
                       Some (match DB_STMT_TIMEOUT_MS w with
                             | Some t => t | None => 300000%Z end) |} with
          | None => None
          | Some (dt, inl e) =>
              let report :=
                set_database report
                  {| status := DbFailed; error := Some e |} in
              Some (fatal report
                      ("Database deletion failed: " ++ e)%string dt [])
          | Some (dt, inr _) =>
              let report :=
                set_database report
                  {| status := DbSuccess; error := error (database report) |} in
              let aborted := aborted || signal_during_db w in
              if aborted then
                Some (fatal report "Job aborted after database step" dt [])
              else
                (* Step 2: Amplitude deletions *)
                match Amplitude.deleteUsersAmplitude fuel allIds amplitudeKey
                        {| Amplitude.batchSize :=
                             Some (match AMP_BATCH_SIZE w with
                                   | Some c => c | None => Fin 300 end);
                           Amplitude.concurrentBatches :=
                             Some (match AMP_CONCURRENCY w with
                                   | Some n => n | None => 4 end);
                           Amplitude.maxAttempts :=
                             Some (match AMP_MAX_ATTEMPTS w with
                                   | Some n => n | None => 5 end) |}
                        aborted (schedule w) with
                | None => None
                | Some (inl e) => Some (fatal report e dt [])
                | Some (inr st) =>
                    let amplitudeResults := Amplitude.results st in
                    let report :=
                      set_amplitude report
                        {| results := amplitudeResults;
                           successful :=
                             length (filter Amplitude.ok amplitudeResults);
                           failed :=
                             length (filter (fun r => negb (Amplitude.ok r))
                                       amplitudeResults) |} in
                    Some {| code :=
                              if 0 <? failed (amplitude report) then 2 else 0;
                            report_json := Some report;
                            summary_txt := SummaryDone;
                            db_trace := dt;
                            amp_trace := Amplitude.trace st |}
                end
          end
    end
  end
  end.

(** *** The report files

    A run writes at one place only: in the [catch] block of [main]
    ([report.json], then the summary of the failure), in the last lines
    of [main] ([report.json], then the summary of the job), or in the
    handler of [main().catch] (the summary of the fatal error).  A
    write that rejects in [main] rejects the promise of [main], so that
    the handler runs, with the error of the write; the stages are over
    by then.  [disk k = Some e] when the [k]-th call of [writeFile] of
    the run rejects with [e]. *)

(** What a run leaves behind. *)
Record remains : Type := {
  exit_code : nat;                     (* the exit code of the process *)
  report_file : option GdprReport;     (* report.json, if written *)
  summary_file : option summary;       (* summary.txt, if written *)
  db_calls : list Db.event;
  amp_calls : list Amplitude.event
}.

(** [main().catch(async (err) => { await writeFile("summary.txt", ...);
    process.exit(1); })], its write being the [k]-th of the run.  When
    that write rejects too the rejection is unhandled, which ends the
    process with exit code 1. *)
Definition handler (disk : nat -> option exn) (k : nat) (msg : string)
  (written : option GdprReport) (x : exit) : remains :=
  {| exit_code := 1;
     report_file := written;
     summary_file := match disk k with
                     | None => Some (SummaryFatal msg)
                     | Some _ => None
                     end;
     db_calls := db_trace x;
     amp_calls := amp_trace x |}.

(** The writes of the run that [main] ends with [x]. *)
Definition on_disk (disk : nat -> option exn) (x : exit) : remains :=
  match summary_txt x with
  | SummaryFatal msg =>
      (* thrown outside the [try]: the handler writes first *)
      handler disk 0 msg None x
  | SummaryFailed _ | SummaryDone =>
      match disk 0 with                          (* report.json *)
      | Some e => handler disk 1 e None x
      | None =>
          match disk 1 with                      (* summary.txt *)
          | Some e => handler disk 2 e (report_json x) x
          | None =>
              {| exit_code := code x;
                 report_file := report_json x;
                 summary_file := Some (summary_txt x);
                 db_calls := db_trace x;
                 amp_calls := amp_trace x |}
          end
      end
  end.

(** The program on a disk. *)
Definition program (disk : nat -> option exn) (fuel : nat) (w : world)
  : option remains :=
  option_map (on_disk disk) (main fuel w).

(** The terminal status of a run, as the exit status tells it:
    0 is full success, 2 is partial success, anything else is fatal. *)
Inductive terminal : Type := success | partial | fatal_status.

Definition terminal_status (x : exit) : terminal :=
  match code x with
  | 0 => success
  | 2 => partial
  | _ => fatal_status
  end.

End Main.

(* ================================================================== *)
(** ** The per-user deletion script (scripts/delete-users.ts) *)

Module Script.

(** The statements [DatabaseService.deleteUser] sends on its
    connection.  ROLLBACK is sent from the [try] block and from the
    [catch] block. *)
Inductive stmt : Type :=
| Begin               (* BEGIN *)
| SelectUser          (* SELECT id FROM users WHERE public_id = $1 *)
| CountEvents         (* SELECT COUNT( * ) FROM user_events ... *)
| CountPreferences    (* SELECT COUNT( * ) FROM user_preferences ... *)
| CountSessions       (* SELECT COUNT( * ) FROM user_sessions ... *)
| DeleteEvents        (* DELETE FROM user_events WHERE user_id = $1 *)
| DeletePreferences   (* DELETE FROM user_preferences WHERE user_id = $1 *)
| DeleteSessions      (* DELETE FROM user_sessions WHERE user_id = $1 *)
| DeleteUser          (* DELETE FROM users WHERE id = $1 *)
| InsertAudit         (* INSERT INTO gdpr_deletion_audit ... *)
| Commit              (* COMMIT *)
| Rollback (in_catch : bool).   (* ROLLBACK *)

(** The script's interactions.  [k] is the position of the identifier
    in [args.publicIds]. *)
Inductive event : Type :=
| Connect (k : nat) (succeeded : bool)             (* pool.connect() *)
| Query (k : nat) (s : stmt) (succeeded : bool)    (* client.query(...) *)
| Audit (k : nat) (public_id request_id deleted_by : string)
    (rows_affected : nat) (succeeded : bool)       (* the audit INSERT *)
| Release (k : nat)                                (* client.release() *)
| Post (k attempt : nat) (user_id username password : string)
| Timeout (ms : Z).                                (* setTimeout *)

(** What the script meets outside: for the identifier at position [k],
    whether a connection is had, the [rowCount] of a statement (or the
    count a SELECT COUNT returns) unless it is rejected, and the status
    of the response to the request of an attempt unless no response is
    had. *)
Record world : Type := {
  connect : nat -> option exn;
  query : nat -> stmt -> exn + nat;
  post : nat -> nat -> exn + nat
}.

(** [axios.post(url, data, config)] with no [validateStatus] in
    [config]: the promise resolves with the response when its status is
    in the range 200-299 and rejects otherwise, as it does when no
    response is had. *)
Definition axios_post (w : world) (k attempt : nat) : exn + nat :=
  match post w k attempt with
  | inr status =>
      if (200 <=? status) && (status <? 300) then inr status
      else inl ("Request failed with status code " ++ show_nat status)%string
  | inl e => inl e
  end.

(** The part of [Config] the two services read.  [maxRetries] is
    [parseInt(process.env.MAX_RETRIES || '3', 10)]; a value that is not
    a number or is below 1 leaves the retry loop unentered, as 0 does. *)
Record Config : Type := {
  apiKey : string;
  secretKey : string;
  maxRetries : nat
}.

Record DeletionArgs : Type := {
  publicIds : list string;
  requestedBy : string;
  requestId : string;
  dryRun : bool
}.

Module DatabaseService.

Record result : Type := {
  success : bool;
  rowsDeleted : nat;
  error : option string
}.

Section Service.

Variable w : world.

Definition run (k : nat) (s : stmt) : M event nat :=
  match query w k s with
  | inl e => ([Query k s false], inl e)
  | inr n => ([Query k s true], inr n)
  end.

Definition audit (k : nat) (publicId requestId requestedBy : string)
  (rows : nat) : M event unit :=
  match query w k InsertAudit with
  | inl e => ([Audit k publicId requestId requestedBy rows false], inl e)
  | inr _ => ([Audit k publicId requestId requestedBy rows true], inr tt)
  end.

Definition acquire (k : nat) : M event unit :=
  match connect w k with
  | Some e => ([Connect k false], inl e)
  | None => ([Connect k true], inr tt)
  end.

Definition deleteUser (k : nat) (publicId requestId requestedBy : string)
  (dryRun : bool) : M event result :=
  acquire k ;;
  try_finally
    (try_catch
       (run k Begin ;;
        (* Check if user exists *)
        rowCount <- run k SelectUser ;;
        if rowCount =? 0 then
          run k (Rollback false) ;;
          ret {| success := false; rowsDeleted := 0;
                 error := Some "User not found" |}
        else if dryRun then
          (* Count what would be deleted *)
          eventCount <- run k CountEvents ;;
          prefCount <- run k CountPreferences ;;
          sessCount <- run k CountSessions ;;
          let totalRowsDeleted := eventCount + prefCount + sessCount + 1 in
          run k (Rollback false) ;;
          ret {| success := true; rowsDeleted := totalRowsDeleted;
                 error := None |}
        else
          (* Delete related records *)
          eventsResult <- run k DeleteEvents ;;
          prefsResult <- run k DeletePreferences ;;
          sessResult <- run k DeleteSessions ;;
          (* Delete user *)
          userResult <- run k DeleteUser ;;
          let totalRowsDeleted :=
            0 + eventsResult + prefsResult + sessResult + userResult in
          (* Insert audit record *)
          audit k publicId requestId requestedBy totalRowsDeleted ;;
          run k Commit ;;
          ret {| success := true; rowsDeleted := totalRowsDeleted;
                 error := None |})
       (fun err =>
          run k (Rollback true) ;;
          ret {| success := false; rowsDeleted := 0; error := Some err |}))
    (emit (Release k)).

End Service.

End DatabaseService.

Module AmplitudeService.

Record result : Type := {
  success : bool;
  error : option string
}.

Section Service.

Variables (w : world) (config : Config).

(** [for (let attempt = 1; attempt <= this.maxRetries; attempt++)]
    over the attempts still to come.  A response the promise resolves
    with and whose status is not 200 falls through to the next attempt
    at once; a rejection, which every response outside 200-299 is,
    goes to the [catch] block and is followed by the backoff unless the
    attempt is the last. *)
Fixpoint attempts (k : nat) (publicId : string) (todo : list nat)
  : list event * result :=
  match todo with
  | [] => ([], {| success := false; error := Some "Max retries exceeded" |})
  | attempt :: rest =>
      let request :=
        Post k attempt publicId (apiKey config) (secretKey config) in
      match axios_post w k attempt with
      | inr status =>
          if status =? 200 then
            ([request], {| success := true; error := None |})
          else
            let (t, r) := attempts k publicId rest in (request :: t, r)
      | inl _ =>
          let backoff :=
            if attempt <? maxRetries config
            then [Timeout (1000 * 2 ^ Z.of_nat attempt)%Z] else [] in
          let (t, r) := attempts k publicId rest in
          (request :: backoff ++ t, r)
      end
  end.

Definition deleteUser (k : nat) (publicId : string) (dryRun : bool)
  : list event * result :=
  if String.eqb (apiKey config) "" || String.eqb (secretKey config) "" then
    ([], {| success := true; error := None |})
  else if dryRun then
    ([], {| success := true; error := None |})
  else attempts k publicId (seq 1 (maxRetries config)).

End Service.

End AmplitudeService.

(** [results] and the two counters of [executeDeleteions]. *)
Record totals : Type := {
  successful : list string;
  failed : list (string * string);    (* publicId, error *)
  totalDbRowsDeleted : nat;
  totalAmplitudeDeleted : nat
}.

Record Summary : Type := {
  totalRequested : nat;
  dbRowsDeleted : nat;
  amplitudeDeleted : nat;
  n_successful : nat;
  n_failed : nat
}.

(** How the process ends: [process.exit(code)], after the summary when
    the loop came to its end. *)
Record exit : Type := {
  code : nat;
  summary : option Summary;
  listed : option totals
}.

Section Deletions.

Variables (w : world) (config : Config) (args : DeletionArgs).

(** [for (const publicId of args.publicIds) { ... }] from position [k]. *)
Fixpoint process (k : nat) (ids : list string) (acc : totals)
  : M event totals :=
  match ids with
  | [] => ret acc
  | publicId :: rest =>
      (* Step 1: Delete from database *)
      dbResult <- DatabaseService.deleteUser w k publicId
                    (requestId args) (requestedBy args) (dryRun args) ;;
      if negb (DatabaseService.success dbResult) then
        process (S k) rest
          {| successful := successful acc;
             failed :=
               failed acc ++
               [(publicId,
                 match DatabaseService.error dbResult with
                 | Some e => if String.eqb e "" then "Database deletion failed"
                             else e
                 | None => "Database deletion failed"
                 end)];
             totalDbRowsDeleted := totalDbRowsDeleted acc;
             totalAmplitudeDeleted := totalAmplitudeDeleted acc |}
      else
        (* Step 2: Delete from Amplitude (only if DB succeeded) *)
        let (t, ampResult) :=
          AmplitudeService.deleteUser w config k publicId (dryRun args) in
        bind (t, inr tt) (fun _ =>
        process (S k) rest
          {| successful := successful acc ++ [publicId];
             failed := failed acc;
             totalDbRowsDeleted :=
               totalDbRowsDeleted acc
               + DatabaseService.rowsDeleted dbResult;
             totalAmplitudeDeleted :=
               if AmplitudeService.success ampResult
               then S (totalAmplitudeDeleted acc)
               else totalAmplitudeDeleted acc |})
  end.

(** [executeDeleteions(args)].  Both the [try] block and the [catch]
    block end in [process.exit], which ends the process there. *)
Definition executeDeleteions : list event * exit :=
  match process 0 (publicIds args)
          {| successful := []; failed := [];
             totalDbRowsDeleted := 0; totalAmplitudeDeleted := 0 |} with
  | (t, inr results) =>
      let summary :=
        {| totalRequested := length (publicIds args);
           dbRowsDeleted := totalDbRowsDeleted results;
           amplitudeDeleted := totalAmplitudeDeleted results;
           n_successful := length (successful results);
           n_failed := length (failed results) |} in
      let exitCode := if 0 <? length (failed results) then 1 else 0 in
      (t, {| code := exitCode; summary := Some summary;
             listed := Some results |})
  | (t, inl _) =>
      (t, {| code := 1; summary := None; listed := None |})
  end.

End Deletions.

End Script.

(* ================================================================== *)
(** * Vocabulary of the properties *)

Import Amplitude.

(** ** The engine's trace *)

(** The steps of a chunk in program order. *)
Definition step_index (s : Db.step) : nat :=
  match s with
  | Db.Connect => 0 | Db.Begin => 1 | Db.CreateTemp => 2 | Db.BulkLoad => 3
  | Db.ReadSql => 4 | Db.RunSql => 5 | Db.Commit => 6 | Db.Rollback => 7
  end.

(** The steps between BEGIN and COMMIT, both included. *)
Definition in_transaction (s : Db.step) : Prop :=
  1 <= step_index s <= 6.

(** [oracle] lets chunk [k] pass: no step of it fails. *)
Definition chunk_passes (oracle : nat -> Db.step -> option exn) (k : nat)
  : Prop :=
  forall s, s <> Db.Rollback -> oracle k s = None.

(** [s] is the first step of chunk [k] that fails, with message [e]. *)
Definition first_failure (oracle : nat -> Db.step -> option exn)
  (k : nat) (s : Db.step) (e : exn) : Prop :=
  oracle k s = Some e /\
  forall s', step_index s' < step_index s -> oracle k s' = None.

(** The calls of a chunk up to and including step number [n]; all
    succeed but perhaps the last. *)
Definition calls_upto (k n : nat) (sl : list string) (last_ok : bool)
  : list Db.event :=
  map (fun s => Db.Call k s (match s with Db.BulkLoad => sl | _ => [] end)
                  (if step_index s =? n then last_ok else true))
    (firstn (S n) [Db.Connect; Db.Begin; Db.CreateTemp; Db.BulkLoad;
                   Db.ReadSql; Db.RunSql; Db.Commit]).

Definition is_none {A : Type} (o : option A) : bool :=
  match o with None => true | Some _ => false end.

(** The trace of consecutive chunks that pass, the first with ordinal
    [k]. *)
Fixpoint passed (k : nat) (l : list (nat * list string)) : list Db.event :=
  match l with
  | [] => []
  | (start, sl) :: rest =>
      calls_upto k 6 sl true
        ++ [Db.Processed (length sl) start; Db.Release k]
        ++ passed (S k) rest
  end.

(** The trace of a chunk whose step [s] fails. *)
Definition failing (oracle : nat -> Db.step -> option exn) (k : nat)
  (s : Db.step) (sl : list string) : list Db.event :=
  calls_upto k (step_index s) sl false ++
    [Db.Call k Db.Rollback [] (is_none (oracle k Db.Rollback));
     Db.Release k].

(** An event that is not a failed call. *)
Definition call_ok (ev : Db.event) : Prop :=
  match ev with
  | Db.Call _ _ _ false => False
  | _ => True
  end.

(** ** The client's invariants *)

(** The outcome entries are those of the finished batches. *)
Definition accounted (st : state) : Prop :=
  Permutation (map id (results st)) (ids_where is_finished (tasks st)).

(** All the events of [ev] are events of batch [idx]. *)
Definition concerns_only (idx : nat) (ev : list event) : Prop :=
  Forall (fun e => event_idx e = Some idx) ev.






(** While a batch is queued, the limiter is full. *)
Definition saturated (concurrency : nat) (ts : list task) : Prop :=
  existsb (fun t => is_queued (snd t)) ts = true ->
  concurrency <= count_active ts.

(** A bound on the turns a batch still takes when every request from
    now on is answered with success. *)
Definition weight (p : phase) : nat :=
  match p with
  | Queued => 3
  | AwaitSleep _ => 2
  | AwaitFetch _ | AwaitText _ _ => 1
  | Finished => 0
  end.

Definition total_weight (ts : list task) : nat :=
  list_sum (map (fun t => weight (snd t)) ts).

(** The settlement that lets an active batch get on: success for a
    request, the body for a refused request, the timer for a sleep. *)
Definition favourable (p : phase) : resolution :=
  match p with
  | AwaitText _ _ => Text ""
  | AwaitSleep _ => Elapsed
  | _ => Response 200
  end.

(** ** Signals *)

Definition is_signalled (e : event) : bool :=
  match e with Signalled => true | _ => false end.

Definition is_resolve (tk : tick) : bool :=
  match tk with Resolve _ _ _ => true | Signal => false end.

(** Some batch is started, and its request issued, after a signal was
    handled. *)
Fixpoint issued_after_signal (t : list event) : bool :=
  match t with
  | [] => false
  | Signalled :: t' => existsb is_start t' && existsb is_fetch t'
  | _ :: t' => issued_after_signal t'
  end.

(** The trace without its signals. *)
Definition work (t : list event) : list event :=
  filter (fun e => negb (is_signalled e)) t.

(** Two states of the event loop that differ in signals only. *)
Definition same_work (s1 s2 : state) : Prop :=
  tasks s1 = tasks s2 /\ results s1 = results s2 /\
  work (trace s1) = work (trace s2).

(** ** Runs and what they leave *)

(** The exit of a run that is known to end. *)
Definition exit_of (r : option Main.exit) : Main.exit :=
  match r with
  | Some out => out
  | None => Main.unexpected "the run did not end"
  end.

(** What a program run that is known to end leaves behind. *)
Definition remains_of (r : option Main.remains) : Main.remains :=
  match r with
  | Some out => out
  | None => Main.on_disk (fun _ => None)
              (Main.unexpected "the run did not end")
  end.

(** A disk that takes every write, and one that is full. *)
Definition writable (k : nat) : option exn := None.

Definition disk_full (k : nat) : option exn :=
  Some "ENOSPC: no space left on device, write".

(** A disk that takes the report and refuses the summary that
    follows it. *)
Definition summary_refused (k : nat) : option exn :=
  if k =? 1 then Some "ENOSPC: no space left on device, write" else None.

(** The final state of a run of the client that is known to return. *)
Definition final_of (r : option (exn + state)) : state :=
  match r with
  | Some (inr st) => st
  | _ => {| tasks := []; results := []; trace := []; aborted := false |}
  end.

(** What a run does to the two stores, and its exit code. *)
Definition mutations (out : Main.exit)
  : list Db.event * list Amplitude.event * nat :=
  (Main.db_trace out, Main.amp_trace out, Main.code out).

(** [w] with DRY_RUN set to [v]. *)
Definition with_dry_run (w : Main.world) (v : option string) : Main.world :=
  {| Main.DB_URL := Main.DB_URL w;
     Main.AMPLITUDE_KEY := Main.AMPLITUDE_KEY w;
     Main.REQUEST_ID := Main.REQUEST_ID w;
     Main.REQUESTED_BY := Main.REQUESTED_BY w;
     Main.DRY_RUN := v;
     Main.SQL_PATH := Main.SQL_PATH w;
     Main.DB_CHUNK_SIZE := Main.DB_CHUNK_SIZE w;
     Main.DB_STMT_TIMEOUT_MS := Main.DB_STMT_TIMEOUT_MS w;
     Main.AMP_BATCH_SIZE := Main.AMP_BATCH_SIZE w;
     Main.AMP_CONCURRENCY := Main.AMP_CONCURRENCY w;
     Main.AMP_MAX_ATTEMPTS := Main.AMP_MAX_ATTEMPTS w;
     Main.randomUUID := Main.randomUUID w;
     Main.ids_json := Main.ids_json w;
     Main.store := Main.store w;
     Main.signal_while_loading := Main.signal_while_loading w;
     Main.signal_during_db := Main.signal_during_db w;
     Main.schedule := Main.schedule w |}.

(* ================================================================== *)
(** * Scenarios *)

(** A run with its credentials set: the identifiers of [ids.json], the
    options that vary, the store, a signal while the engine runs, and
    the schedule of the client. *)
Definition scenario (ids : list string) (dry : option string)
  (chunk batch limit attempts : option nat)
  (oracle : nat -> Db.step -> option exn) (signal : bool)
  (sched : list tick) : Main.world :=
  {| Main.DB_URL := Some "postgres://gdpr@db/product_b";
     Main.AMPLITUDE_KEY := Some "amp-key";
     Main.REQUEST_ID := Some "6f1c2d9e-5a0b-4c59-9d7e-0a1b2c3d4e5f";
     Main.REQUESTED_BY := Some "product-a";
     Main.DRY_RUN := dry;
     Main.SQL_PATH := None;
     Main.DB_CHUNK_SIZE := option_map Fin chunk;
     Main.DB_STMT_TIMEOUT_MS := None;
     Main.AMP_BATCH_SIZE := option_map Fin batch;
     Main.AMP_CONCURRENCY := limit;
     Main.AMP_MAX_ATTEMPTS := attempts;
     Main.randomUUID := "00000000-0000-4000-8000-000000000000";
     Main.ids_json := Main.Array (map Main.JString ids);
     Main.store := oracle;
     Main.signal_while_loading := false;
     Main.signal_during_db := signal;
     Main.schedule := sched |}.

(** A store that never fails. *)
Definition sound_store (k : nat) (s : Db.step) : option exn := None.

(** [w] with DB_CHUNK_SIZE and AMP_BATCH_SIZE set to what [Number]
    makes of them. *)
Definition with_sizes (w : Main.world) (chunk batch : option jsnum)
  : Main.world :=
  {| Main.DB_URL := Main.DB_URL w;
     Main.AMPLITUDE_KEY := Main.AMPLITUDE_KEY w;
     Main.REQUEST_ID := Main.REQUEST_ID w;
     Main.REQUESTED_BY := Main.REQUESTED_BY w;
     Main.DRY_RUN := Main.DRY_RUN w;
     Main.SQL_PATH := Main.SQL_PATH w;
     Main.DB_CHUNK_SIZE := chunk;
     Main.DB_STMT_TIMEOUT_MS := Main.DB_STMT_TIMEOUT_MS w;
     Main.AMP_BATCH_SIZE := batch;
     Main.AMP_CONCURRENCY := Main.AMP_CONCURRENCY w;
     Main.AMP_MAX_ATTEMPTS := Main.AMP_MAX_ATTEMPTS w;
     Main.randomUUID := Main.randomUUID w;
     Main.ids_json := Main.ids_json w;
     Main.store := Main.store w;
     Main.signal_while_loading := Main.signal_while_loading w;
     Main.signal_during_db := Main.signal_during_db w;
     Main.schedule := Main.schedule w |}.

(** A batch size that is no number, the other options left to their
    defaults. *)
Definition batches_of_NaN : AmplitudeOptions :=
  {| batchSize := Some NaN; concurrentBatches := None;
     maxAttempts := None |}.

(** AMP_BATCH_SIZE=abc: two identifiers, a store that never fails, and
    the one request of the client answered with 200. *)
Definition batch_size_abc : Main.world :=
  with_sizes
    (scenario ["u1"; "u2"] None None None None None sound_store false
       [Resolve 0 (Response 200) 0%Q])
    None (Some NaN).

(** DB_CHUNK_SIZE=abc, the same otherwise. *)
Definition chunk_size_abc : Main.world :=
  with_sizes
    (scenario ["u1"; "u2"] None None None None None sound_store false
       [Resolve 0 (Response 200) 0%Q])
    (Some NaN) None.

(** COMMIT of the second chunk fails. *)
Definition commit_of_second_fails (k : nat) (s : Db.step) : option exn :=
  if (k =? 1) && Db.step_eqb s Db.Commit then Some "deadlock detected"
  else None.

(** Three identifiers in chunks of one. *)
Definition three_chunks : Db.RunSqlOptions :=
  {| Db.sqlPath := "sql/gdpr-deletion.sql";
     Db.ids := ["u1"; "u2"; "u3"];
     Db.chunkSize := Some (Fin 1);
     Db.statementTimeoutMs := None |}.

(** Scenario B: three chunks, the second one throws. *)
Definition scenario_B : Main.world :=
  scenario ["u1"; "u2"; "u3"] None (Some 1) None None None
    commit_of_second_fails false [].

(** A dry run of one identifier against a store and a service that
    answer well. *)
Definition dry_run_of_one : Main.world :=
  scenario ["u1"] (Some "true") None None None None sound_store false
    [Resolve 0 (Response 200) 0%Q].

(** Five identifiers in batches of two, two at a time, two attempts: the
    first batch succeeds, the second is refused with 404, the third
    meets 503 and then 500. *)
Definition mixed_outcomes : list tick :=
  [Resolve 1 (Response 404) 0%Q;
   Resolve 0 (Response 200) 0%Q;
   Resolve 1 (Text "invalid user") 0%Q;
   Resolve 2 (Response 503) (1 # 2)%Q;
   Resolve 2 Elapsed 0%Q;
   Resolve 2 (Response 500) (1 # 4)%Q;
   Resolve 2 Elapsed 0%Q].





(** Scenario C: the second batch, [u3] and [u4], is refused. *)
Definition scenario_C : Main.world :=
  scenario ["u1"; "u2"; "u3"; "u4"] None None (Some 2) None None
    sound_store false
    [Resolve 0 (Response 200) 0%Q;
     Resolve 1 (Response 400) 0%Q;
     Resolve 1 (Text "invalid user id") 0%Q].

(** Two one-identifier batches, one at a time; the signal is handled
    while the first request is in flight. *)
Definition signal_mid_flight : Main.world :=
  scenario ["u1"; "u2"] None None (Some 1) (Some 1) None sound_store false
    [Signal;
     Resolve 0 (Response 200) 0%Q;
     Resolve 1 (Response 200) 0%Q].

(** The signal is handled while the engine runs. *)
Definition signal_during_engine : Main.world :=
  scenario ["u1"; "u2"] None None None None None sound_store true [].

(* ================================================================== *)
(** * Vocabulary of the further properties *)

(** ** Connections and transactions of the engine *)

(** Whether a client is checked out of the pool, and whether a
    transaction is open on it. *)
Definition usage : Type := (bool * bool)%type.

(** The effect of one event on the usage; [None] when the event breaks
    the discipline: a second client checked out, a query without a
    client, BEGIN inside a transaction, a client released or the pool
    ended with a transaction neither committed nor sent a ROLLBACK. *)
Definition use (u : usage) (e : Db.event) : option usage :=
  match e with
  | Db.NewPool _ _ | Db.Processed _ _ => Some u
  | Db.PoolEnd => if fst u then None else Some u
  | Db.Release _ =>
      match u with (true, false) => Some (false, false) | _ => None end
  | Db.Call _ Db.Connect _ ok =>
      if fst u then None else Some (ok, false)
  | Db.Call _ Db.Begin _ ok =>
      match u with
      | (true, false) => Some (true, ok)
      | _ => None
      end
  | Db.Call _ Db.Commit _ ok =>
      match u with
      | (true, tx) => Some (true, if ok then false else tx)
      | _ => None
      end
  | Db.Call _ Db.Rollback _ _ =>
      if fst u then Some (true, false) else None
  | Db.Call _ _ _ _ => if fst u then Some u else None
  end.

Fixpoint walk (u : usage) (t : list Db.event) : option usage :=
  match t with
  | [] => Some u
  | e :: t' =>
      match use u e with
      | Some u' => walk u' t'
      | None => None
      end
  end.

(** Nothing is checked out and no transaction is open. *)
Definition idle : usage := (false, false).

(** An event that is not a ROLLBACK. *)
Definition no_rollback (e : Db.event) : Prop :=
  match e with
  | Db.Call _ Db.Rollback _ _ => False
  | _ => True
  end.

(** ** The event loop, turn by turn *)

(** The state after the turns of [sched], whether or not every batch
    has finished by then. *)
Fixpoint follow (concurrency maxAttempts : nat) (apiKey : string)
  (st : state) (sched : list tick) : option state :=
  match sched with
  | [] => Some st
  | tk :: rest =>
      match step concurrency maxAttempts apiKey st tk with
      | Some st' => follow concurrency maxAttempts apiKey st' rest
      | None => None
      end
  end.

(** A request as the client may issue it for the batches [chunks]: the
    identifiers of the batch it names, the caller's key, an attempt
    below the limit. *)
Definition request_ok (maxAttempts : nat) (apiKey : string)
  (chunks : list (list string)) (e : event) : Prop :=
  match e with
  | Fetch idx attempt user_ids key =>
      nth_error chunks idx = Some user_ids /\ key = apiKey /\
      attempt < maxAttempts
  | _ => True
  end.

(** The batches are those of [chunks], and every request in the trace
    is one for a batch of [chunks]. *)
Definition requests_inv (maxAttempts : nat) (apiKey : string)
  (chunks : list (list string)) (st : state) : Prop :=
  map fst (tasks st) = chunks /\
  Forall (request_ok maxAttempts apiKey chunks) (trace st).

(** An outcome entry as the trace [t] warrants it.  The entry is for
    an identifier of some batch [idx]; [ok: true] carries no detail and
    follows an ok response to a request of that batch; [ok: false]
    carries one of three details: the status and body of a refusal
    received for the batch, the error of a rejected promise of its last
    attempt, or "Retry exhausted" once the batch has left its retry
    loop. *)
Definition entry_ok (maxAttempts : nat) (chunks : list (list string))
  (t : list event) (r : AmplitudeResult) : Prop :=
  exists idx c,
    nth_error chunks idx = Some c /\ In (id r) c /\
    if ok r then
      error r = None /\
      exists status,
        In (Settled idx (Response status)) t /\ res_ok status = true
    else
      (exists status body,
          error r = Some (http_error status body) /\
          permanent status = true /\
          In (Settled idx (Response status)) t /\
          In (Settled idx (Text body)) t) \/
      (exists err,
          error r = Some (network_error maxAttempts err) /\
          (In (Settled idx (FetchError err)) t \/
           In (Settled idx (TextError err)) t)) \/
      (error r = Some "Retry exhausted" /\ In (Exhausted idx) t).

(** A batch that waits for the body of a response has received that
    response, a refusal. *)
Definition refusal_seen (st : state) : Prop :=
  forall idx c a status,
    nth_error (tasks st) idx = Some (c, AwaitText a status) ->
    permanent status = true /\
    In (Settled idx (Response status)) (trace st).

(** What holds of the entries at every turn: the batches are those of
    [chunks], a batch waiting for a body has seen its refusal, and
    every entry is warranted by the trace. *)
Definition entries_inv (maxAttempts : nat) (apiKey : string)
  (chunks : list (list string)) (st : state) : Prop :=
  requests_inv maxAttempts apiKey chunks st /\
  refusal_seen st /\
  Forall (entry_ok maxAttempts chunks (trace st)) (results st).

(** An event that stages no identifier. *)
Definition stages_nothing (e : Db.event) : Prop :=
  match e with
  | Db.Call _ Db.BulkLoad param _ => param = []
  | _ => True
  end.

(** The state an enabled schedule leads to. *)
Definition reached (o : option state) : state :=
  match o with
  | Some st => st
  | None => {| tasks := []; results := []; trace := []; aborted := false |}
  end.

(** The attempt numbers of the requests among the events [evs], in
    order. *)
Fixpoint attempts_of (evs : list event) : list nat :=
  match evs with
  | [] => []
  | Fetch _ attempt _ _ :: evs' => attempt :: attempts_of evs'
  | _ :: evs' => attempts_of evs'
  end.

(** The requests of a batch in phase [p] so far are those of attempts
    0, 1, ..., n - 1, and the phase tells n unless the batch has
    finished. *)
Definition attempts_inv (maxAttempts : nat) (p : phase) (evs : list event)
  : Prop :=
  exists n,
    attempts_of evs = seq 0 n /\
    match p with
    | Queued => n = 0
    | AwaitFetch a | AwaitText a _ | AwaitSleep a =>
        n = S a /\ a < maxAttempts
    | Finished => n <= maxAttempts
    end.

(** No batch has met a failure: every batch waits in the queue, awaits
    the response to a request, or has finished, and every entry is
    [ok: true]. *)
Definition on_track (st : state) : Prop :=
  (forall idx c p,
      nth_error (tasks st) idx = Some (c, p) ->
      match p with
      | Queued | AwaitFetch _ | Finished => True
      | _ => False
      end) /\
  Forall (fun r => ok r = true) (results st).

(** A turn in which a request is answered with status 200. *)
Definition answers_200 (tk : tick) : Prop :=
  match tk with
  | Resolve _ (Response 200) _ => True
  | _ => False
  end.

(** [w] with the event loop following [sched] while the client runs. *)
Definition with_schedule (w : Main.world) (sched : list tick) : Main.world :=
  {| Main.DB_URL := Main.DB_URL w;
     Main.AMPLITUDE_KEY := Main.AMPLITUDE_KEY w;
     Main.REQUEST_ID := Main.REQUEST_ID w;
     Main.REQUESTED_BY := Main.REQUESTED_BY w;
     Main.DRY_RUN := Main.DRY_RUN w;
     Main.SQL_PATH := Main.SQL_PATH w;
     Main.DB_CHUNK_SIZE := Main.DB_CHUNK_SIZE w;
     Main.DB_STMT_TIMEOUT_MS := Main.DB_STMT_TIMEOUT_MS w;
     Main.AMP_BATCH_SIZE := Main.AMP_BATCH_SIZE w;
     Main.AMP_CONCURRENCY := Main.AMP_CONCURRENCY w;
     Main.AMP_MAX_ATTEMPTS := Main.AMP_MAX_ATTEMPTS w;
     Main.randomUUID := Main.randomUUID w;
     Main.ids_json := Main.ids_json w;
     Main.store := Main.store w;
     Main.signal_while_loading := Main.signal_while_loading w;
     Main.signal_during_db := Main.signal_during_db w;
     Main.schedule := sched |}.

(** ** The script: vocabulary *)

(** The statements that change the database when committed, and
    COMMIT itself. *)
Definition mutating (s : Script.stmt) : bool :=
  match s with
  | Script.DeleteEvents | Script.DeletePreferences | Script.DeleteSessions
  | Script.DeleteUser | Script.InsertAudit | Script.Commit => true
  | _ => false
  end.

(** An interaction that can change the database or the data held by
    Amplitude. *)
Definition changes_data (e : Script.event) : bool :=
  match e with
  | Script.Query _ s _ => mutating s
  | Script.Audit _ _ _ _ _ _ => true
  | Script.Post _ _ _ _ _ => true
  | _ => false
  end.

(** The discipline of the script's interactions, event by event, over
    the same two facts as [use]: a connection is checked out, a
    transaction is open on it.  Statements other than BEGIN, COMMIT and
    ROLLBACK are sent inside a transaction; requests to Amplitude and
    the waits between them are made while no connection is held. *)
Definition script_use (u : usage) (e : Script.event) : option usage :=
  match e with
  | Script.Connect _ ok => if fst u then None else Some (ok, false)
  | Script.Release _ =>
      match u with (true, false) => Some (false, false) | _ => None end
  | Script.Query _ Script.Begin ok =>
      match u with (true, false) => Some (true, ok) | _ => None end
  | Script.Query _ Script.Commit ok =>
      match u with (true, true) => Some (true, negb ok) | _ => None end
  | Script.Query _ (Script.Rollback _) _ =>
      if fst u then Some (true, false) else None
  | Script.Query _ _ _ | Script.Audit _ _ _ _ _ _ =>
      match u with (true, true) => Some u | _ => None end
  | Script.Post _ _ _ _ _ | Script.Timeout _ =>
      if fst u then None else Some u
  end.

Fixpoint script_walk (u : usage) (t : list Script.event) : option usage :=
  match t with
  | [] => Some u
  | e :: t' =>
      match script_use u e with
      | Some u' => script_walk u' t'
      | None => None
      end
  end.

(** The attempts of the requests in a trace, and the waits, in order. *)
Fixpoint posts (t : list Script.event) : list nat :=
  match t with
  | [] => []
  | Script.Post _ attempt _ _ _ :: t' => attempt :: posts t'
  | _ :: t' => posts t'
  end.

Fixpoint timeouts (t : list Script.event) : list Z :=
  match t with
  | [] => []
  | Script.Timeout ms :: t' => ms :: timeouts t'
  | _ :: t' => timeouts t'
  end.

(** The response to attempt [a] for the identifier at [k] is a 200. *)
Definition accepted (w : Script.world) (k a : nat) : bool :=
  match Script.post w k a with
  | inr status => status =? 200
  | inl _ => false
  end.

(** The promise of the request of attempt [a] rejects: no response is
    had, or one with a status outside 200-299. *)
Definition rejected (w : Script.world) (k a : nat) : bool :=
  match Script.axios_post w k a with
  | inr _ => false
  | inl _ => true
  end.

(** A COMMIT that succeeded. *)
Definition is_commit_ok (e : Script.event) : bool :=
  match e with
  | Script.Query _ Script.Commit true => true
  | _ => false
  end.

(** An interaction with the database, for the identifier at [k]. *)
Definition db_event_of (k : nat) (e : Script.event) : Prop :=
  match e with
  | Script.Connect k' _ | Script.Query k' _ _
  | Script.Audit k' _ _ _ _ _ | Script.Release k' => k' = k
  | Script.Post _ _ _ _ _ | Script.Timeout _ => False
  end.

(** A request the Amplitude service of the script may issue for the
    identifier [publicId] at [k], or a wait between two requests. *)
Definition amp_event_of (config : Script.Config) (k : nat)
  (publicId : string) (e : Script.event) : Prop :=
  match e with
  | Script.Post k' _ u n p =>
      k' = k /\ u = publicId /\ n = Script.apiKey config /\
      p = Script.secretKey config
  | Script.Timeout _ => True
  | _ => False
  end.

(** ** Further scenarios *)

(** The pool has no connection for the second chunk. *)
Definition pool_exhausted (k : nat) (s : Db.step) : option exn :=
  if (k =? 1) && Db.step_eqb s Db.Connect
  then Some "timeout exceeded when trying to connect"
  else None.

(** Both the deletion script and the ROLLBACK that follows fail. *)
Definition script_and_rollback_fail (k : nat) (s : Db.step) : option exn :=
  match s with
  | Db.RunSql => Some "canceling statement due to statement timeout"
  | Db.Rollback => Some "connection terminated"
  | _ => None
  end.

(** Two identifiers, a chunk size that is no number. *)
Definition chunks_of_NaN : Db.RunSqlOptions :=
  {| Db.sqlPath := "sql/gdpr-deletion.sql";
     Db.ids := ["u1"; "u2"];
     Db.chunkSize := Some NaN;
     Db.statementTimeoutMs := None |}.

(** Three identifiers with a chunk size of zero. *)
Definition chunks_of_zero : Db.RunSqlOptions :=
  {| Db.sqlPath := "sql/gdpr-deletion.sql";
     Db.ids := ["u1"; "u2"; "u3"];
     Db.chunkSize := Some (Fin 0);
     Db.statementTimeoutMs := None |}.

(** The options [{ maxAttempts: 0 }] and [{ batchSize: 0 }]. *)
Definition no_attempts : AmplitudeOptions :=
  {| batchSize := Some (Fin 2); concurrentBatches := None;
     maxAttempts := Some 0 |}.

Definition batches_of_zero : AmplitudeOptions :=
  {| batchSize := Some (Fin 0); concurrentBatches := None;
     maxAttempts := None |}.

(** Three strings, one repeated, in chunks and batches of one; the
    store and the service answer well. *)
Definition clean_run : Main.world :=
  scenario ["u1"; "u2"; "u1"] None (Some 1) (Some 1) None None
    sound_store false
    [Resolve 0 (Response 200) 0%Q; Resolve 1 (Response 204) 0%Q].

(** [ids.json] holds an object, not an array. *)
Definition not_an_array : Main.world :=
  {| Main.DB_URL := Some "postgres://gdpr@db/product_b";
     Main.AMPLITUDE_KEY := Some "amp-key";
     Main.REQUEST_ID := None;
     Main.REQUESTED_BY := None;
     Main.DRY_RUN := None;
     Main.SQL_PATH := None;
     Main.DB_CHUNK_SIZE := None;
     Main.DB_STMT_TIMEOUT_MS := None;
     Main.AMP_BATCH_SIZE := None;
     Main.AMP_CONCURRENCY := None;
     Main.AMP_MAX_ATTEMPTS := None;
     Main.randomUUID := "00000000-0000-4000-8000-000000000000";
     Main.ids_json := Main.NotArray;
     Main.store := sound_store;
     Main.signal_while_loading := false;
     Main.signal_during_db := false;
     Main.schedule := [] |}.

(** Neither credential is set; AMPLITUDE_KEY is the empty string. *)
Definition no_credentials : Main.world :=
  {| Main.DB_URL := None;
     Main.AMPLITUDE_KEY := Some "";
     Main.REQUEST_ID := None;
     Main.REQUESTED_BY := None;
     Main.DRY_RUN := None;
     Main.SQL_PATH := None;
     Main.DB_CHUNK_SIZE := None;
     Main.DB_STMT_TIMEOUT_MS := None;
     Main.AMP_BATCH_SIZE := None;
     Main.AMP_CONCURRENCY := None;
     Main.AMP_MAX_ATTEMPTS := None;
     Main.randomUUID := "00000000-0000-4000-8000-000000000000";
     Main.ids_json := Main.Array [Main.JString "u1"];
     Main.store := sound_store;
     Main.signal_while_loading := false;
     Main.signal_during_db := false;
     Main.schedule := [Resolve 0 (Response 200) 0%Q] |}.

(** The script against a database in which every user exists, has
    three events and one row in each other table, and an Amplitude
    endpoint that answers the first request with 503, the second with
    202 and the third with 200. *)
Definition script_store : Script.world :=
  {| Script.connect := fun _ => None;
     Script.query :=
       fun _ s =>
         match s with
         | Script.CountEvents | Script.DeleteEvents => inr 3
         | _ => inr 1
         end;
     Script.post :=
       fun _ attempt =>
         match attempt with
         | 1 => inr 503
         | 2 => inr 202
         | _ => inr 200
         end |}.

Definition script_config : Script.Config :=
  {| Script.apiKey := "amp-key"; Script.secretKey := "amp-secret";
     Script.maxRetries := 3 |}.

Definition script_dry_args : Script.DeletionArgs :=
  {| Script.publicIds := ["u1"; "u2"];
     Script.requestedBy := "product-a";
     Script.requestId := "6f1c2d9e-5a0b-4c59-9d7e-0a1b2c3d4e5f";
     Script.dryRun := true |}.

(* ================================================================== *)
(** * Properties *)

(** ** Partitioning *)

Section Partition.

Context {A : Type}.
Implicit Types (ids : list A) (c : jsnum).

Lemma positive_number c : positive c -> is_NaN c = false.
Proof. destruct c; [reflexivity..|intros []]. Qed.

Lemma slice_length ids s c :
  is_NaN c = false -> at_most (length (slice ids s (js_plus s c))) c.
Proof.
  destruct c as [n| |]; simpl; [|intros _; exact I|discriminate].
  intros _. rewrite length_skipn, length_firstn. lia.
Qed.

Lemma slice_glue ids s c :
  is_NaN c = false ->
  slice ids s (js_plus s c) ++
    match js_plus s c with Fin j => skipn j ids | _ => [] end
  = skipn s ids.
Proof.
  destruct c as [n| |]; simpl; [|intros _; apply app_nil_r|discriminate].
  intros _.
  destruct (Nat.le_gt_cases s (length ids)) as [H|H].
  - rewrite <- (firstn_skipn (s + n) ids) at 3.
    rewrite skipn_app, length_firstn.
    replace (s - Nat.min (s + n) (length ids)) with 0 by lia.
    reflexivity.
  - rewrite (skipn_all2 (n := s) (firstn (s + n) ids))
      by (rewrite length_firstn; lia).
    rewrite (skipn_all2 (n := s + n) ids) by lia.
    rewrite (skipn_all2 (n := s) ids) by lia.
    reflexivity.
Qed.

(** Whenever the loop ends, for a size that is a number, its slices
    glued together are the part of [ids] from [start] on, and each has
    at most [c] elements. *)
Lemma engine_slices_sound fuel ids c : forall s chunks,
  is_NaN c = false ->
  engine_slices fuel ids c (Fin s) = Some chunks ->
  concat (map snd chunks) = skipn s ids /\
  Forall (fun p => at_most (length (snd p)) c) chunks.
Proof.
  induction fuel as [|fuel IH]; intros s chunks Hc; simpl.
  - destruct (s <? length ids) eqn:E; [discriminate|].
    intros [= <-]. apply Nat.ltb_ge in E. simpl.
    now rewrite skipn_all2.
  - destruct (s <? length ids) eqn:E.
    + destruct (engine_slices fuel ids c (js_plus s c)) as [rest|] eqn:R;
        [|discriminate].
      intros [= <-]. simpl.
      pose proof (slice_glue ids s c Hc) as G.
      pose proof (slice_length ids s c Hc) as L.
      destruct c as [n| |]; [| |discriminate Hc].
      * simpl in R. destruct (IH _ _ Hc R) as [HC HF].
        split; [rewrite HC; exact G|].
        constructor; assumption.
      * assert (rest = []) as ->
          by (destruct fuel; simpl in R; congruence).
        simpl. split; [exact G|]. constructor; [exact L|constructor].
    + intros [= <-]. apply Nat.ltb_ge in E. simpl.
      now rewrite skipn_all2.
Qed.

(** With the size [NaN] the loop makes one turn, for an empty slice,
    when there is an element at all: [slice(0, NaN)] is empty and
    [0 + NaN < length] is false. *)
Lemma engine_slices_NaN fuel ids :
  engine_slices (S fuel) ids NaN (Fin 0)
  = Some (if 0 <? length ids then [(0, [])] else []).
Proof.
  simpl. destruct (0 <? length ids); [|reflexivity].
  destruct fuel; reflexivity.
Qed.

(** With a partition size of at least 1 the loop ends within
    [length ids] iterations. *)
Lemma engine_slices_total fuel ids c : forall s,
  positive c -> length ids - s <= fuel ->
  exists chunks, engine_slices fuel ids c (Fin s) = Some chunks.
Proof.
  induction fuel as [|fuel IH]; intros s Hc Hf; simpl.
  - destruct (s <? length ids) eqn:E; [|eauto].
    apply Nat.ltb_lt in E. lia.
  - destruct (s <? length ids) eqn:E; [|eauto].
    apply Nat.ltb_lt in E.
    destruct c as [n| |]; simpl in *; [| |contradiction].
    + destruct (IH (s + n) Hc) as [rest ->]; [lia|]. eauto.
    + destruct fuel; simpl; eauto.
Qed.

(** The batch loop pushes the slices of the chunk loop. *)
Lemma batch_loop_slices fuel ids c : forall i acc,
  batch_loop fuel ids c i acc =
  match engine_slices fuel ids c i with
  | Some chunks => Some (acc ++ map snd chunks)
  | None => None
  end.
Proof.
  induction fuel as [|fuel IH]; intros [s| |] acc; simpl;
    try (now rewrite app_nil_r).
  - destruct (s <? length ids); [reflexivity|now rewrite app_nil_r].
  - destruct (s <? length ids); [|now rewrite app_nil_r].
    rewrite IH.
    destruct (engine_slices fuel ids c (js_plus s c)); [|reflexivity].
    simpl. now rewrite <- app_assoc.
Qed.

Lemma split_batches_slices fuel ids c :
  split_batches fuel ids c =
  option_map (map snd) (engine_slices fuel ids c (Fin 0)).
Proof.
  unfold split_batches. rewrite batch_loop_slices.
  destruct (engine_slices fuel ids c (Fin 0)); reflexivity.
Qed.

Lemma NoDup_app_disjoint (l1 l2 : list A) :
  NoDup (l1 ++ l2) -> disjoint l1 l2.
Proof.
  induction l1 as [|a l1 IH]; simpl; intros ND x H1 H2; [exact H1|].
  inversion ND as [|? ? Hn ND']; subst.
  destruct H1 as [->|H1].
  - apply Hn, in_or_app. now right.
  - exact (IH ND' x H1 H2).
Qed.

Lemma NoDup_concat_disjoint (ls : list (list A)) :
  NoDup (concat ls) -> pairwise_disjoint ls.
Proof.
  induction ls as [|l ls IH]; intros ND i j a b Hij Hi Hj x Ha Hb.
  - destruct i; discriminate.
  - simpl in ND. pose proof (NoDup_app_remove_l _ _ ND) as ND'.
    assert (Hd : forall y l', In y l -> In l' ls -> In y l' -> False).
    { intros y l' Hy Hl' Hy'.
      apply (NoDup_app_disjoint _ _ ND y Hy).
      apply in_concat. eauto. }
    destruct i as [|i], j as [|j]; simpl in Hi, Hj.
    + congruence.
    + injection Hi as <-. apply nth_error_In in Hj. eauto.
    + injection Hj as <-. apply nth_error_In in Hi. eauto.
    + exact (IH ND' i j a b ltac:(congruence) Hi Hj x Ha Hb).
Qed.

End Partition.

(** The chunk loop of the engine is its body applied to the slices of
    [engine_slices], in order. *)
Lemma chunk_loop_run_slices oracle fuel ids c : forall start k slices,
  engine_slices fuel ids c start = Some slices ->
  Db.chunk_loop oracle fuel ids c start k =
  Some (Db.run_slices oracle k slices).
Proof.
  induction fuel as [|fuel IH]; intros [s| |] k slices; simpl;
    try (intros [= <-]; reflexivity).
  - destruct (s <? length ids); [discriminate|].
    intros [= <-]. reflexivity.
  - destruct (s <? length ids); [|intros [= <-]; reflexivity].
    destruct (engine_slices fuel ids c (js_plus s c)) as [rest|] eqn:R;
      [|discriminate].
    intros [= <-]. simpl.
    destruct (Db.process_chunk oracle k s (slice ids s (js_plus s c)))
      as [t [e|[]]]; [reflexivity|].
    rewrite (IH _ (S k) _ R).
    destruct (Db.run_slices oracle (S k) rest). reflexivity.
Qed.

(** C8. For every identifier set and every partition size [c >= 1] (or
    [Infinity]), the chunk loop of the Relational Purge Engine and the
    batch loop of the External Eraser Client both end, and they cut the
    set into the same pieces: each piece has at most [c] elements, the
    pieces are pairwise disjoint, and glued together in order they are
    the identifier set itself. *)
Theorem C8_partition_disjoint_cover
  (ids : list string) (c : jsnum) (fuel : nat) :
  positive c -> NoDup ids -> length ids <= fuel ->
  exists slices,
    engine_slices fuel ids c (Fin 0) = Some slices /\
    (forall oracle,
        Db.chunk_loop oracle fuel ids c (Fin 0) 0 =
        Some (Db.run_slices oracle 0 slices)) /\
    split_batches fuel ids c = Some (map snd slices) /\
    Forall (fun piece => at_most (length piece) c) (map snd slices) /\
    pairwise_disjoint (map snd slices) /\
    concat (map snd slices) = ids.
Proof.
  intros Hc ND Hf.
  destruct (engine_slices_total fuel ids c 0 Hc) as [slices E]; [lia|].
  destruct (engine_slices_sound _ _ _ _ _ (positive_number _ Hc) E)
    as [HC HF].
  simpl in HC. exists slices. split; [exact E|]. split; [|split; [|split; [|split]]].
  - intros oracle. now apply chunk_loop_run_slices.
  - rewrite split_batches_slices, E. reflexivity.
  - apply Forall_map. exact HF.
  - apply NoDup_concat_disjoint. now rewrite HC.
  - exact HC.
Qed.

Lemma C8_partition_witness :
  exists slices,
    engine_slices 5 ["u1"; "u2"; "u3"; "u4"; "u5"] (Fin 2) (Fin 0)
      = Some slices /\
    (forall oracle,
        Db.chunk_loop oracle 5 ["u1"; "u2"; "u3"; "u4"; "u5"] (Fin 2)
          (Fin 0) 0 = Some (Db.run_slices oracle 0 slices)) /\
    split_batches 5 ["u1"; "u2"; "u3"; "u4"; "u5"] (Fin 2)
      = Some (map snd slices) /\
    Forall (fun piece => at_most (length piece) (Fin 2)) (map snd slices) /\
    pairwise_disjoint (map snd slices) /\
    concat (map snd slices) = ["u1"; "u2"; "u3"; "u4"; "u5"].
Proof.
  apply (C8_partition_disjoint_cover ["u1"; "u2"; "u3"; "u4"; "u5"] (Fin 2) 5).
  - simpl. lia.
  - repeat constructor; simpl; intuition discriminate.
  - simpl. lia.
Defined.

(** ** Identifier loader *)

Lemma existsb_eqb_In (x : string) (l : list string) :
  existsb (String.eqb x) l = true <-> In x l.
Proof.
  rewrite existsb_exists. split.
  - intros (y & Hy & E). apply String.eqb_eq in E. now subst.
  - intros H. exists x. split; [exact H|apply String.eqb_refl].
Qed.

Lemma set_add_all_spec (l : list string) : forall seen,
  NoDup seen ->
  NoDup (Main.set_add_all l seen) /\
  (forall x, In x (Main.set_add_all l seen) <-> In x seen \/ In x l) /\
  length (Main.set_add_all l seen) <= length seen + length l.
Proof.
  induction l as [|a l IH]; intros seen ND; simpl.
  - split; [exact ND|]. split; [intuition|lia].
  - destruct (existsb (String.eqb a) seen) eqn:E.
    + apply existsb_eqb_In in E.
      destruct (IH seen ND) as (N & I & L).
      split; [exact N|]. split; [|lia].
      intros x. rewrite I. intuition (subst; auto).
    + assert (Ha : ~ In a seen).
      { intros H. apply existsb_eqb_In in H. congruence. }
      assert (ND' : NoDup (seen ++ [a])).
      { apply NoDup_app; [exact ND|repeat constructor; simpl; tauto|].
        intros x Hx [<-|[]]. exact (Ha Hx). }
      destruct (IH _ ND') as (N & I & L).
      split; [exact N|]. split.
      * intros x. rewrite I, in_app_iff. simpl. intuition.
      * rewrite length_app in L. simpl in L. lia.
Qed.

(** C9. For every non-empty input list, the identifier set the loader
    builds ([[...new Set(parsedIds.map(String))]]) has no repeated
    element, holds exactly the identifiers of the input, and is no
    longer than the input; and the input ["u1","u2","u1"] gives the set
    {u1,u2}, reported with totalIds 3 and uniqueIds 2, whenever the run
    gets as far as writing a report for processed input. *)
Theorem C9_dedupe_no_repeats (parsedIds : list Main.jsval) :
  parsedIds <> [] ->
  let allIds := Main.dedupe (map Main.js_String parsedIds) in
  NoDup allIds /\
  length allIds <= length parsedIds /\
  (forall x, In x allIds <-> In x (map Main.js_String parsedIds)) /\
  Main.dedupe (map Main.js_String
                 [Main.JString "u1"; Main.JString "u2"; Main.JString "u1"])
    = ["u1"; "u2"] /\
  (forall fuel w out report,
      Main.ids_json w =
        Main.Array [Main.JString "u1"; Main.JString "u2"; Main.JString "u1"] ->
      Main.main fuel w = Some out ->
      Main.report_json out = Some report ->
      Main.input report = {| Main.totalIds := 3; Main.uniqueIds := 2 |}).
Proof.
  intros _ allIds.
  destruct (set_add_all_spec (map Main.js_String parsedIds) [])
    as (N & I & L); [constructor|].
  split; [exact N|]. split; [|split; [|split]].
  - unfold allIds, Main.dedupe. rewrite length_map in L. exact L.
  - intros x. unfold allIds, Main.dedupe. rewrite I. simpl. tauto.
  - reflexivity.
  - intros fuel w out report Hin. unfold Main.main. rewrite Hin.
    destruct (Main.requireEnv "DB_URL" (Main.DB_URL w)); [intros [= <-]; discriminate|].
    destruct (Main.requireEnv "AMPLITUDE_KEY" (Main.AMPLITUDE_KEY w));
      [intros [= <-]; discriminate|].
    cbn -[Db.runGdprSqlWithTempTable Amplitude.deleteUsersAmplitude].
    destruct (Main.signal_while_loading w);
      [intros [= <-] [= <-]; reflexivity|].
    destruct (Db.runGdprSqlWithTempTable _ _ _) as [[dt [e|[]]]|];
      [intros [= <-] [= <-]; reflexivity| |discriminate].
    destruct (Main.signal_during_db w);
      [intros [= <-] [= <-]; reflexivity|].
    destruct (Amplitude.deleteUsersAmplitude _ _ _ _ _ _) as [[e|st]|];
      [intros [= <-] [= <-]; reflexivity| |discriminate].
    intros [= <-] [= <-]. reflexivity.
Qed.

Lemma C9_dedupe_witness :
  let allIds :=
    Main.dedupe (map Main.js_String [Main.JNumber 7; Main.JString "7"]) in
  NoDup allIds /\
  length allIds <= 2 /\
  (forall x, In x allIds <->
             In x (map Main.js_String [Main.JNumber 7; Main.JString "7"])) /\
  Main.dedupe (map Main.js_String
                 [Main.JString "u1"; Main.JString "u2"; Main.JString "u1"])
    = ["u1"; "u2"] /\
  (forall fuel w out report,
      Main.ids_json w =
        Main.Array [Main.JString "u1"; Main.JString "u2"; Main.JString "u1"] ->
      Main.main fuel w = Some out ->
      Main.report_json out = Some report ->
      Main.input report = {| Main.totalIds := 3; Main.uniqueIds := 2 |}).
Proof.
  apply (C9_dedupe_no_repeats [Main.JNumber 7; Main.JString "7"]).
  discriminate.
Defined.

(** ** Engine: one chunk *)

Lemma process_chunk_passes oracle k start sl :
  chunk_passes oracle k ->
  Db.process_chunk oracle k start sl =
  (calls_upto k 6 sl true ++ [Db.Processed (length sl) start; Db.Release k],
   inr tt).
Proof.
  intros H. unfold Db.process_chunk, Db.call.
  rewrite !H by discriminate. reflexivity.
Qed.

Lemma process_chunk_fails oracle k start sl s e :
  in_transaction s -> first_failure oracle k s e ->
  Db.process_chunk oracle k start sl =
  (calls_upto k (step_index s) sl false ++
     [Db.Call k Db.Rollback [] (is_none (oracle k Db.Rollback));
      Db.Release k],
   inl e).
Proof.
  intros Hs [He Hb]. unfold Db.process_chunk, Db.safeRollback, Db.call.
  unfold in_transaction in Hs.
  destruct s; simpl in Hs; try lia; rewrite ?He;
    repeat match goal with
      | |- context [oracle k ?s'] =>
          lazymatch s' with
          | Db.Rollback => fail
          | _ => rewrite (Hb s') by (simpl; lia)
          end
      end;
    rewrite ?He; destruct (oracle k Db.Rollback); reflexivity.
Qed.

(** ** Engine: the run *)

Lemma run_slices_all_pass oracle : forall slices k0,
  (forall j, k0 <= j < k0 + length slices -> chunk_passes oracle j) ->
  Db.run_slices oracle k0 slices = (passed k0 slices, inr tt).
Proof.
  induction slices as [|[start sl] rest IH]; intros k0 H; [reflexivity|].
  cbn [Db.run_slices passed].
  rewrite process_chunk_passes by (apply H; simpl; lia).
  rewrite IH by (intros j Hj; apply H; simpl; lia).
  now rewrite <- app_assoc.
Qed.

Lemma run_slices_first_failure oracle s e : forall k slices k0 start sl,
  nth_error slices k = Some (start, sl) ->
  (forall j, k0 <= j < k0 + k -> chunk_passes oracle j) ->
  in_transaction s -> first_failure oracle (k0 + k) s e ->
  Db.run_slices oracle k0 slices =
  (passed k0 (firstn k slices) ++ failing oracle (k0 + k) s sl, inl e).
Proof.
  induction k as [|k IH]; intros [|[start0 sl0] rest] k0 start sl Hn Hp Hs Hf;
    try discriminate; cbn [Db.run_slices firstn passed].
  - injection Hn as -> ->. rewrite Nat.add_0_r in *.
    now rewrite (process_chunk_fails _ _ _ _ _ _ Hs Hf).
  - simpl in Hn.
    rewrite process_chunk_passes by (apply Hp; lia).
    rewrite (IH rest (S k0) start sl Hn).
    + replace (S k0 + k) with (k0 + S k) by lia.
      now rewrite <- !app_assoc.
    + intros j Hj. apply Hp. lia.
    + exact Hs.
    + now replace (S k0 + k) with (k0 + S k) by lia.
Qed.

Lemma committed_passed rest :
  (forall staged, Db.committed rest staged = []) ->
  forall l k staged,
    Db.committed (passed k l ++ rest) staged = map snd l.
Proof.
  intros Hrest. induction l as [|[start sl] l IH]; intros k staged.
  - apply Hrest.
  - simpl. now rewrite IH.
Qed.

Lemma committed_failing oracle k s sl tail staged :
  in_transaction s ->
  (forall staged', Db.committed tail staged' = []) ->
  Db.committed (failing oracle k s sl ++ tail) staged = [].
Proof.
  unfold in_transaction. intros Hs Ht.
  destruct s; simpl in Hs; try lia; simpl; apply Ht.
Qed.

Lemma chunk_of_calls_upto k n sl b ev :
  In ev (calls_upto k n sl b) -> Db.chunk_of ev = Some k.
Proof.
  unfold calls_upto. rewrite in_map_iff. intros (s & <- & _). reflexivity.
Qed.

Lemma chunk_of_passed ev j : forall l k,
  In ev (passed k l) -> Db.chunk_of ev = Some j -> k <= j < k + length l.
Proof.
  induction l as [|[start sl] l IH]; intros k; [simpl; tauto|].
  cbn [passed length]. rewrite !in_app_iff.
  intros [H|[[<-|[<-|[]]]|H]] E.
  - apply chunk_of_calls_upto in H. assert (j = k) by congruence. lia.
  - discriminate.
  - injection E as <-. lia.
  - specialize (IH _ H E). lia.
Qed.

Lemma chunk_of_failing oracle k s sl ev :
  In ev (failing oracle k s sl) -> Db.chunk_of ev = Some k.
Proof.
  unfold failing. rewrite in_app_iff. simpl.
  intros [H|[<-|[<-|[]]]]; [|reflexivity..].
  eapply chunk_of_calls_upto, H.
Qed.

(** C3. When a step between BEGIN and COMMIT (begin, staging-table
    creation, bulk load, reading or running the deletion procedure, or
    commit) is the first to fail, on chunk [k], the engine issues the
    calls of the chunks before [k], the calls of chunk [k] up to the
    failing one, a ROLLBACK on the connection of chunk [k], and then only
    releases the connection and ends the pool: it attempts no later
    chunk and throws the error of the failing step, while the chunks
    whose COMMIT succeeded are exactly the [k] chunks before it. *)
Theorem C3_chunk_failure_rolls_back_and_aborts
  (oracle : nat -> Db.step -> option exn) (fuel : nat)
  (options : Db.RunSqlOptions) (slices : list (nat * list string))
  (k start : nat) (sl : list string) (s : Db.step) (e : exn) :
  let c := match Db.chunkSize options with
           | Some c => c | None => Infinity end in
  let timeout := match Db.statementTimeoutMs options with
                 | Some t => t | None => 300000%Z end in
  engine_slices fuel (Db.ids options) c (Fin 0) = Some slices ->
  nth_error slices k = Some (start, sl) ->
  (forall j, j < k -> chunk_passes oracle j) ->
  in_transaction s -> first_failure oracle k s e ->
  exists t,
    Db.runGdprSqlWithTempTable oracle fuel options = Some (t, inl e) /\
    t = Db.NewPool 2 timeout :: passed 0 (firstn k slices)
          ++ failing oracle k s sl ++ [Db.PoolEnd] /\
    In (Db.Call k Db.Rollback [] (is_none (oracle k Db.Rollback))) t /\
    (forall ev j, In ev t -> Db.chunk_of ev = Some j -> j <= k) /\
    Db.committed t [] = map snd (firstn k slices).
Proof.
  intros c timeout Hsl Hn Hp Hs Hf.
  unfold Db.runGdprSqlWithTempTable. fold c timeout.
  rewrite (chunk_loop_run_slices oracle _ _ _ _ 0 _ Hsl).
  rewrite (run_slices_first_failure oracle s e k slices 0 start sl Hn)
    by (try assumption; intros j Hj; apply Hp; lia).
  simpl. eexists. split; [reflexivity|]. split.
  { now rewrite <- app_assoc. }
  split; [|split].
  - right. rewrite !in_app_iff. left. right. unfold failing.
    rewrite in_app_iff. right. now left.
  - intros ev j [<-|H] E; [discriminate|].
    rewrite !in_app_iff in H. destruct H as [[H|H]|[<-|[]]].
    + apply (chunk_of_passed _ _ _ _ H) in E.
      rewrite length_firstn in E.
      assert (k < length slices) by (apply nth_error_Some; congruence).
      lia.
    + apply chunk_of_failing in H. assert (j = k) by congruence. lia.
    + discriminate.
  - change (Db.committed
              ((passed 0 (firstn k slices) ++ failing oracle k s sl)
                 ++ [Db.PoolEnd]) [] = map snd (firstn k slices)).
    rewrite <- app_assoc. rewrite committed_passed; [reflexivity|].
    intros staged. apply committed_failing; [exact Hs|reflexivity].
Qed.

Lemma C3_chunk_failure_witness :
  exists t,
    Db.runGdprSqlWithTempTable commit_of_second_fails 3 three_chunks
      = Some (t, inl "deadlock detected") /\
    t = Db.NewPool 2 300000%Z
          :: passed 0 [(0, ["u1"])]
          ++ failing commit_of_second_fails 1 Db.Commit ["u2"]
          ++ [Db.PoolEnd] /\
    In (Db.Call 1 Db.Rollback [] true) t /\
    (forall ev j, In ev t -> Db.chunk_of ev = Some j -> j <= 1) /\
    Db.committed t [] = [["u1"]].
Proof.
  apply (C3_chunk_failure_rolls_back_and_aborts
           commit_of_second_fails 3 three_chunks
           [(0, ["u1"]); (1, ["u2"]); (2, ["u3"])]
           1 1 ["u2"] Db.Commit "deadlock detected").
  - reflexivity.
  - reflexivity.
  - intros j Hj s _. destruct j; [reflexivity|lia].
  - unfold in_transaction. simpl. lia.
  - split; [reflexivity|].
    intros s' H. destruct s'; simpl in H; try reflexivity; lia.
Defined.

(** ** Coordinator: a failing engine *)

Lemma process_chunk_ok oracle k start sl t u :
  Db.process_chunk oracle k start sl = (t, inr u) -> Forall call_ok t.
Proof.
  unfold Db.process_chunk, Db.safeRollback, Db.call.
  destruct (oracle k Db.Connect), (oracle k Db.Begin),
    (oracle k Db.CreateTemp), (oracle k Db.BulkLoad),
    (oracle k Db.ReadSql), (oracle k Db.RunSql), (oracle k Db.Commit),
    (oracle k Db.Rollback); simpl; intros [= <-];
    repeat constructor.
Qed.

Lemma chunk_loop_ok oracle ids c : forall fuel start k t u,
  Db.chunk_loop oracle fuel ids c start k = Some (t, inr u) ->
  Forall call_ok t.
Proof.
  induction fuel as [|fuel IH]; intros [s| |] k t u; simpl;
    try (intros [= <-]; constructor).
  - destruct (s <? length ids); [discriminate|]. intros [= <-]. constructor.
  - destruct (s <? length ids); [|intros [= <-]; constructor].
    destruct (Db.process_chunk oracle k s (slice ids s (js_plus s c)))
      as [t1 [e|u1]] eqn:P; [discriminate|].
    destruct (Db.chunk_loop oracle fuel ids c (js_plus s c) (S k))
      as [[t2 r]|] eqn:L; [|discriminate].
    intros [= <- ->]. apply Forall_app. split.
    + eapply process_chunk_ok, P.
    + eapply IH, L.
Qed.

Lemma engine_ok_no_failed_call oracle fuel options t u :
  Db.runGdprSqlWithTempTable oracle fuel options = Some (t, inr u) ->
  Forall call_ok t.
Proof.
  unfold Db.runGdprSqlWithTempTable.
  destruct (Db.chunk_loop _ _ _ _ _ _) as [[t1 [e|u1]]|] eqn:L;
    simpl; try discriminate.
  intros [= <-]. constructor; [exact I|].
  apply Forall_app. split; [eapply chunk_loop_ok, L|repeat constructor].
Qed.

(** C2. In every run in which a call of the Relational Purge Engine
    fails (so the engine fails on that chunk), the External Eraser
    Client is not invoked: the run has no Amplitude interaction and the
    report no Amplitude result; the report records the database stage as
    failed, the exit code is 1 and the terminal status is fatal. *)
Theorem C2_relational_failure_is_fatal
  (fuel : nat) (w : Main.world) (out : Main.exit)
  (k : nat) (s : Db.step) (param : list string) :
  Main.main fuel w = Some out ->
  In (Db.Call k s param false) (Main.db_trace out) ->
  Main.amp_trace out = [] /\
  Main.code out = 1 /\
  Main.terminal_status out = Main.fatal_status /\
  exists report,
    Main.report_json out = Some report /\
    Main.status (Main.database report) = Main.DbFailed /\
    Main.results (Main.amplitude report) = [].
Proof.
  unfold Main.main.
  destruct (Main.requireEnv "DB_URL" (Main.DB_URL w));
    [intros [= <-] []|].
  destruct (Main.requireEnv "AMPLITUDE_KEY" (Main.AMPLITUDE_KEY w));
    [intros [= <-] []|].
  destruct (Main.ids_json w) as [e|e| |parsedIds];
    try (intros [= <-] []).
  destruct (length parsedIds =? 0); [intros [= <-] []|].
  cbn -[Db.runGdprSqlWithTempTable Amplitude.deleteUsersAmplitude].
  destruct (Main.signal_while_loading w); [intros [= <-] []|].
  destruct (Db.runGdprSqlWithTempTable _ _ _) as [[dt [e|u]]|] eqn:R;
    [| |discriminate].
  - intros [= <-] _. simpl.
    repeat split. eexists. repeat split.
  - apply engine_ok_no_failed_call in R.
    rewrite Forall_forall in R.
    assert (Hdt : In (Db.Call k s param false) dt -> False)
      by (intros H; exact (R _ H)).
    destruct (Main.signal_during_db w);
      [intros [= <-] H; destruct (Hdt H)|].
    destruct (Amplitude.deleteUsersAmplitude _ _ _ _ _ _) as [[e|st]|];
      [intros [= <-] H; destruct (Hdt H)| |discriminate].
    intros [= <-] H. destruct (Hdt H).
Qed.

Lemma C2_relational_failure_witness :
  let out := exit_of (Main.main 3 scenario_B) in
  Main.amp_trace out = [] /\
  Main.code out = 1 /\
  Main.terminal_status out = Main.fatal_status /\
  exists report,
    Main.report_json out = Some report /\
    Main.status (Main.database report) = Main.DbFailed /\
    Main.results (Main.amplitude report) = [].
Proof.
  apply (C2_relational_failure_is_fatal 3 scenario_B
           (exit_of (Main.main 3 scenario_B)) 1 Db.Commit []).
  - reflexivity.
  - vm_compute. repeat first [left; reflexivity | right].
Defined.

(** ** Client: a missing credential *)

(** C10. With an empty API key the External Eraser Client throws
    "Missing Amplitude API key" whatever the identifiers, the options
    and the schedule are, and with no iteration allowed to the batch
    loop: nothing is batched, no outcome entry exists and no request is
    issued, and no ExternalOutcome is returned. *)
Theorem C10_missing_api_key_throws
  (fuel : nat) (publicIds : list string)
  (options : Amplitude.AmplitudeOptions) (aborted0 : bool)
  (sched : list Amplitude.tick) :
  Amplitude.deleteUsersAmplitude fuel publicIds "" options aborted0 sched
  = Some (inl "Missing Amplitude API key") /\
  Amplitude.deleteUsersAmplitude 0 publicIds "" options aborted0 []
  = Some (inl "Missing Amplitude API key").
Proof.
  split; reflexivity.
Qed.

(** ** Coordinator: the dry-run flag *)

(** The flag reaches the report and nothing else: the calls to the
    store, the requests to the service and the exit code of a run are
    the same whatever DRY_RUN holds. *)
Lemma dry_run_changes_no_call (fuel : nat) (w : Main.world)
  (v : option string) :
  option_map mutations (Main.main fuel (with_dry_run w v))
  = option_map mutations (Main.main fuel w).
Proof.
  unfold Main.main. cbn [with_dry_run Main.DB_URL Main.AMPLITUDE_KEY
    Main.ids_json Main.signal_while_loading Main.signal_during_db
    Main.store Main.schedule Main.SQL_PATH Main.DB_CHUNK_SIZE
    Main.DB_STMT_TIMEOUT_MS Main.AMP_BATCH_SIZE Main.AMP_CONCURRENCY
    Main.AMP_MAX_ATTEMPTS Main.REQUEST_ID Main.REQUESTED_BY Main.randomUUID].
  destruct (Main.requireEnv "DB_URL" (Main.DB_URL w)); [reflexivity|].
  destruct (Main.requireEnv "AMPLITUDE_KEY" (Main.AMPLITUDE_KEY w));
    [reflexivity|].
  destruct (Main.ids_json w) as [e|e| |parsedIds]; try reflexivity.
  destruct (length parsedIds =? 0); [reflexivity|].
  cbn -[Db.runGdprSqlWithTempTable Amplitude.deleteUsersAmplitude].
  destruct (Main.signal_while_loading w); [reflexivity|].
  destruct (Db.runGdprSqlWithTempTable _ _ _) as [[dt [e|u]]|];
    [reflexivity| |reflexivity].
  destruct (Main.signal_during_db w); [reflexivity|].
  destruct (Amplitude.deleteUsersAmplitude _ _ _ _ _ _) as [[e|st]|];
    reflexivity.
Qed.

(** C1, which asks that a dry run mutate neither store, at a run the
    code gets wrong: with DRY_RUN set to "true" the run of one
    identifier reports [dryRun: true], and yet the engine sends COMMIT,
    which succeeds, the client posts the identifier to the service, and
    the run exits with 0. *)
Theorem C1_dry_run_commits_and_calls :
  let out := exit_of (Main.main 1 dry_run_of_one) in
  Main.main 1 dry_run_of_one = Some out /\
  option_map Main.dryRun (Main.report_json out) = Some true /\
  In (Db.Call 0 Db.Commit [] true) (Main.db_trace out) /\
  Db.committed (Main.db_trace out) [] = [["u1"]] /\
  In (Amplitude.Fetch 0 0 ["u1"] "amp-key") (Main.amp_trace out) /\
  Main.code out = 0.
Proof.
  vm_compute.
  repeat split; repeat first [left; reflexivity | right].
Qed.

(** ** Client: one outcome entry per identifier *)

Lemma ids_where_incl f ts x :
  In x (ids_where f ts) -> In x (concat (map fst ts)).
Proof.
  unfold ids_where. induction ts as [|[c p] ts IH]; simpl; [tauto|].
  rewrite !in_app_iff. destruct (f p); simpl; intuition.
Qed.

(** Batches in different phases hold different identifiers. *)
Lemma ids_where_disjoint f g ts :
  NoDup (concat (map fst ts)) ->
  (forall p, f p = true -> g p = true -> False) ->
  disjoint (ids_where f ts) (ids_where g ts).
Proof.
  intros ND Hfg. induction ts as [|[c p] ts IH]; intros x; [simpl; tauto|].
  simpl in ND. pose proof (NoDup_app_disjoint _ _ ND) as D.
  specialize (IH (NoDup_app_remove_l _ _ ND) x).
  unfold ids_where in *. simpl. rewrite !in_app_iff.
  intros [H1|H1] [H2|H2]; try tauto.
  - destruct (f p) eqn:F, (g p) eqn:G; simpl in *; try tauto. eauto.
  - destruct (f p); [|destruct H1]. simpl in H1.
    apply (D x H1). eapply ids_where_incl, H2.
  - destruct (g p); [|destruct H2]. simpl in H2.
    apply (D x H2). eapply ids_where_incl, H1.
Qed.

Lemma ids_where_nth f ts i c p x :
  nth_error ts i = Some (c, p) -> f p = true -> In x c ->
  In x (ids_where f ts).
Proof.
  revert i. unfold ids_where.
  induction ts as [|[c0 p0] ts IH]; intros [|i]; simpl; try discriminate.
  - intros [= -> ->] -> H. apply in_or_app. now left.
  - intros Hn F H. apply in_or_app. right. eauto.
Qed.

Lemma ids_where_all f ts :
  (forall t, In t ts -> f (snd t) = true) ->
  ids_where f ts = concat (map fst ts).
Proof.
  unfold ids_where. induction ts as [|[c p] ts IH]; intros H; [reflexivity|].
  assert (F : f p = true) by (apply (H (c, p)); now left).
  simpl. rewrite F.
  rewrite IH by (intros t Ht; apply H; now right). reflexivity.
Qed.

Lemma update_fst i c p ts p0 :
  nth_error ts i = Some (c, p0) ->
  map fst (update i (c, p) ts) = map fst ts.
Proof.
  revert i. induction ts as [|[c1 p1] ts IH]; intros [|i]; simpl;
    try discriminate.
  - now intros [= -> ->].
  - intros H. now rewrite IH.
Qed.

Lemma update_nth i t ts :
  i < length ts -> nth_error (update i t ts) i = Some t.
Proof.
  revert i. induction ts as [|t0 ts IH]; intros [|i]; simpl; try lia.
  - reflexivity.
  - intros H. apply IH. lia.
Qed.

Lemma update_nth_other i j t ts :
  i <> j -> nth_error (update i t ts) j = nth_error ts j.
Proof.
  revert i j. induction ts as [|t0 ts IH]; intros [|i] [|j] H; simpl;
    try reflexivity; try congruence.
  apply IH. congruence.
Qed.

(** Finishing a batch adds its identifiers to the finished ones. *)
Lemma finished_ids_update i c p p' ts :
  nth_error ts i = Some (c, p) -> is_finished p = false ->
  Permutation (ids_where is_finished (update i (c, p') ts))
    (ids_where is_finished ts ++ (if is_finished p' then c else [])).
Proof.
  revert i. unfold ids_where.
  induction ts as [|[c0 p0] ts IH]; intros [|i]; simpl; try discriminate.
  - intros [= -> ->] ->. simpl.
    destruct (is_finished p'); [apply Permutation_app_comm|].
    now rewrite app_nil_r.
  - intros Hn Hp. rewrite <- app_assoc.
    apply Permutation_app_head. now apply IH.
Qed.

Lemma push_missing_present chunk : forall res,
  (forall x, In x chunk -> In x (map id res)) ->
  push_missing chunk res = res.
Proof.
  unfold push_missing.
  induction chunk as [|a chunk IH]; intros res H; [reflexivity|].
  simpl.
  assert (E : existsb (fun r => String.eqb (id r) a) res = true).
  { apply existsb_exists.
    destruct (proj1 (in_map_iff _ _ _) (H a (or_introl eq_refl)))
      as (r & Hr & Hin).
    exists r. split; [exact Hin|]. rewrite Hr. apply String.eqb_refl. }
  rewrite E. apply IH. intros x Hx. apply H. now right.
Qed.

Lemma push_missing_absent chunk : forall res,
  NoDup chunk -> (forall x, In x chunk -> ~ In x (map id res)) ->
  map id (push_missing chunk res) = map id res ++ chunk.
Proof.
  unfold push_missing.
  induction chunk as [|a chunk IH]; intros res ND H; simpl.
  - now rewrite app_nil_r.
  - assert (E : existsb (fun r => String.eqb (id r) a) res = false).
    { apply not_true_is_false. intros E.
      apply existsb_exists in E as (r & Hin & Hr).
      apply String.eqb_eq in Hr. apply (H a (or_introl eq_refl)).
      rewrite <- Hr. now apply in_map. }
    rewrite E. inversion ND as [|? ? Hna ND']; subst.
    rewrite IH.
    + rewrite map_app, <- app_assoc. reflexivity.
    + exact ND'.
    + intros x Hx. rewrite map_app, in_app_iff. simpl.
      intros [Hin|[<-|[]]].
      * apply (H x); [now right|exact Hin].
      * exact (Hna Hx).
Qed.

Section ClientResults.

Variables (concurrency maxAttempts : nat) (apiKey : string).

Lemma map_id_succeeded (c : list string) : map id (map succeeded c) = c.
Proof. induction c; simpl; congruence. Qed.

Lemma map_id_failed msg (c : list string) : map id (map (failed msg) c) = c.
Proof. induction c; simpl; congruence. Qed.

Lemma iterate_results idx c a res p res' ev :
  iterate maxAttempts apiKey idx c a res = (p, res', ev) ->
  NoDup c -> (forall x, In x c -> ~ In x (map id res)) ->
  map id res' = map id res ++ (if is_finished p then c else []) /\
  is_queued p = false.
Proof.
  unfold iterate. destruct (a <? maxAttempts); intros [= <- <- <-] ND H.
  - simpl. now rewrite app_nil_r.
  - simpl. split; [now apply push_missing_absent|reflexivity].
Qed.

Lemma on_error_results idx c a err rnd res p res' ev :
  on_error maxAttempts apiKey idx c a err rnd res = (p, res', ev) ->
  map id res' = map id res ++ (if is_finished p then c else []) /\
  is_queued p = false.
Proof.
  unfold on_error, iterate. destruct (a + 1 =? maxAttempts) eqn:E.
  - apply Nat.eqb_eq in E.
    replace (S a <? maxAttempts) with false
      by (symmetry; apply Nat.ltb_ge; lia).
    intros [= <- <- <-]. simpl. split; [|reflexivity].
    rewrite push_missing_present.
    + unfold push_all. now rewrite map_app, map_id_failed.
    + intros x Hx. unfold push_all.
      rewrite map_app, map_id_failed. apply in_or_app. now right.
  - intros [= <- <- <-]. simpl. now rewrite app_nil_r.
Qed.

Lemma resume_results idx c p r rnd res p' res' ev :
  resume maxAttempts apiKey idx c p r rnd res = Some (p', res', ev) ->
  NoDup c -> (forall x, In x c -> ~ In x (map id res)) ->
  map id res' = map id res ++ (if is_finished p' then c else []) /\
  is_queued p' = false /\ is_active p = true.
Proof.
  intros R ND H.
  destruct p as [|a|a s|a|], r as [s'|err|body|err|]; simpl in R;
    try discriminate.
  - destruct (res_ok s'); [|destruct (s' <? 500)]; injection R as <- <- <-;
      simpl; rewrite ?app_nil_r; repeat split.
    unfold push_all. now rewrite map_app, map_id_succeeded.
  - injection R as R. apply on_error_results in R. tauto.
  - injection R as <- <- <-. simpl. repeat split.
    unfold push_all. now rewrite map_app, map_id_failed.
  - injection R as R. apply on_error_results in R. tauto.
  - injection R as R. apply iterate_results in R; tauto.
Qed.

(** The limiter starts batches without touching the chunks; what it
    pushes (only when no attempt is allowed at all) are the identifiers
    of the batches it lets finish. *)
Lemma dequeue_results : forall ts active idx res ts' res' ev,
  dequeue concurrency maxAttempts apiKey active idx ts res
    = (ts', res', ev) ->
  NoDup (concat (map fst ts)) ->
  (forall x, In x (ids_where is_queued ts) -> ~ In x (map id res)) ->
  map fst ts' = map fst ts /\
  exists pushed,
    map id res' = map id res ++ pushed /\
    Permutation (ids_where is_finished ts')
      (ids_where is_finished ts ++ pushed).
Proof.
  induction ts as [|[c p] ts IH]; intros active idx res ts' res' ev D ND H.
  - injection D as <- <- <-. split; [reflexivity|]. exists [].
    now rewrite !app_nil_r.
  - simpl in ND. pose proof (NoDup_app_remove_l _ _ ND) as ND'.
    pose proof (NoDup_app_remove_r _ _ ND) as NDc.
    pose proof (NoDup_app_disjoint _ _ ND) as Dis.
    assert (Hrest : forall res0,
      dequeue concurrency maxAttempts apiKey active (S idx) ts res
        = res0 ->
      forall ts1 res1 ev1, res0 = (ts1, res1, ev1) ->
      is_queued p = false ->
      map fst ((c, p) :: ts1) = map fst ((c, p) :: ts) /\
      exists pushed,
        map id res1 = map id res ++ pushed /\
        Permutation (ids_where is_finished ((c, p) :: ts1))
          (ids_where is_finished ((c, p) :: ts) ++ pushed)).
    { intros res0 E ts1 res1 ev1 -> Q.
      destruct (IH _ _ _ _ _ _ E ND') as (F & pushed & M & P).
      - intros x Hx. apply H. unfold ids_where in *. simpl.
        rewrite Q. exact Hx.
      - split; [simpl; now rewrite F|]. exists pushed. split; [exact M|].
        unfold ids_where in *. simpl. rewrite <- app_assoc.
        now apply Permutation_app_head. }
    destruct p as [|a|a s|a|]; simpl in D;
      try (destruct (dequeue _ _ _ active (S idx) ts res)
             as [[ts1 res1] ev1] eqn:E; injection D as <- <- <-;
           eapply Hrest; reflexivity).
    clear Hrest.
    destruct (active <? concurrency).
    + destruct (iterate maxAttempts apiKey idx c 0 res)
        as [[p1 res1] ev1] eqn:I.
      destruct (dequeue _ _ _ _ (S idx) ts res1)
        as [[ts2 res2] ev2] eqn:E.
      injection D as <- <- <-.
      apply iterate_results in I as [M1 Q1]; [|exact NDc|].
      2:{ intros x Hx. apply H. unfold ids_where. simpl.
          apply in_or_app. now left. }
      destruct (IH _ _ _ _ _ _ E ND') as (F & pushed & M & P).
      { intros x Hx. rewrite M1, in_app_iff. intros [Hin|Hin].
        - apply (H x); [|exact Hin]. unfold ids_where in *. simpl.
          apply in_or_app. now right.
        - destruct (is_finished p1); [|destruct Hin].
          apply (Dis x Hin). eapply ids_where_incl, Hx. }
      split; [simpl; now rewrite F|].
      exists ((if is_finished p1 then c else []) ++ pushed).
      split; [now rewrite M, M1, app_assoc|].
      unfold ids_where in *. simpl.
      destruct (is_finished p1); simpl.
      * rewrite P. apply Permutation_app_swap_app.
      * exact P.
    + injection D as <- <- <-. split; [reflexivity|]. exists [].
      now rewrite !app_nil_r.
Qed.

End ClientResults.

Section ClientRun.

Variables (concurrency maxAttempts : nat) (apiKey : string).

Lemma NoDup_chunk (ts : list task) i c p :
  NoDup (concat (map fst ts)) -> nth_error ts i = Some (c, p) -> NoDup c.
Proof.
  revert i. induction ts as [|[c0 p0] ts IH]; intros [|i]; simpl;
    try discriminate; intros ND.
  - intros [= -> ->]. eapply NoDup_app_remove_r, ND.
  - apply IH. eapply NoDup_app_remove_l, ND.
Qed.

Lemma resume_active idx c p r rnd res o :
  resume maxAttempts apiKey idx c p r rnd res = Some o ->
  is_active p = true.
Proof.
  destruct p, r; simpl; intros H; try discriminate; reflexivity.
Qed.

Lemma active_not_finished p : is_active p = true -> is_finished p = false.
Proof. destruct p; simpl; congruence. Qed.

Lemma step_accounted st tk st' :
  NoDup (concat (map fst (tasks st))) -> accounted st ->
  step concurrency maxAttempts apiKey st tk = Some st' ->
  accounted st' /\ map fst (tasks st') = map fst (tasks st).
Proof.
  intros ND Acc. unfold accounted in *.
  destruct tk as [i r rnd|]; simpl; [|intros [= <-]; simpl; tauto].
  destruct (nth_error (tasks st) i) as [[c p]|] eqn:N; [|discriminate].
  destruct (resume maxAttempts apiKey i c p r rnd (results st))
    as [[[p' res1] ev]|] eqn:R; [|discriminate].
  destruct (dequeue _ _ _ _ 0 _ res1) as [[ts2 res2] ev2] eqn:D.
  intros [= <-]. simpl.
  pose proof (resume_active _ _ _ _ _ _ _ R) as Ha.
  pose proof (active_not_finished _ Ha) as Hf.
  assert (Hc : forall x, In x c -> ~ In x (map id (results st))).
  { intros x Hx Hin.
    apply (Permutation_in _ Acc) in Hin.
    apply (ids_where_disjoint is_active is_finished (tasks st) ND
             (fun p0 A F => eq_true_false_abs _ F (active_not_finished p0 A))
             x); [|exact Hin].
    eapply ids_where_nth; eauto. }
  destruct (resume_results _ _ _ _ _ _ _ _ _ _ _ R
              (NoDup_chunk _ _ _ _ ND N) Hc) as (M1 & Q1 & _).
  pose proof (finished_ids_update i c p p' (tasks st) N Hf) as P1.
  pose proof (update_fst i c p' (tasks st) p N) as F1.
  assert (Acc1 : Permutation (map id res1)
                   (ids_where is_finished (update i (c, p') (tasks st)))).
  { rewrite M1, P1. now apply Permutation_app_tail. }
  assert (ND1 : NoDup (concat (map fst (update i (c, p') (tasks st)))))
    by now rewrite F1.
  destruct (dequeue_results _ _ _ _ _ _ _ _ _ _ D ND1)
    as (F2 & pushed & M2 & P2).
  { intros x Hx Hin. apply (Permutation_in _ Acc1) in Hin.
    apply (ids_where_disjoint is_queued is_finished _ ND1) with (x := x);
      [|exact Hx|exact Hin].
    intros [] ? ?; discriminate. }
  split; [|congruence].
  rewrite M2, P2. now apply Permutation_app_tail.
Qed.

Lemma run_accounted : forall sched st st',
  NoDup (concat (map fst (tasks st))) -> accounted st ->
  run concurrency maxAttempts apiKey st sched = Some st' ->
  accounted st' /\ map fst (tasks st') = map fst (tasks st) /\
  all_finished st' = true.
Proof.
  induction sched as [|tk sched IH]; intros st st' ND Acc; simpl.
  - destruct (all_finished st) eqn:F; [|discriminate].
    intros [= <-]. tauto.
  - destruct (all_finished st) eqn:F; [discriminate|].
    destruct (step _ _ _ st tk) as [st1|] eqn:S; [|discriminate].
    destruct (step_accounted _ _ _ ND Acc S) as [Acc1 F1].
    intros R. destruct (IH st1 st') as (A & B & C); try assumption.
    + now rewrite F1.
    + repeat split; congruence.
Qed.

Lemma start_accounted chunks aborted0 :
  NoDup (concat chunks) ->
  accounted (start concurrency maxAttempts apiKey chunks aborted0) /\
  map fst (tasks (start concurrency maxAttempts apiKey chunks aborted0))
  = chunks.
Proof.
  intros ND. unfold start, accounted.
  destruct (dequeue _ _ _ 0 0 _ []) as [[ts res] ev] eqn:D. simpl.
  assert (F0 : map fst (map (fun c : list string => (c, Queued)) chunks)
               = chunks).
  { rewrite map_map. simpl. apply map_id. }
  assert (Q0 : ids_where is_finished
                 (map (fun c : list string => (c, Queued)) chunks) = []).
  { unfold ids_where. clear. induction chunks; simpl; auto. }
  destruct (dequeue_results _ _ _ _ _ _ _ _ _ _ D)
    as (F & pushed & M & P).
  - now rewrite F0.
  - intros x _ [].
  - split; [|congruence]. rewrite M, P, Q0. reflexivity.
Qed.

End ClientRun.

Lemma batch_size_number (options : AmplitudeOptions) :
  batchSize options <> Some NaN ->
  is_NaN (match batchSize options with
          | Some c => c | None => Fin 300 end) = false.
Proof.
  destruct (batchSize options) as [[n| |]|]; try reflexivity.
  intros H. now contradiction H.
Qed.

(** C4, counterexample to an entry for every identifier.  With a
    batch size that is no number ([AMP_BATCH_SIZE=abc], which [Number]
    makes [NaN]) the batch loop cuts one batch, and an empty one:
    [slice(0, NaN)] is empty and [0 + NaN < length] is false.  The
    client posts the empty batch, is answered with 200, and returns
    with no entry for either of the two identifiers; the run of [main]
    ends with exit code 0 and reports no success and no failure. *)
Lemma C4_no_entry_when_batch_size_is_NaN :
  let st := final_of (deleteUsersAmplitude 1 ["u1"; "u2"] "amp-key"
                        batches_of_NaN false
                        [Resolve 0 (Response 200) 0%Q]) in
  let out := exit_of (Main.main 2 batch_size_abc) in
  NoDup ["u1"; "u2"] /\
  deleteUsersAmplitude 1 ["u1"; "u2"] "amp-key" batches_of_NaN false
    [Resolve 0 (Response 200) 0%Q] = Some (inr st) /\
  trace st = [Start 0; Fetch 0 0 [] "amp-key"; Settled 0 (Response 200)] /\
  results st = [] /\
  ~ In "u1" (map id (results st)) /\
  Main.main 2 batch_size_abc = Some out /\
  Main.code out = 0 /\
  option_map Main.amplitude (Main.report_json out)
  = Some {| Main.successful := 0; Main.failed := 0; Main.results := [] |}.
Proof.
  repeat split; try (vm_compute; reflexivity).
  - repeat constructor; simpl; intuition discriminate.
  - intros [].
Qed.



(** ** Client: what a turn of the event loop does to each batch *)

Lemma proj_app idx (t1 t2 : list event) :
  proj idx (t1 ++ t2) = proj idx t1 ++ proj idx t2.
Proof. apply filter_app. Qed.

Lemma proj_own idx ev : concerns_only idx ev -> proj idx ev = ev.
Proof.
  unfold proj, concerns. induction 1 as [|e ev He _ IH]; simpl;
    [reflexivity|].
  now rewrite He, Nat.eqb_refl, IH.
Qed.

Lemma proj_other idx i ev : concerns_only idx ev -> i <> idx -> proj i ev = [].
Proof.
  unfold proj, concerns. intros H Hi.
  induction H as [|e ev He _ IH]; simpl; [reflexivity|].
  rewrite He. now destruct (Nat.eqb_spec idx i); [congruence|].
Qed.

Section ClientFrame.

Variables (concurrency maxAttempts : nat) (apiKey : string).

Lemma iterate_first idx c res :
  exists res',
    iterate maxAttempts apiKey idx c 0 res
    = (first_phase maxAttempts, res',
       first_events maxAttempts apiKey idx c).
Proof.
  unfold iterate, first_phase, first_events.
  destruct (0 <? maxAttempts); eauto.
Qed.

Lemma first_events_concern idx c :
  concerns_only idx (first_events maxAttempts apiKey idx c).
Proof.
  unfold first_events. destruct (0 <? maxAttempts); repeat constructor.
Qed.

Lemma iterate_concerns idx c a res p res' ev :
  iterate maxAttempts apiKey idx c a res = (p, res', ev) ->
  concerns_only idx ev.
Proof.
  unfold iterate. destruct (a <? maxAttempts); intros [= <- <- <-];
    repeat constructor.
Qed.

Lemma resume_concerns idx c p r rnd res p' res' ev :
  resume maxAttempts apiKey idx c p r rnd res = Some (p', res', ev) ->
  concerns_only idx ev.
Proof.
  destruct p as [|a|a s|a|], r as [s'|err|body|err|]; simpl;
    try discriminate; unfold on_error.
  - destruct (res_ok s'); [|destruct (s' <? 500)]; intros [= <- <- <-];
      repeat constructor.
  - destruct (a + 1 =? maxAttempts);
      [intros H; injection H as H; eapply iterate_concerns, H
      |intros [= <- <- <-]; repeat constructor].
  - intros [= <- <- <-]. constructor.
  - destruct (a + 1 =? maxAttempts);
      [intros H; injection H as H; eapply iterate_concerns, H
      |intros [= <- <- <-]; repeat constructor].
  - intros H. injection H as H. eapply iterate_concerns, H.
Qed.

(** The limiter leaves a batch as it is, or starts it if it was queued;
    the events it causes concern the batches it starts. *)
Lemma dequeue_frame : forall ts active b res ts' res' ev,
  dequeue concurrency maxAttempts apiKey active b ts res
    = (ts', res', ev) ->
  (forall i, i < b \/ b + length ts <= i -> proj i ev = []) /\
  forall j c p, nth_error ts j = Some (c, p) ->
    (nth_error ts' j = Some (c, p) /\ proj (b + j) ev = []) \/
    (p = Queued /\
     nth_error ts' j = Some (c, first_phase maxAttempts) /\
     proj (b + j) ev
     = Start (b + j) :: first_events maxAttempts apiKey (b + j) c).
Proof.
  induction ts as [|[c0 p0] ts IH]; intros active b res ts' res' ev D.
  - injection D as <- <- <-. split; [reflexivity|].
    intros [|j]; discriminate.
  - assert (Hskip : forall ts1 res1 ev1,
      dequeue concurrency maxAttempts apiKey active (S b) ts res
        = (ts1, res1, ev1) ->
      (forall i, i < b \/ b + length ((c0, p0) :: ts) <= i ->
                 proj i ev1 = []) /\
      forall j c p, nth_error ((c0, p0) :: ts) j = Some (c, p) ->
        (nth_error ((c0, p0) :: ts1) j = Some (c, p) /\
         proj (b + j) ev1 = []) \/
        (p = Queued /\
         nth_error ((c0, p0) :: ts1) j
           = Some (c, first_phase maxAttempts) /\
         proj (b + j) ev1
         = Start (b + j) :: first_events maxAttempts apiKey (b + j) c)).
    { intros ts1 res1 ev1 E. destruct (IH _ _ _ _ _ _ E) as [Out In_].
      split.
      - intros i Hi. apply Out. simpl in Hi. unfold task in *. lia.
      - intros [|j] c p; simpl.
        + intros [= <- <-]. left. split; [reflexivity|]. apply Out. lia.
        + intros Hn. replace (b + S j) with (S b + j) by lia.
          now apply In_. }
    destruct p0 as [|a|a s|a|]; simpl in D;
      try (destruct (dequeue _ _ _ active (S b) ts res)
             as [[ts1 res1] ev1] eqn:E; injection D as <- <- <-;
           eapply Hskip; reflexivity).
    clear Hskip. destruct (active <? concurrency).
    + destruct (iterate_first b c0 res) as [res1 I]. rewrite I in D.
      destruct (dequeue _ _ _ _ (S b) ts res1)
        as [[ts2 res2] ev2] eqn:E.
      injection D as <- <- <-.
      destruct (IH _ _ _ _ _ _ E) as [Out In_].
      pose proof (first_events_concern b c0) as Hc.
      assert (Hhead : forall i, i <> b ->
        proj i (Start b :: first_events maxAttempts apiKey b c0 ++ ev2)
        = proj i ev2).
      { intros i Hi.
        change (proj i ([Start b] ++ first_events maxAttempts apiKey b c0
                          ++ ev2) = proj i ev2).
        rewrite !proj_app, (proj_other b i [Start b]),
          (proj_other b i _ Hc); auto. repeat constructor. }
      split.
      * intros i Hi. simpl in Hi. unfold task in *.
        rewrite Hhead by lia. apply Out. lia.
      * intros [|j] c p; cbn [nth_error].
        -- intros [= <- <-]. right. rewrite Nat.add_0_r.
           split; [reflexivity|]. split; [reflexivity|].
           change (proj b ([Start b] ++ first_events maxAttempts apiKey b c0
                             ++ ev2) = [Start b] ++ first_events maxAttempts apiKey b c0).
           rewrite !proj_app, (proj_own b [Start b]), (proj_own b _ Hc),
             Out, app_nil_r; auto. repeat constructor.
        -- intros Hn. rewrite Hhead by lia.
           replace (b + S j) with (S b + j) by lia. now apply In_.
    + injection D as <- <- <-. split; [reflexivity|].
      intros j c p Hn. left. now split.
Qed.

End ClientFrame.

Section ClientStep.

Variables (concurrency maxAttempts : nat) (apiKey : string).

Lemma resume_not_queued idx c p r rnd res p' res' ev :
  resume maxAttempts apiKey idx c p r rnd res = Some (p', res', ev) ->
  p' <> Queued.
Proof.
  destruct p as [|a|a s|a|], r as [s'|err|body|err|]; simpl;
    try discriminate; unfold on_error, iterate.
  - destruct (res_ok s'); [|destruct (s' <? 500)]; intros [= <- <- <-];
      discriminate.
  - destruct (a + 1 =? maxAttempts); [destruct (S a <? maxAttempts)|];
      intros [= <- <- <-]; discriminate.
  - intros [= <- <- <-]. discriminate.
  - destruct (a + 1 =? maxAttempts); [destruct (S a <? maxAttempts)|];
      intros [= <- <- <-]; discriminate.
  - destruct (S a <? maxAttempts); intros [= <- <- <-]; discriminate.
Qed.

(** A turn resumes one batch and may start queued ones; every other
    batch keeps its phase and gets no event. *)
Lemma step_frame st i r rnd st' :
  step concurrency maxAttempts apiKey st (Resolve i r rnd) = Some st' ->
  exists c p p' res1 ev,
    nth_error (tasks st) i = Some (c, p) /\
    resume maxAttempts apiKey i c p r rnd (results st)
      = Some (p', res1, ev) /\
    nth_error (tasks st') i = Some (c, p') /\
    proj i (trace st') = proj i (trace st) ++ Settled i r :: ev /\
    (forall j c' q, j <> i -> nth_error (tasks st) j = Some (c', q) ->
       (nth_error (tasks st') j = Some (c', q) /\
        proj j (trace st') = proj j (trace st)) \/
       (q = Queued /\
        nth_error (tasks st') j = Some (c', first_phase maxAttempts) /\
        proj j (trace st')
        = proj j (trace st)
            ++ Start j :: first_events maxAttempts apiKey j c')) /\
    aborted st' = aborted st.
Proof.
  simpl.
  destruct (nth_error (tasks st) i) as [[c p]|] eqn:N; [|discriminate].
  destruct (resume maxAttempts apiKey i c p r rnd (results st))
    as [[[p' res1] ev]|] eqn:R; [|discriminate].
  destruct (dequeue _ _ _ _ 0 _ res1) as [[ts2 res2] ev2] eqn:D.
  intros [= <-]. simpl.
  exists c, p, p', res1, ev.
  destruct (dequeue_frame _ _ _ _ _ _ _ _ _ _ D) as [_ Fr].
  pose proof (resume_concerns _ _ _ _ _ _ _ _ _ _ _ R) as Hev.
  assert (Hown : concerns_only i (Settled i r :: ev))
    by (constructor; [reflexivity|exact Hev]).
  assert (Hi : i < length (tasks st))
    by (apply nth_error_Some; congruence).
  split; [first [exact N|reflexivity]|].
  split; [first [exact R|reflexivity]|].
  destruct (Fr i c p' (update_nth i (c, p') _ Hi)) as [[Hn Hp]|[Hq _]];
    [|exfalso; eapply resume_not_queued; eauto].
  split; [exact Hn|]. split.
  - change (Settled i r :: ev ++ ev2) with ((Settled i r :: ev) ++ ev2).
    rewrite !proj_app, (proj_own _ _ Hown). simpl in Hp. rewrite Hp.
    now rewrite app_nil_r.
  - split; [|reflexivity].
    intros j c' q Hj Hq.
    rewrite <- (update_nth_other i j (c, p') (tasks st)) in Hq
      by congruence.
    change (Settled i r :: ev ++ ev2) with ((Settled i r :: ev) ++ ev2).
    rewrite !proj_app, (proj_other _ j _ Hown Hj). simpl.
    destruct (Fr j c' q Hq) as [[H1 H2]|(H0 & H1 & H2)]; simpl in H2;
      rewrite H2; [left|right]; rewrite ?app_nil_r; auto.
Qed.

Lemma step_signal st st' :
  step concurrency maxAttempts apiKey st Signal = Some st' ->
  tasks st' = tasks st /\ results st' = results st /\
  trace st' = trace st ++ [Signalled] /\ aborted st' = true.
Proof. intros [= <-]. simpl. tauto. Qed.


End ClientStep.

(** ** Client: attempts and delays of a batch *)


Section ClientAttempts.

Variables (concurrency maxAttempts : nat) (apiKey : string).




End ClientAttempts.

Section ClientInvariants.

Variables (concurrency maxAttempts : nat) (apiKey : string).

Lemma dequeue_length : forall ts active b res ts' res' ev,
  dequeue concurrency maxAttempts apiKey active b ts res
    = (ts', res', ev) ->
  length ts' = length ts /\
  Forall (fun e => match e with Sleep _ _ _ => False | _ => True end) ev.
Proof.
  induction ts as [|[c p] ts IH]; intros active b res ts' res' ev.
  - intros [= <- <- <-]. split; [reflexivity|constructor].
  - destruct p as [|a|a s|a|]; simpl;
      try (destruct (dequeue _ _ _ active (S b) ts res)
             as [[ts1 res1] ev1] eqn:E; intros [= <- <- <-];
           destruct (IH _ _ _ _ _ _ E) as [L F]; simpl; split;
           [congruence|exact F]).
    destruct (active <? concurrency).
    + destruct (iterate_first maxAttempts apiKey b c res) as [res1 I].
      rewrite I.
      destruct (dequeue _ _ _ _ (S b) ts res1)
        as [[ts2 res2] ev2] eqn:E.
      intros [= <- <- <-]. destruct (IH _ _ _ _ _ _ E) as [L F].
      split; [simpl; congruence|].
      constructor; [exact Logic.I|]. apply Forall_app. split; [|exact F].
      unfold first_events. destruct (0 <? maxAttempts); repeat constructor.
    + intros [= <- <- <-]. split; [reflexivity|constructor].
Qed.

Lemma update_length i (t : task) ts : length (update i t ts) = length ts.
Proof.
  revert i. induction ts as [|t0 ts IH]; intros [|i]; simpl; congruence.
Qed.

Lemma step_length st tk st' :
  step concurrency maxAttempts apiKey st tk = Some st' ->
  length (tasks st') = length (tasks st).
Proof.
  destruct tk as [i r rnd|]; simpl; [|now intros [= <-]].
  destruct (nth_error (tasks st) i) as [[c p]|]; [|discriminate].
  destruct (resume _ _ _ _ _ _ _ _) as [[[p' res1] ev]|]; [|discriminate].
  destruct (dequeue _ _ _ _ 0 _ res1) as [[ts2 res2] ev2] eqn:D.
  intros [= <-]. simpl. apply dequeue_length in D as [L _].
  now rewrite L, update_length.
Qed.





End ClientInvariants.

(** ** Backoff *)

(** *** Rounding to a double *)








Lemma two_power_succ e : (2 ^ (e + 1) == 2 * 2 ^ e)%Q.
Proof. rewrite Qpower_plus; [|discriminate]. simpl. ring. Qed.









(** *** The delays *)















(** ** Client: a permanent failure *)

Section ClientPermanent.

Variables (concurrency maxAttempts : nat) (apiKey : string).

Lemma push_missing_grows chunk : forall res,
  exists more, push_missing chunk res = res ++ more.
Proof.
  unfold push_missing. induction chunk as [|a chunk IH]; intros res; simpl.
  - exists []. now rewrite app_nil_r.
  - destruct (existsb _ res); [apply IH|].
    destruct (IH (res ++ [{| id := a; ok := false;
                             error := Some "Retry exhausted" |}]))
      as [more ->].
    eexists. now rewrite <- app_assoc.
Qed.

Lemma iterate_grows idx c a res p res' ev :
  iterate maxAttempts apiKey idx c a res = (p, res', ev) ->
  (exists more, res' = res ++ more) /\ (a < maxAttempts -> res' = res).
Proof.
  unfold iterate. destruct (a <? maxAttempts) eqn:E; intros [= <- <- <-].
  - split; [exists []; now rewrite app_nil_r|reflexivity].
  - apply Nat.ltb_ge in E. split; [apply push_missing_grows|lia].
Qed.


Lemma dequeue_grows : forall ts active b res ts' res' ev,
  dequeue concurrency maxAttempts apiKey active b ts res
    = (ts', res', ev) ->
  (exists more, res' = res ++ more) /\ (0 < maxAttempts -> res' = res).
Proof.
  induction ts as [|[c p] ts IH]; intros active b res ts' res' ev.
  - intros [= <- <- <-]. split; [exists []; now rewrite app_nil_r|auto].
  - destruct p as [|a|a s|a|]; simpl;
      try (destruct (dequeue _ _ _ active (S b) ts res)
             as [[ts1 res1] ev1] eqn:E; intros [= <- <- <-];
           exact (IH _ _ _ _ _ _ E)).
    destruct (active <? concurrency).
    + destruct (iterate maxAttempts apiKey b c 0 res)
        as [[p1 res1] ev1] eqn:I.
      destruct (dequeue _ _ _ _ (S b) ts res1)
        as [[ts2 res2] ev2] eqn:E.
      intros [= <- <- <-].
      apply iterate_grows in I as [[m1 ->] I0].
      destruct (IH _ _ _ _ _ _ E) as [[m2 ->] E0]. split.
      * eexists. now rewrite <- app_assoc.
      * intros H. rewrite (E0 H). now apply I0.
    + intros [= <- <- <-]. split; [exists []; now rewrite app_nil_r|auto].
Qed.

(** A turn only appends outcome entries; with at least one attempt
    allowed, the entries it appends are those of the batch it resumes. *)
Lemma step_results st i r rnd st' c p p' res1 ev :
  step concurrency maxAttempts apiKey st (Resolve i r rnd) = Some st' ->
  nth_error (tasks st) i = Some (c, p) ->
  resume maxAttempts apiKey i c p r rnd (results st)
    = Some (p', res1, ev) ->
  0 < maxAttempts -> results st' = res1.
Proof.
  simpl. intros S N R Hm. rewrite N, R in S.
  destruct (dequeue _ _ _ _ 0 _ res1) as [[ts2 res2] ev2] eqn:D.
  injection S as <-. simpl. now apply dequeue_grows in D as [_ ->].
Qed.




End ClientPermanent.

Lemma step_enabled concurrency maxAttempts apiKey st i r rnd c p o :
  nth_error (tasks st) i = Some (c, p) ->
  resume maxAttempts apiKey i c p r rnd (results st) = Some o ->
  exists st', step concurrency maxAttempts apiKey st (Resolve i r rnd)
              = Some st'.
Proof.
  intros N R. simpl. rewrite N, R. destruct o as [[p' res1] ev].
  destruct (dequeue _ _ _ _ 0 _ res1) as [[ts2 res2] ev2]. eauto.
Qed.




Example scenario_C_is_partial :
  let out := exit_of (Main.main 4 scenario_C) in
  Main.main 4 scenario_C = Some out /\
  Main.code out = 2 /\
  Main.terminal_status out = Main.partial /\
  option_map (fun r => Main.results (Main.amplitude r)) (Main.report_json out)
  = Some [succeeded "u1"; succeeded "u2";
          failed "Amplitude 400: invalid user id" "u3";
          failed "Amplitude 400: invalid user id" "u4"] /\
  fetches 1 (Main.amp_trace out) = 1.
Proof. repeat split. Qed.

(** ** Cancellation *)

Section ClientSignals.

Variables (concurrency maxAttempts : nat) (apiKey : string).

Lemma work_app t1 t2 : work (t1 ++ t2) = work t1 ++ work t2.
Proof. apply filter_app. Qed.

Lemma step_same_work s1 s2 tk s1' :
  same_work s1 s2 ->
  step concurrency maxAttempts apiKey s1 tk = Some s1' ->
  match tk with
  | Signal => same_work s1' s2
  | Resolve _ _ _ =>
      exists s2', step concurrency maxAttempts apiKey s2 tk = Some s2' /\
                  same_work s1' s2'
  end.
Proof.
  intros (T & Rs & W). destruct tk as [i r rnd|]; simpl.
  - rewrite <- T, <- Rs.
    destruct (nth_error (tasks s1) i) as [[c p]|]; [|discriminate].
    destruct (resume _ _ _ _ _ _ _ _) as [[[p' res1] ev]|]; [|discriminate].
    destruct (dequeue _ _ _ _ 0 _ res1) as [[ts2 res2] ev2].
    intros [= <-]. eexists. split; [reflexivity|].
    repeat split; simpl. now rewrite !work_app, W.
  - intros [= <-]. repeat split; simpl; try assumption.
    rewrite work_app. simpl. now rewrite app_nil_r.
Qed.

(** The client never consults the flag: with the signals taken out of
    the schedule it takes the same turns, returns the same outcome and
    issues the same requests. *)
Lemma run_ignores_signals : forall sched s1 s2 s1',
  same_work s1 s2 ->
  run concurrency maxAttempts apiKey s1 sched = Some s1' ->
  all_finished s1 = false ->
  exists s2',
    run concurrency maxAttempts apiKey s2 (filter is_resolve sched)
      = Some s2' /\
    same_work s1' s2'.
Proof.
  induction sched as [|tk sched IH]; intros s1 s2 s1' SW; simpl.
  - destruct (all_finished s1); [discriminate|discriminate].
  - intros R F1. rewrite F1 in R.
    destruct (step _ _ _ s1 tk) as [s1a|] eqn:S; [|discriminate].
    pose proof (step_same_work _ _ _ _ SW S) as H.
    destruct tk as [i r rnd|]; cbn [filter is_resolve run].
    + destruct H as (s2a & S2 & SW').
      assert (F2 : all_finished s2 = false).
      { unfold all_finished in *. destruct SW as (T & _). now rewrite <- T. }
      rewrite F2, S2.
      destruct (all_finished s1a) eqn:Fa.
      * destruct sched; simpl in R; rewrite Fa in R; [|discriminate].
        injection R as <-. exists s2a. split; [|exact SW'].
        simpl. unfold all_finished in *.
        destruct SW' as (T' & _). now rewrite <- T', Fa.
      * eapply IH; eauto.
    + assert (Fa : all_finished s1a = false).
      { apply step_signal in S as (T & _). unfold all_finished in *.
        now rewrite T. }
      eapply IH; eauto.
Qed.

End ClientSignals.

(** C7, counterexample to a check before each batch: the signal is
    handled before the second batch is scheduled, and the second batch
    is started and posted all the same; the run exits with 0. *)
Lemma C7_batch_issued_after_signal :
  let out := exit_of (Main.main 2 signal_mid_flight) in
  Main.main 2 signal_mid_flight = Some out /\
  Main.amp_trace out
  = [Start 0; Fetch 0 0 ["u1"] "amp-key"; Signalled;
     Settled 0 (Response 200);
     Start 1; Fetch 1 0 ["u2"] "amp-key";
     Settled 1 (Response 200)] /\
  issued_after_signal (Main.amp_trace out) = true /\
  Main.code out = 0.
Proof. repeat split. Qed.

Lemma client_ignores_signals fuel publicIds apiKey options aborted0 sched st :
  deleteUsersAmplitude fuel publicIds apiKey options aborted0 sched
    = Some (inr st) ->
  exists st',
    deleteUsersAmplitude fuel publicIds apiKey options aborted0
      (filter is_resolve sched) = Some (inr st') /\
    results st' = results st /\
    work (trace st') = work (trace st).
Proof.
  unfold deleteUsersAmplitude.
  destruct (String.eqb apiKey ""); [discriminate|].
  destruct (split_batches fuel publicIds _) as [chunks|]; [|discriminate].
  destruct (_ =? 0); [discriminate|].
  destruct (run _ _ _ _ sched) as [st1|] eqn:R; [|discriminate].
  intros [= ->].
  match type of R with run _ _ _ ?s0 _ = _ =>
    destruct (all_finished s0) eqn:F end.
  - destruct sched; simpl in R; rewrite F in R; [|discriminate].
    injection R as <-. simpl. rewrite F. eauto.
  - destruct (run_ignores_signals _ _ _ _ _ _ _
                (conj eq_refl (conj eq_refl eq_refl)) R F)
      as (st' & R' & _ & Rs & W).
    rewrite R'. eauto.
Qed.

(** C7, with the places of the check amended.  The coordinator
    consults the flag twice: after the identifiers are loaded, before
    the relational engine starts, and
    once more after the engine has ended, before the External Eraser
    Client is invoked.  A signal handled before the first check leaves
    both stores untouched; a signal handled while the engine runs keeps
    the client from being invoked; either way no external batch is
    issued and the exit code is 1.  The client does not consult the
    flag: signals handled while it runs change neither the requests it
    issues nor the outcome it returns. *)
Theorem C7_flag_checked_between_stages
  (fuel : nat) (w : Main.world) (out : Main.exit) :
  Main.main fuel w = Some out ->
  (Main.signal_while_loading w = true ->
   Main.db_trace out = [] /\ Main.amp_trace out = [] /\
   Main.code out = 1) /\
  (Main.signal_during_db w = true ->
   Main.amp_trace out = [] /\ Main.code out = 1) /\
  (forall publicIds apiKey options st,
      deleteUsersAmplitude fuel publicIds apiKey options false
        (Main.schedule w) = Some (inr st) ->
      exists st',
        deleteUsersAmplitude fuel publicIds apiKey options false
          (filter is_resolve (Main.schedule w)) = Some (inr st') /\
        results st' = results st /\
        work (trace st') = work (trace st)).
Proof.
  intros H. split; [|split].
  - revert H. unfold Main.main.
    destruct (Main.requireEnv "DB_URL" (Main.DB_URL w));
      [intros [= <-]; auto|].
    destruct (Main.requireEnv "AMPLITUDE_KEY" (Main.AMPLITUDE_KEY w));
      [intros [= <-]; auto|].
    destruct (Main.ids_json w) as [e|e| |parsedIds];
      try (intros [= <-]; auto).
    destruct (length parsedIds =? 0); [intros [= <-]; auto|].
    cbn -[Db.runGdprSqlWithTempTable deleteUsersAmplitude].
    destruct (Main.signal_while_loading w); [intros [= <-]; auto|].
    discriminate.
  - revert H. unfold Main.main.
    destruct (Main.requireEnv "DB_URL" (Main.DB_URL w));
      [intros [= <-]; auto|].
    destruct (Main.requireEnv "AMPLITUDE_KEY" (Main.AMPLITUDE_KEY w));
      [intros [= <-]; auto|].
    destruct (Main.ids_json w) as [e|e| |parsedIds];
      try (intros [= <-]; auto).
    destruct (length parsedIds =? 0); [intros [= <-]; auto|].
    cbn -[Db.runGdprSqlWithTempTable deleteUsersAmplitude].
    destruct (Main.signal_while_loading w); [intros [= <-]; auto|].
    destruct (Db.runGdprSqlWithTempTable _ _ _) as [[dt [e|u]]|];
      [intros [= <-]; auto| |discriminate].
    destruct (Main.signal_during_db w); [intros [= <-]; auto|].
    discriminate.
  - intros publicIds apiKey options st. apply client_ignores_signals.
Qed.

Lemma C7_flag_checked_witness :
  let out := exit_of (Main.main 2 signal_during_engine) in
  Db.committed (Main.db_trace out) [] = [["u1"; "u2"]] /\
  Main.amp_trace out = [] /\ Main.code out = 1.
Proof.
  destruct (C7_flag_checked_between_stages 2 signal_during_engine
              (exit_of (Main.main 2 signal_during_engine)) eq_refl)
    as (_ & H & _).
  split; [reflexivity|]. exact (H eq_refl).
Defined.

(** ** Client: it can always return *)

Section ClientProgress.

Variables (concurrency maxAttempts : nat) (apiKey : string).

Lemma count_active_cons c p ts :
  count_active ((c, p) :: ts)
  = (if is_active p then 1 else 0) + count_active ts.
Proof. unfold count_active. simpl. now destruct (is_active p). Qed.

(** When the limiter is done, a batch is still queued only if as many
    batches are active as it allows. *)
Lemma dequeue_saturates : forall ts active b res ts' res' ev,
  dequeue concurrency maxAttempts apiKey active b ts res
    = (ts', res', ev) ->
  count_active ts <= count_active ts' /\
  (existsb (fun t => is_queued (snd t)) ts' = true ->
   concurrency <= active + (count_active ts' - count_active ts)).
Proof.
  induction ts as [|[c p] ts IH]; intros active b res ts' res' ev.
  - intros [= <- <- <-]. split; [lia|discriminate].
  - destruct p as [|a|a s|a|]; simpl;
      try (destruct (dequeue _ _ _ active (S b) ts res)
             as [[ts1 res1] ev1] eqn:E; intros [= <- <- <-];
           destruct (IH _ _ _ _ _ _ E) as [L Q];
           rewrite !count_active_cons; simpl; split; [lia|];
           intros H; specialize (Q H); lia).
    destruct (active <? concurrency) eqn:Lt.
    + destruct (iterate_first maxAttempts apiKey b c res) as [res1 I].
      rewrite I.
      destruct (dequeue _ _ _ _ (S b) ts res1)
        as [[ts2 res2] ev2] eqn:E.
      intros [= <- <- <-]. destruct (IH _ _ _ _ _ _ E) as [L Q].
      rewrite !count_active_cons. unfold first_phase in *.
      destruct (0 <? maxAttempts);
        cbn [is_active is_queued existsb snd orb] in *; (split; [lia|]);
        intros H; specialize (Q H); lia.
    + intros [= <- <- <-]. apply Nat.ltb_ge in Lt.
      split; [apply Nat.le_refl|]. intros _.
      rewrite Nat.sub_diag. lia.
Qed.

Lemma step_saturated st tk st' :
  saturated concurrency (tasks st) ->
  step concurrency maxAttempts apiKey st tk = Some st' ->
  saturated concurrency (tasks st').
Proof.
  intros Sat. destruct tk as [i r rnd|]; simpl.
  - destruct (nth_error (tasks st) i) as [[c p]|]; [|discriminate].
    destruct (resume _ _ _ _ _ _ _ _) as [[[p' res1] ev]|]; [|discriminate].
    destruct (dequeue _ _ _ _ 0 _ res1) as [[ts2 res2] ev2] eqn:D.
    intros [= <-]. simpl. intros H.
    destruct (dequeue_saturates _ _ _ _ _ _ _ D) as [L Q].
    specialize (Q H). lia.
  - now intros [= <-].
Qed.

Lemma start_saturated chunks aborted0 :
  saturated concurrency
    (tasks (start concurrency maxAttempts apiKey chunks aborted0)).
Proof.
  unfold start.
  destruct (dequeue _ _ _ 0 0 _ []) as [[ts res] ev] eqn:D. simpl.
  intros H. destruct (dequeue_saturates _ _ _ _ _ _ _ D) as [L Q].
  specialize (Q H). lia.
Qed.

Lemma active_exists (ts : list task) :
  0 < count_active ts ->
  exists i c p, nth_error ts i = Some (c, p) /\ is_active p = true.
Proof.
  induction ts as [|[c p] ts IH]; [unfold count_active; simpl; lia|].
  rewrite count_active_cons. destruct (is_active p) eqn:A.
  - intros _. exists 0, c, p. now split.
  - intros H. destruct (IH H) as (i & c' & p' & N & A').
    exists (S i), c', p'. now split.
Qed.

(** While a batch is unfinished some batch is active. *)
Lemma some_batch_active (ts : list task) :
  1 <= concurrency -> saturated concurrency ts ->
  forallb (fun t => is_finished (snd t)) ts = false ->
  exists i c p, nth_error ts i = Some (c, p) /\ is_active p = true.
Proof.
  intros Hc Sat F.
  destruct (existsb (fun t => is_queued (snd t)) ts) eqn:Q.
  - apply active_exists. specialize (Sat Q). lia.
  - apply active_exists. clear Sat.
    induction ts as [|[c p] ts IH]; [discriminate|].
    simpl in F, Q. apply orb_false_elim in Q as [Qp Qts].
    rewrite count_active_cons.
    destruct p; simpl in *; try discriminate; try lia.
    specialize (IH F Qts). lia.
Qed.

Lemma resume_favourable idx c p res :
  is_active p = true ->
  exists p' res' ev,
    resume maxAttempts apiKey idx c p (favourable p) 0%Q res
      = Some (p', res', ev) /\
    weight p' < weight p.
Proof.
  destruct p as [|a|a s|a|]; simpl; try discriminate; intros _.
  - eexists _, _, _. split; [reflexivity|simpl; lia].
  - eexists _, _, _. split; [reflexivity|simpl; lia].
  - unfold iterate. destruct (S a <? maxAttempts);
      eexists _, _, _; (split; [reflexivity|simpl; lia]).
Qed.

Lemma total_weight_pointwise : forall (ts ts' : list task),
  length ts' = length ts ->
  (forall j c p c' p', nth_error ts j = Some (c, p) ->
     nth_error ts' j = Some (c', p') -> weight p' <= weight p) ->
  total_weight ts' <= total_weight ts /\
  forall i c p c' p',
    nth_error ts i = Some (c, p) -> nth_error ts' i = Some (c', p') ->
    weight p' < weight p -> total_weight ts' < total_weight ts.
Proof.
  unfold total_weight.
  induction ts as [|[c0 p0] ts IH]; intros [|[c1 p1] ts'] L H;
    try discriminate.
  - split; [simpl; lia|]. intros [|i]; discriminate.
  - injection L as L.
    destruct (IH ts' L (fun j => H (S j))) as [Le Lt].
    pose proof (H 0 c0 p0 c1 p1 eq_refl eq_refl) as H0.
    split; [simpl; lia|].
    intros [|i] c p c' p'; simpl.
    + intros [= -> ->] [= -> ->] W. lia.
    + intros N N' W. specialize (Lt i c p c' p' N N' W). lia.
Qed.

Lemma first_phase_weight : weight (first_phase maxAttempts) <= 3.
Proof. unfold first_phase. destruct (0 <? maxAttempts); simpl; lia. Qed.

Lemma step_favourable st i c p :
  nth_error (tasks st) i = Some (c, p) -> is_active p = true ->
  exists st',
    step concurrency maxAttempts apiKey st (Resolve i (favourable p) 0%Q)
      = Some st' /\
    total_weight (tasks st') < total_weight (tasks st).
Proof.
  intros N A.
  destruct (resume_favourable i c p (results st) A)
    as (p' & res' & ev & R & W).
  destruct (step_enabled concurrency _ _ _ _ _ _ _ _ _ N R) as [st' S].
  exists st'. split; [exact S|].
  destruct (step_frame _ _ _ _ _ _ _ _ S)
    as (c0 & p0 & p0' & r0 & e0 & N0 & R0 & N0' & _ & Fr & _).
  rewrite N in N0. injection N0 as <- <-.
  rewrite R in R0. injection R0 as <- <- <-.
  pose proof (step_length _ _ _ _ _ _ S) as L.
  destruct (total_weight_pointwise (tasks st) (tasks st') L) as [_ Lt].
  - intros j cj pj cj' pj' Nj Nj'.
    destruct (Nat.eq_dec j i) as [->|Hne].
    + rewrite N in Nj. rewrite N0' in Nj'.
      injection Nj as <- <-. injection Nj' as <- <-. lia.
    + destruct (Fr j cj pj Hne Nj) as [[H1 _]|(-> & H1 & _)];
        rewrite H1 in Nj'; injection Nj' as <- <-; [lia|].
      apply first_phase_weight.
  - exact (Lt i c p c p' N N0' W).
Qed.

(** From a state the limiter has left, some schedule of favourable
    settlements lets every batch finish. *)
Lemma run_can_finish : forall n st,
  1 <= concurrency -> saturated concurrency (tasks st) ->
  total_weight (tasks st) <= n ->
  exists sched st',
    run concurrency maxAttempts apiKey st sched = Some st' /\
    Forall random_ok sched.
Proof.
  induction n as [|n IH]; intros st Hc Sat Hw.
  - exists [], st. split; [|constructor]. simpl.
    destruct (all_finished st) eqn:F; [reflexivity|].
    destruct (some_batch_active _ Hc Sat F) as (i & c & p & N & A).
    destruct (step_favourable st i c p N A) as (st' & _ & W). lia.
  - destruct (all_finished st) eqn:F.
    + exists [], st. split; [simpl; now rewrite F|constructor].
    + destruct (some_batch_active _ Hc Sat F) as (i & c & p & N & A).
      destruct (step_favourable st i c p N A) as (st1 & S & W).
      destruct (IH st1 Hc (step_saturated _ _ _ Sat S) ltac:(lia))
        as (sched & st' & R & Ok).
      exists (Resolve i (favourable p) 0%Q :: sched), st'. split.
      * simpl. simpl in S. rewrite F, S. exact R.
      * constructor; [simpl; lra|exact Ok].
Qed.

End ClientProgress.

(** With an API key, a batch size and a concurrency of at least 1, and
    fuel for the batch loop, the client returns under some schedule:
    the properties of the runs that return are properties of runs that
    exist, for every input. *)
Lemma client_can_return fuel publicIds apiKey options aborted0 :
  apiKey <> "" ->
  positive (match batchSize options with
            | Some c => c | None => Fin 300 end) ->
  1 <= match concurrentBatches options with Some n => n | None => 4 end ->
  length publicIds <= fuel ->
  exists sched st,
    Forall random_ok sched /\
    deleteUsersAmplitude fuel publicIds apiKey options aborted0 sched
      = Some (inr st).
Proof.
  intros Hk Hb Hc Hf. unfold deleteUsersAmplitude.
  destruct (String.eqb_spec apiKey ""); [contradiction|].
  rewrite split_batches_slices.
  destruct (engine_slices_total fuel publicIds
              (match batchSize options with
               | Some c => c | None => Fin 300 end) 0 Hb)
    as [slices ->]; [lia|].
  simpl.
  destruct (Nat.eqb_spec
              (match concurrentBatches options with
               | Some n => n | None => 4 end) 0) as [E|_]; [lia|].
  set (limit := match concurrentBatches options with
                | Some n => n | None => 4 end) in *.
  set (attempts := match maxAttempts options with
                   | Some n => n | None => 5 end).
  set (st0 := start limit attempts apiKey (map snd slices) aborted0).
  destruct (run_can_finish limit attempts apiKey
              (total_weight (tasks st0)) st0 Hc
              (start_saturated limit attempts apiKey (map snd slices)
                 aborted0)
              (Nat.le_refl _))
    as (sched & st & R & Ok).
  exists sched, st. split; [exact Ok|]. now rewrite R.
Qed.

(* ================================================================== *)
(** * Further properties *)

(** ** Engine: a normal return *)

Lemma process_chunk_returns oracle k start sl t u :
  Db.process_chunk oracle k start sl = (t, inr u) ->
  t = calls_upto k 6 sl true ++ [Db.Processed (length sl) start; Db.Release k].
Proof.
  unfold Db.process_chunk, Db.safeRollback, Db.call.
  destruct (oracle k Db.Connect), (oracle k Db.Begin),
    (oracle k Db.CreateTemp), (oracle k Db.BulkLoad),
    (oracle k Db.ReadSql), (oracle k Db.RunSql), (oracle k Db.Commit),
    (oracle k Db.Rollback); simpl; intros [= <-]; reflexivity.
Qed.

Lemma chunk_loop_returns oracle ids c : forall fuel start k t u,
  Db.chunk_loop oracle fuel ids c start k = Some (t, inr u) ->
  exists slices,
    engine_slices fuel ids c start = Some slices /\ t = passed k slices.
Proof.
  induction fuel as [|fuel IH]; intros [s| |] k t u; simpl;
    try (intros [= <-]; exists []; split; reflexivity).
  - destruct (s <? length ids); [discriminate|].
    intros [= <-]. exists []. split; reflexivity.
  - destruct (s <? length ids);
      [|intros [= <-]; exists []; split; reflexivity].
    destruct (Db.process_chunk oracle k s (slice ids s (js_plus s c)))
      as [t1 [e|u1]] eqn:P; [discriminate|].
    destruct (Db.chunk_loop oracle fuel ids c (js_plus s c) (S k))
      as [[t2 r]|] eqn:L; [|discriminate].
    intros [= <- ->].
    destruct (IH _ _ _ _ L) as (rest & E & ->). rewrite E.
    eexists. split; [reflexivity|].
    rewrite (process_chunk_returns _ _ _ _ _ _ P). cbn [passed].
    now rewrite <- app_assoc.
Qed.

Lemma passed_no_rollback : forall l k, Forall no_rollback (passed k l).
Proof.
  induction l as [|[start sl] l IH]; intros k; simpl; [constructor|].
  repeat (constructor; [exact I|]). apply IH.
Qed.

Lemma committed_all_passed l k staged :
  Db.committed (passed k l ++ [Db.PoolEnd]) staged = map snd l.
Proof. apply committed_passed. reflexivity. Qed.

Lemma engine_return_trace oracle fuel options t u :
  Db.runGdprSqlWithTempTable oracle fuel options = Some (t, inr u) ->
  exists slices,
    engine_slices fuel (Db.ids options)
      (match Db.chunkSize options with Some c => c | None => Infinity end)
      (Fin 0) = Some slices /\
    t = Db.NewPool 2 (match Db.statementTimeoutMs options with
                      | Some t => t | None => 300000%Z end)
          :: passed 0 slices ++ [Db.PoolEnd].
Proof.
  unfold Db.runGdprSqlWithTempTable.
  destruct (Db.chunk_loop _ _ _ _ _ _) as [[t1 [e|u1]]|] eqn:L;
    simpl; try discriminate.
  intros [= <-].
  destruct (chunk_loop_returns _ _ _ _ _ _ _ _ L) as (slices & E & ->).
  exists slices. split; [exact E|reflexivity].
Qed.

Lemma chunk_size_number (options : Db.RunSqlOptions) :
  Db.chunkSize options <> Some NaN ->
  is_NaN (match Db.chunkSize options with
          | Some c => c | None => Infinity end) = false.
Proof.
  destruct (Db.chunkSize options) as [[n| |]|]; try reflexivity.
  intros H. now contradiction H.
Qed.

Lemma engine_return_committed oracle fuel options t u :
  Db.runGdprSqlWithTempTable oracle fuel options = Some (t, inr u) ->
  Db.committed t [] = map snd
    (match engine_slices fuel (Db.ids options)
             (match Db.chunkSize options with
              | Some c => c | None => Infinity end) (Fin 0) with
     | Some slices => slices | None => [] end) /\
  (Db.chunkSize options <> Some NaN ->
   concat (Db.committed t []) = Db.ids options).
Proof.
  intros R. destruct (engine_return_trace _ _ _ _ _ R) as (slices & E & ->).
  rewrite E.
  change (Db.committed (Db.NewPool 2 _ :: passed 0 slices ++ [Db.PoolEnd]) [])
    with (Db.committed (passed 0 slices ++ [Db.PoolEnd]) []).
  rewrite committed_all_passed. split; [reflexivity|].
  intros Hc.
  now destruct (engine_slices_sound _ _ _ _ _ (chunk_size_number _ Hc) E)
    as [HC _].
Qed.




(** The engine on two identifiers with a chunk size that is no
    number: one transaction, nothing staged, COMMIT, a normal return. *)
Example engine_commits_nothing_for_NaN :
  Db.runGdprSqlWithTempTable sound_store 2 chunks_of_NaN
  = Some ([Db.NewPool 2 300000%Z;
           Db.Call 0 Db.Connect [] true; Db.Call 0 Db.Begin [] true;
           Db.Call 0 Db.CreateTemp [] true; Db.Call 0 Db.BulkLoad [] true;
           Db.Call 0 Db.ReadSql [] true; Db.Call 0 Db.RunSql [] true;
           Db.Call 0 Db.Commit [] true; Db.Processed 0 0; Db.Release 0;
           Db.PoolEnd], inr tt).
Proof. reflexivity. Qed.

(** ** Engine: a connection that cannot be had *)

Lemma process_chunk_connect_fails oracle k start sl e :
  oracle k Db.Connect = Some e ->
  Db.process_chunk oracle k start sl =
  ([Db.Call k Db.Connect [] false], inl e).
Proof.
  intros H. unfold Db.process_chunk, Db.call. now rewrite H.
Qed.

Lemma run_slices_stops oracle tk e : forall k slices k0 start sl,
  nth_error slices k = Some (start, sl) ->
  (forall j, k0 <= j < k0 + k -> chunk_passes oracle j) ->
  Db.process_chunk oracle (k0 + k) start sl = (tk, inl e) ->
  Db.run_slices oracle k0 slices =
  (passed k0 (firstn k slices) ++ tk, inl e).
Proof.
  induction k as [|k IH]; intros [|[start0 sl0] rest] k0 start sl Hn Hp Hf;
    try discriminate; cbn [Db.run_slices firstn passed].
  - injection Hn as -> ->. rewrite Nat.add_0_r in Hf. now rewrite Hf.
  - simpl in Hn.
    rewrite process_chunk_passes by (apply Hp; lia).
    rewrite (IH rest (S k0) start sl Hn).
    + now rewrite <- !app_assoc.
    + intros j Hj. apply Hp. lia.
    + now replace (S k0 + k) with (k0 + S k) by lia.
Qed.

Lemma passed_releases j : forall l k,
  In (Db.Release j) (passed k l) -> k <= j < k + length l.
Proof.
  intros l k H. apply (chunk_of_passed _ _ _ _ H). reflexivity.
Qed.

(** X2. When [pool.connect()] is what fails, on chunk [k] after [k]
    chunks that passed, the engine throws that error having done
    nothing on chunk [k] but the failed call: no BEGIN, no ROLLBACK
    anywhere in the run, no connection of chunk [k] to release; it ends
    the pool, and the chunks committed are the [k] chunks before. *)
Theorem connect_failure_opens_no_transaction
  (oracle : nat -> Db.step -> option exn) (fuel : nat)
  (options : Db.RunSqlOptions) (slices : list (nat * list string))
  (k start : nat) (sl : list string) (e : exn) :
  let c := match Db.chunkSize options with
           | Some c => c | None => Infinity end in
  let timeout := match Db.statementTimeoutMs options with
                 | Some t => t | None => 300000%Z end in
  engine_slices fuel (Db.ids options) c (Fin 0) = Some slices ->
  nth_error slices k = Some (start, sl) ->
  (forall j, j < k -> chunk_passes oracle j) ->
  oracle k Db.Connect = Some e ->
  exists t,
    Db.runGdprSqlWithTempTable oracle fuel options = Some (t, inl e) /\
    t = Db.NewPool 2 timeout :: passed 0 (firstn k slices)
          ++ [Db.Call k Db.Connect [] false; Db.PoolEnd] /\
    Forall no_rollback t /\
    ~ In (Db.Release k) t /\
    (forall s p b, In (Db.Call k s p b) t -> s = Db.Connect) /\
    Db.committed t [] = map snd (firstn k slices).
Proof.
  intros c timeout Hsl Hn Hp He.
  assert (Hk : k < length slices) by (apply nth_error_Some; congruence).
  unfold Db.runGdprSqlWithTempTable. fold c timeout.
  rewrite (chunk_loop_run_slices oracle _ _ _ _ 0 _ Hsl).
  rewrite (run_slices_stops oracle [Db.Call k Db.Connect [] false] e
             k slices 0 start sl Hn)
    by (try (intros j Hj; apply Hp; lia);
        now apply process_chunk_connect_fails).
  simpl. eexists. split; [reflexivity|]. split.
  { now rewrite <- app_assoc. }
  rewrite <- app_assoc. cbn [app].
  split; [|split; [|split]].
  - constructor; [exact I|]. apply Forall_app. split.
    + apply passed_no_rollback.
    + repeat constructor.
  - intros [H|H]; [discriminate|].
    rewrite in_app_iff in H. destruct H as [H|[H|[H|[]]]]; try discriminate.
    apply passed_releases in H. rewrite length_firstn in H. lia.
  - intros s p b [H|H]; [discriminate|].
    rewrite in_app_iff in H. destruct H as [H|[H|[H|[]]]]; try discriminate.
    + apply (chunk_of_passed _ k) in H; [|reflexivity].
      rewrite length_firstn in H. lia.
    + now injection H as <- _ _.
  - change (Db.committed
              (passed 0 (firstn k slices)
                 ++ [Db.Call k Db.Connect [] false; Db.PoolEnd]) []
            = map snd (firstn k slices)).
    apply committed_passed. reflexivity.
Qed.

Lemma connect_failure_witness :
  exists t,
    Db.runGdprSqlWithTempTable pool_exhausted 3 three_chunks
      = Some (t, inl "timeout exceeded when trying to connect") /\
    t = Db.NewPool 2 300000%Z :: passed 0 [(0, ["u1"])]
          ++ [Db.Call 1 Db.Connect [] false; Db.PoolEnd] /\
    Forall no_rollback t /\
    ~ In (Db.Release 1) t /\
    (forall s p b, In (Db.Call 1 s p b) t -> s = Db.Connect) /\
    Db.committed t [] = [["u1"]].
Proof.
  apply (connect_failure_opens_no_transaction
           pool_exhausted 3 three_chunks
           [(0, ["u1"]); (1, ["u2"]); (2, ["u3"])]
           1 1 ["u2"] "timeout exceeded when trying to connect").
  - reflexivity.
  - reflexivity.
  - intros j Hj s _. destruct j; [now destruct s|lia].
  - reflexivity.
Defined.

(** ** Engine: connections and transactions *)

Lemma walk_app : forall t1 t2 u,
  walk u (t1 ++ t2) =
  match walk u t1 with Some u' => walk u' t2 | None => None end.
Proof.
  induction t1 as [|e t1 IH]; intros t2 u; simpl; [reflexivity|].
  destruct (use u e); [apply IH|reflexivity].
Qed.

Lemma process_chunk_walk oracle k start sl :
  walk idle (fst (Db.process_chunk oracle k start sl)) = Some idle.
Proof.
  unfold Db.process_chunk, Db.safeRollback, Db.call.
  destruct (oracle k Db.Connect), (oracle k Db.Begin),
    (oracle k Db.CreateTemp), (oracle k Db.BulkLoad),
    (oracle k Db.ReadSql), (oracle k Db.RunSql), (oracle k Db.Commit),
    (oracle k Db.Rollback); reflexivity.
Qed.

Lemma chunk_loop_walk oracle ids c : forall fuel start k t r,
  Db.chunk_loop oracle fuel ids c start k = Some (t, r) ->
  walk idle t = Some idle.
Proof.
  induction fuel as [|fuel IH]; intros [s| |] k t r; simpl;
    try (intros [= <- <-]; reflexivity).
  - destruct (s <? length ids); [discriminate|].
    intros [= <- <-]. reflexivity.
  - destruct (s <? length ids); [|intros [= <- <-]; reflexivity].
    pose proof (process_chunk_walk oracle k s (slice ids s (js_plus s c)))
      as W.
    destruct (Db.process_chunk oracle k s (slice ids s (js_plus s c)))
      as [t1 [e|u1]]; simpl in W.
    + intros [= <- <-]. exact W.
    + destruct (Db.chunk_loop oracle fuel ids c (js_plus s c) (S k))
        as [[t2 r2]|] eqn:L; [|discriminate].
      intros [= <- <-]. rewrite walk_app, W. eapply IH, L.
Qed.

Lemma process_chunk_keeps_pool oracle k start sl :
  Forall (fun e => e <> Db.PoolEnd)
    (fst (Db.process_chunk oracle k start sl)).
Proof.
  unfold Db.process_chunk, Db.safeRollback, Db.call.
  destruct (oracle k Db.Connect), (oracle k Db.Begin),
    (oracle k Db.CreateTemp), (oracle k Db.BulkLoad),
    (oracle k Db.ReadSql), (oracle k Db.RunSql), (oracle k Db.Commit),
    (oracle k Db.Rollback); simpl; repeat constructor; discriminate.
Qed.

Lemma chunk_loop_keeps_pool oracle ids c : forall fuel start k t r,
  Db.chunk_loop oracle fuel ids c start k = Some (t, r) ->
  Forall (fun e => e <> Db.PoolEnd) t.
Proof.
  induction fuel as [|fuel IH]; intros [s| |] k t r; simpl;
    try (intros [= <- <-]; constructor).
  - destruct (s <? length ids); [discriminate|].
    intros [= <- <-]. constructor.
  - destruct (s <? length ids); [|intros [= <- <-]; constructor].
    pose proof (process_chunk_keeps_pool oracle k s
                  (slice ids s (js_plus s c))) as W.
    destruct (Db.process_chunk oracle k s (slice ids s (js_plus s c)))
      as [t1 [e|u1]]; simpl in W.
    + intros [= <- <-]. exact W.
    + destruct (Db.chunk_loop oracle fuel ids c (js_plus s c) (S k))
        as [[t2 r2]|] eqn:L; [|discriminate].
      intros [= <- <-]. apply Forall_app. split; [exact W|eapply IH, L].
Qed.

(** X3. However the store behaves and however the run ends (return or
    throw), the engine's interactions respect the discipline of
    connections and transactions that [walk] checks event by event: a
    connection is asked for only when none is checked out; every
    statement goes to a connection that is checked out; BEGIN is sent
    only outside a transaction; a connection is released only after the
    transaction begun on it was committed or a ROLLBACK was sent for
    it; and when the pool is ended, last of all, every connection has
    been released. *)
Theorem engine_releases_every_connection
  (oracle : nat -> Db.step -> option exn) (fuel : nat)
  (options : Db.RunSqlOptions) (t : list Db.event) (r : exn + unit) :
  Db.runGdprSqlWithTempTable oracle fuel options = Some (t, r) ->
  walk idle t = Some idle /\
  exists body timeout, t = Db.NewPool 2 timeout :: body ++ [Db.PoolEnd] /\
    ~ In Db.PoolEnd body.
Proof.
  unfold Db.runGdprSqlWithTempTable.
  destruct (Db.chunk_loop _ _ _ _ _ _) as [[t1 r1]|] eqn:L; [|discriminate].
  pose proof (chunk_loop_walk _ _ _ _ _ _ _ _ L) as W.
  pose proof (chunk_loop_keeps_pool _ _ _ _ _ _ _ _ L) as K.
  intros H.
  assert (t = Db.NewPool 2 (match Db.statementTimeoutMs options with
                            | Some t => t | None => 300000%Z end)
                :: t1 ++ [Db.PoolEnd]) as ->.
  { destruct r1; simpl in H; injection H as <- _; reflexivity. }
  split.
  - cbn [walk use]. rewrite walk_app, W. reflexivity.
  - eexists _, _. split; [reflexivity|].
    intros Hin. rewrite Forall_forall in K. now apply (K _ Hin).
Qed.

Lemma engine_releases_witness :
  exists t,
    Db.runGdprSqlWithTempTable script_and_rollback_fail 3 three_chunks
      = Some (t, inl "canceling statement due to statement timeout") /\
    walk idle t = Some idle /\
    exists body timeout, t = Db.NewPool 2 timeout :: body ++ [Db.PoolEnd] /\
      ~ In Db.PoolEnd body.
Proof.
  eexists. split; [reflexivity|].
  apply (engine_releases_every_connection
           script_and_rollback_fail 3 three_chunks _
           (inl "canceling statement due to statement timeout")).
  reflexivity.
Defined.

(** ** Engine: a chunk size of zero *)

Lemma process_chunk_stages oracle k start sl :
  Forall (fun e => match e with
                   | Db.Call _ Db.BulkLoad param _ => param = sl
                   | _ => True
                   end)
    (fst (Db.process_chunk oracle k start sl)).
Proof.
  unfold Db.process_chunk, Db.safeRollback, Db.call.
  destruct (oracle k Db.Connect), (oracle k Db.Begin),
    (oracle k Db.CreateTemp), (oracle k Db.BulkLoad),
    (oracle k Db.ReadSql), (oracle k Db.RunSql), (oracle k Db.Commit),
    (oracle k Db.Rollback); simpl; repeat constructor.
Qed.

Lemma chunk_loop_zero oracle ids : forall fuel k t r,
  0 < length ids ->
  Db.chunk_loop oracle fuel ids (Fin 0) (Fin 0) k = Some (t, r) ->
  (exists e, r = inl e) /\ Forall stages_nothing t.
Proof.
  induction fuel as [|fuel IH]; intros k t r Hl; simpl;
    destruct (Nat.ltb_spec 0 (length ids)) as [_|]; try lia;
    [discriminate|].
  pose proof (process_chunk_stages oracle k 0 []) as St.
  destruct (Db.process_chunk oracle k 0 []) as [t1 [e|u1]]; simpl in St.
  - intros [= <- <-]. split; [eauto|exact St].
  - destruct (Db.chunk_loop oracle fuel ids (Fin 0) (Fin 0) (S k))
      as [[t2 r2]|] eqn:L; [|discriminate].
    intros [= <- <-]. destruct (IH _ _ _ Hl L) as [He Hs].
    split; [exact He|]. apply Forall_app. split; [exact St|exact Hs].
Qed.

Lemma chunk_loop_zero_passing oracle ids : forall fuel k,
  0 < length ids -> (forall j, chunk_passes oracle j) ->
  Db.chunk_loop oracle fuel ids (Fin 0) (Fin 0) k = None.
Proof.
  induction fuel as [|fuel IH]; intros k Hl Hp; simpl;
    destruct (Nat.ltb_spec 0 (length ids)) as [_|]; try lia;
    [reflexivity|].
  rewrite process_chunk_passes by apply Hp.
  now rewrite IH.
Qed.

Lemma committed_stages_nothing : forall t,
  Forall stages_nothing t -> concat (Db.committed t []) = [].
Proof.
  induction 1 as [|e t He _ IH]; [reflexivity|].
  destruct e as [? ?| k s p b |? ?|?|]; simpl; try exact IH.
  destruct s, b; simpl in *; subst; exact IH.
Qed.

(** X4. With a chunk size of zero and at least one identifier the
    chunk loop never advances: the engine cannot return normally.  It
    goes round on empty chunks, so whatever it commits before a call
    fails holds no identifier; and against a store that never fails it
    does not end at all. *)
Theorem zero_chunk_size_never_returns
  (oracle : nat -> Db.step -> option exn) (fuel : nat)
  (options : Db.RunSqlOptions) :
  Db.ids options <> [] -> Db.chunkSize options = Some (Fin 0) ->
  (forall t r, Db.runGdprSqlWithTempTable oracle fuel options = Some (t, r) ->
     (exists e, r = inl e) /\ concat (Db.committed t []) = []) /\
  ((forall j, chunk_passes oracle j) ->
     Db.runGdprSqlWithTempTable oracle fuel options = None).
Proof.
  intros Hi Hc. unfold Db.runGdprSqlWithTempTable. rewrite Hc.
  assert (Hl : 0 < length (Db.ids options))
    by (destruct (Db.ids options); [congruence|simpl; lia]).
  split.
  - intros t r.
    destruct (Db.chunk_loop _ _ _ _ _ _) as [[t1 r1]|] eqn:L; [|discriminate].
    destruct (chunk_loop_zero _ _ _ _ _ _ Hl L) as [[e ->] Hs].
    simpl. intros [= <- <-]. split; [eauto|].
    apply committed_stages_nothing. constructor; [exact I|].
    apply Forall_app. split; [exact Hs|repeat constructor].
  - intros Hp. now rewrite chunk_loop_zero_passing.
Qed.

Lemma zero_chunk_size_witness :
  (exists t,
     Db.runGdprSqlWithTempTable commit_of_second_fails 5 chunks_of_zero
       = Some (t, inl "deadlock detected") /\
     concat (Db.committed t []) = []) /\
  Db.runGdprSqlWithTempTable sound_store 5 chunks_of_zero = None.
Proof.
  split.
  - eexists. split; [reflexivity|].
    eapply (zero_chunk_size_never_returns commit_of_second_fails 5
              chunks_of_zero); [discriminate|reflexivity..].
  - apply (zero_chunk_size_never_returns sound_store 5 chunks_of_zero);
      [discriminate|reflexivity|].
    intros j s _. reflexivity.
Defined.

(** ** Client: the limiter *)

Section ClientLimiter.

Variables (concurrency maxAttempts : nat) (apiKey : string).

Lemma follow_preserves (P : state -> Prop) :
  (forall st tk st', P st ->
     step concurrency maxAttempts apiKey st tk = Some st' -> P st') ->
  forall sched st st',
    P st -> follow concurrency maxAttempts apiKey st sched = Some st' ->
    P st'.
Proof.
  intros Hstep. induction sched as [|tk sched IH]; intros st st' HP; simpl.
  - now intros [= <-].
  - destruct (step concurrency maxAttempts apiKey st tk) as [st1|] eqn:S1;
      [|discriminate].
    apply IH. eapply Hstep; eassumption.
Qed.


Lemma dequeue_bounded : forall ts active b res ts' res' ev,
  dequeue concurrency maxAttempts apiKey active b ts res
    = (ts', res', ev) ->
  active <= concurrency ->
  active + count_active ts' <= concurrency + count_active ts.
Proof.
  induction ts as [|[c p] ts IH]; intros active b res ts' res' ev.
  - intros [= <- <- <-]. lia.
  - destruct p as [|a|a s|a|]; simpl;
      try (destruct (dequeue _ _ _ active (S b) ts res)
             as [[ts1 res1] ev1] eqn:E; intros [= <- <- <-] Ha;
           pose proof (IH _ _ _ _ _ _ E Ha);
           rewrite !count_active_cons; simpl; lia).
    destruct (active <? concurrency) eqn:Lt.
    + destruct (iterate_first maxAttempts apiKey b c res) as [res1 I].
      rewrite I.
      destruct (dequeue _ _ _ _ (S b) ts res1)
        as [[ts2 res2] ev2] eqn:E.
      intros [= <- <- <-] Ha. apply Nat.ltb_lt in Lt.
      rewrite !count_active_cons. unfold first_phase in *.
      destruct (0 <? maxAttempts); cbn [is_active] in *;
        apply IH in E; lia.
    + intros [= <- <- <-] Ha. apply Nat.add_le_mono; [exact Ha|].
      apply Nat.le_refl.
Qed.

Lemma count_active_update : forall ts i c p p',
  nth_error ts i = Some (c, p) ->
  count_active (update i (c, p') ts) + (if is_active p then 1 else 0)
  = count_active ts + (if is_active p' then 1 else 0).
Proof.
  induction ts as [|[c0 p0] ts IH]; intros [|i] c p p' H;
    try discriminate; simpl in H.
  - injection H as -> ->. cbn [update]. rewrite !count_active_cons. lia.
  - cbn [update]. rewrite !count_active_cons.
    specialize (IH _ _ _ p' H). lia.
Qed.

Lemma step_bounded st tk st' :
  count_active (tasks st) <= concurrency ->
  step concurrency maxAttempts apiKey st tk = Some st' ->
  count_active (tasks st') <= concurrency.
Proof.
  intros B. destruct tk as [i r rnd|]; simpl; [|now intros [= <-]].
  destruct (nth_error (tasks st) i) as [[c p]|] eqn:N; [|discriminate].
  destruct (resume _ _ _ _ _ _ _ _) as [[[p' res1] ev]|] eqn:R;
    [|discriminate].
  destruct (dequeue _ _ _ _ 0 _ res1) as [[ts2 res2] ev2] eqn:D.
  intros [= <-]. simpl.
  pose proof (count_active_update _ _ _ _ p' N) as U.
  rewrite (resume_active _ _ _ _ _ _ _ _ _ R) in U.
  apply dequeue_bounded in D; [|destruct (is_active p'); lia].
  lia.
Qed.

Lemma count_active_queued (chunks : list (list string)) :
  count_active (map (fun c => (c, Queued)) chunks) = 0.
Proof. induction chunks as [|c chunks IH]; [reflexivity|exact IH]. Qed.

Lemma start_bounded chunks aborted0 :
  count_active (tasks (start concurrency maxAttempts apiKey chunks aborted0))
  <= concurrency.
Proof.
  unfold start.
  destruct (dequeue _ _ _ 0 0 _ []) as [[ts res] ev] eqn:D. simpl.
  apply dequeue_bounded in D; [|lia].
  rewrite count_active_queued in D. lia.
Qed.

End ClientLimiter.

(** X5. At every turn of every run of the event loop, complete or
    not, at most [concurrency] batches are in flight (awaiting a
    response, a body or a timer), and a batch is kept waiting in the
    queue only while exactly [concurrency] batches are in flight. *)
Theorem limiter_never_exceeds_concurrency
  (concurrency maxAttempts : nat) (apiKey : string)
  (chunks : list (list string)) (aborted0 : bool) (sched : list tick)
  (st : state) :
  follow concurrency maxAttempts apiKey
    (start concurrency maxAttempts apiKey chunks aborted0) sched = Some st ->
  count_active (tasks st) <= concurrency /\
  (existsb (fun t => is_queued (snd t)) (tasks st) = true ->
   count_active (tasks st) = concurrency).
Proof.
  intros F.
  assert (B : count_active (tasks st) <= concurrency).
  { apply (follow_preserves concurrency maxAttempts apiKey
             (fun s => count_active (tasks s) <= concurrency)
             (step_bounded concurrency maxAttempts apiKey) _ _ _
             (start_bounded _ _ _ _ _) F). }
  assert (Sat : saturated concurrency (tasks st)).
  { apply (follow_preserves concurrency maxAttempts apiKey
             (fun s => saturated concurrency (tasks s))
             (step_saturated concurrency maxAttempts apiKey) _ _ _
             (start_saturated _ _ _ _ _) F). }
  split; [exact B|]. intros Q. specialize (Sat Q). lia.
Qed.

Lemma limiter_witness :
  exists st,
    follow 2 2 "amp-key"
      (start 2 2 "amp-key" [["u1"; "u2"]; ["u3"; "u4"]; ["u5"]] false)
      [Resolve 1 (Response 404) 0%Q] = Some st /\
    count_active (tasks st) <= 2 /\
    (existsb (fun t => is_queued (snd t)) (tasks st) = true ->
     count_active (tasks st) = 2).
Proof.
  eexists. split; [reflexivity|].
  apply (limiter_never_exceeds_concurrency 2 2 "amp-key"
           [["u1"; "u2"]; ["u3"; "u4"]; ["u5"]] false
           [Resolve 1 (Response 404) 0%Q]).
  reflexivity.
Defined.

(** ** Client: what is requested and what is reported *)

Lemma engine_slices_zero {A : Type} (ids : list A) : forall fuel s,
  s < length ids -> engine_slices fuel ids (Fin 0) (Fin s) = None.
Proof.
  induction fuel as [|fuel IH]; intros s Hs; simpl;
    destruct (Nat.ltb_spec s (length ids)) as [_|]; try lia;
    [reflexivity|].
  rewrite Nat.add_0_r. now rewrite IH.
Qed.



Section ClientRequests.

Variables (concurrency maxAttempts : nat) (apiKey : string).
Variable chunks : list (list string).

Lemma iterate_request idx c a res p res' ev :
  iterate maxAttempts apiKey idx c a res = (p, res', ev) ->
  nth_error chunks idx = Some c ->
  Forall (request_ok maxAttempts apiKey chunks) ev.
Proof.
  unfold iterate. destruct (a <? maxAttempts) eqn:L; intros [= <- <- <-] N.
  - apply Nat.ltb_lt in L. constructor; [|constructor].
    simpl. auto.
  - constructor; [exact I|constructor].
Qed.

Lemma resume_request idx c p r rnd res p' res' ev :
  resume maxAttempts apiKey idx c p r rnd res = Some (p', res', ev) ->
  nth_error chunks idx = Some c ->
  Forall (request_ok maxAttempts apiKey chunks) ev.
Proof.
  intros R N.
  destruct p as [|a|a s|a|], r as [status|err|body|err|];
    simpl in R; try discriminate.
  - destruct (res_ok status); [|destruct (status <? 500)];
      injection R as <- <- <-; repeat constructor.
  - injection R as R. unfold on_error in R.
    destruct (a + 1 =? maxAttempts);
      [eapply iterate_request; eauto|].
    injection R as <- <- <-. repeat constructor.
  - injection R as <- <- <-. constructor.
  - injection R as R. unfold on_error in R.
    destruct (a + 1 =? maxAttempts);
      [eapply iterate_request; eauto|].
    injection R as <- <- <-. repeat constructor.
  - injection R as R. eapply iterate_request; eauto.
Qed.

Lemma dequeue_requests : forall ts active b res ts' res' ev pre,
  dequeue concurrency maxAttempts apiKey active b ts res
    = (ts', res', ev) ->
  chunks = pre ++ map fst ts -> length pre = b ->
  map fst ts' = map fst ts /\
  Forall (request_ok maxAttempts apiKey chunks) ev.
Proof.
  induction ts as [|[c p] ts IH]; intros active b res ts' res' ev pre.
  - intros [= <- <- <-]. split; [reflexivity|constructor].
  - assert (Hpre : forall pre0, chunks = pre0 ++ map fst ((c, p) :: ts) ->
              length pre0 = b ->
              chunks = (pre0 ++ [c]) ++ map fst ts /\
              length (pre0 ++ [c]) = S b /\
              nth_error chunks b = Some c).
    { intros pre0 E L. split; [now rewrite <- app_assoc|]. split.
      - rewrite length_app. simpl. lia.
      - rewrite E, nth_error_app2 by lia.
        rewrite L, Nat.sub_diag. reflexivity. }
    destruct p as [|a|a s|a|]; simpl;
      try (destruct (dequeue _ _ _ active (S b) ts res)
             as [[ts1 res1] ev1] eqn:E; intros [= <- <- <-] Hc Hl;
           destruct (Hpre _ Hc Hl) as (Hc' & Hl' & _);
           destruct (IH _ _ _ _ _ _ _ E Hc' Hl') as [M F];
           simpl; split; [congruence|exact F]).
    destruct (active <? concurrency).
    + destruct (iterate_first maxAttempts apiKey b c res) as [res1 I].
      rewrite I.
      destruct (dequeue _ _ _ _ (S b) ts res1)
        as [[ts2 res2] ev2] eqn:E.
      intros [= <- <- <-] Hc Hl.
      destruct (Hpre _ Hc Hl) as (Hc' & Hl' & Hn).
      destruct (IH _ _ _ _ _ _ _ E Hc' Hl') as [M F].
      split; [simpl; congruence|].
      constructor; [exact Logic.I|]. apply Forall_app. split; [|exact F].
      eapply iterate_request; eauto.
    + intros [= <- <- <-] _ _. split; [reflexivity|constructor].
Qed.

Lemma step_requests st tk st' :
  requests_inv maxAttempts apiKey chunks st ->
  step concurrency maxAttempts apiKey st tk = Some st' ->
  requests_inv maxAttempts apiKey chunks st'.
Proof.
  intros [M F]. destruct tk as [i r rnd|]; simpl.
  - destruct (nth_error (tasks st) i) as [[c p]|] eqn:N; [|discriminate].
    destruct (resume _ _ _ _ _ _ _ _) as [[[p' res1] ev]|] eqn:R;
      [|discriminate].
    destruct (dequeue _ _ _ _ 0 _ res1) as [[ts2 res2] ev2] eqn:D.
    intros [= <-]. unfold requests_inv. simpl.
    assert (Nc : nth_error chunks i = Some c).
    { rewrite <- M. now rewrite (map_nth_error fst _ _ N). }
    pose proof (update_fst i c p' _ _ N) as U.
    destruct (dequeue_requests _ _ _ _ _ _ _ [] D) as [M2 F2];
      [simpl; congruence|reflexivity|].
    split; [congruence|].
    apply Forall_app. split; [exact F|].
    constructor; [exact I|]. apply Forall_app. split; [|exact F2].
    eapply resume_request; eauto.
  - intros [= <-]. unfold requests_inv. simpl. split; [exact M|].
    apply Forall_app. split; [exact F|repeat constructor].
Qed.

Lemma start_requests aborted0 :
  requests_inv maxAttempts apiKey chunks
    (start concurrency maxAttempts apiKey chunks aborted0).
Proof.
  unfold start, requests_inv.
  destruct (dequeue _ _ _ 0 0 _ []) as [[ts res] ev] eqn:D. simpl.
  assert (E : map fst (map (fun c : list string => (c, Queued)) chunks)
              = chunks)
    by (rewrite map_map; apply map_id).
  destruct (dequeue_requests _ _ _ _ _ _ _ [] D) as [M F];
    [simpl; congruence|reflexivity|].
  split; [congruence|exact F].
Qed.

End ClientRequests.



Lemma entry_ok_mono maxAttempts chunks (t t' : list event) r :
  (forall e, In e t -> In e t') ->
  entry_ok maxAttempts chunks t r -> entry_ok maxAttempts chunks t' r.
Proof.
  intros Sub (idx & c & N & Hin & H). exists idx, c.
  split; [exact N|]. split; [exact Hin|].
  destruct (ok r).
  - destruct H as (E & status & Hs & Hok). split; [exact E|].
    exists status. auto.
  - destruct H as [(status & body & E & Hp & H1 & H2)
                  |[(err & E & [H1|H1])|(E & H1)]].
    + left. exists status, body. auto 6.
    + right. left. exists err. auto.
    + right. left. exists err. auto.
    + right. right. auto.
Qed.

Lemma push_missing_refused chunk : forall res,
  exists more,
    push_missing chunk res = res ++ more /\
    Forall (fun r => In (id r) chunk /\ ok r = false /\
                     error r = Some "Retry exhausted") more.
Proof.
  unfold push_missing. induction chunk as [|x chunk IH]; intros res; simpl.
  - exists []. split; [now rewrite app_nil_r|constructor].
  - destruct (existsb (fun r => String.eqb (id r) x) res).
    + destruct (IH res) as (more & E & F). exists more. split; [exact E|].
      eapply Forall_impl; [|exact F]. simpl. tauto.
    + destruct (IH (res ++ [{| id := x; ok := false;
                               error := Some "Retry exhausted" |}]))
        as (more & E & F).
      eexists (_ :: more). split; [rewrite E, <- app_assoc; reflexivity|].
      constructor; [simpl; auto|].
      eapply Forall_impl; [|exact F]. simpl. tauto.
Qed.

Section ClientEntries.

Variables (concurrency maxAttempts : nat) (apiKey : string).
Variable chunks : list (list string).

Lemma iterate_entries idx c a res p res' ev :
  iterate maxAttempts apiKey idx c a res = (p, res', ev) ->
  nth_error chunks idx = Some c ->
  exists more,
    res' = res ++ more /\ Forall (entry_ok maxAttempts chunks ev) more.
Proof.
  unfold iterate. destruct (a <? maxAttempts); intros [= <- <- <-] N.
  - exists []. split; [now rewrite app_nil_r|constructor].
  - destruct (push_missing_refused c res) as (more & E & F).
    exists more. split; [exact E|].
    eapply Forall_impl; [|exact F]. intros r (Hin & Hok & He).
    exists idx, c. split; [exact N|]. split; [exact Hin|].
    rewrite Hok. right. right. split; [exact He|now left].
Qed.

Lemma on_error_entries idx c a err rnd res p res' ev (t : list event) :
  on_error maxAttempts apiKey idx c a err rnd res = (p, res', ev) ->
  nth_error chunks idx = Some c ->
  In (Settled idx (FetchError err)) t \/ In (Settled idx (TextError err)) t ->
  exists more,
    res' = res ++ more /\
    Forall (entry_ok maxAttempts chunks (t ++ ev)) more.
Proof.
  unfold on_error. intros R N Hs.
  destruct (a + 1 =? maxAttempts).
  - destruct (iterate_entries _ _ _ _ _ _ _ R N) as (more & E & F).
    exists (map (failed (network_error maxAttempts err)) c ++ more).
    split; [rewrite E; unfold push_all; now rewrite <- app_assoc|].
    apply Forall_app. split.
    + apply Forall_forall. intros r Hr.
      apply in_map_iff in Hr as (x & <- & Hx).
      exists idx, c. split; [exact N|]. split; [exact Hx|]. simpl.
      right. left. exists err. split; [reflexivity|].
      rewrite !in_app_iff. tauto.
    + eapply Forall_impl; [|exact F]. intros r.
      apply entry_ok_mono. intros e. rewrite in_app_iff. tauto.
  - injection R as <- <- <-. exists [].
    split; [now rewrite app_nil_r|constructor].
Qed.

Lemma resume_entries idx c p r rnd res p' res' ev (t : list event) :
  resume maxAttempts apiKey idx c p r rnd res = Some (p', res', ev) ->
  nth_error chunks idx = Some c ->
  (forall a status, p = AwaitText a status ->
     permanent status = true /\ In (Settled idx (Response status)) t) ->
  exists more,
    res' = res ++ more /\
    Forall (entry_ok maxAttempts chunks (t ++ Settled idx r :: ev)) more.
Proof.
  intros R N Hp.
  assert (Nil : exists more : list AmplitudeResult,
             res = res ++ more /\
             Forall (entry_ok maxAttempts chunks (t ++ Settled idx r :: ev))
               more)
    by (exists []; split; [now rewrite app_nil_r|constructor]).
  assert (Err : forall a err,
             (r = FetchError err \/ r = TextError err) ->
             on_error maxAttempts apiKey idx c a err rnd res
               = (p', res', ev) ->
             exists more,
               res' = res ++ more /\
               Forall (entry_ok maxAttempts chunks
                         (t ++ Settled idx r :: ev)) more).
  { intros a err Hr O.
    destruct (on_error_entries _ _ _ _ _ _ _ _ _ (t ++ [Settled idx r])
                O N) as (more & E & F).
    - rewrite !in_app_iff. simpl. destruct Hr as [->| ->]; auto.
    - exists more. split; [exact E|]. now rewrite <- app_assoc in F. }
  destruct p as [|a|a s|a|], r as [status|err|body|err|];
    simpl in R; try discriminate.
  - destruct (res_ok status) eqn:Ok; [|destruct (status <? 500)];
      injection R as <- <- <-; try exact Nil.
    exists (map succeeded c). split; [reflexivity|].
    apply Forall_forall. intros r Hr.
    apply in_map_iff in Hr as (x & <- & Hx).
    exists idx, c. split; [exact N|]. split; [exact Hx|]. simpl.
    split; [reflexivity|]. exists status. split; [|exact Ok].
    rewrite in_app_iff. right. now left.
  - injection R as R. eapply Err; eauto.
  - injection R as <- <- <-.
    destruct (Hp a s eq_refl) as [Perm Seen].
    exists (map (failed (http_error s body)) c). split; [reflexivity|].
    apply Forall_forall. intros r Hr.
    apply in_map_iff in Hr as (x & <- & Hx).
    exists idx, c. split; [exact N|]. split; [exact Hx|]. simpl.
    left. exists s, body. split; [reflexivity|]. split; [exact Perm|].
    rewrite !in_app_iff. simpl. auto.
  - injection R as R. eapply Err; eauto.
  - injection R as R.
    destruct (iterate_entries _ _ _ _ _ _ _ R N) as (more & E & F).
    exists more. split; [exact E|].
    eapply Forall_impl; [|exact F]. intros r.
    apply entry_ok_mono. intros e. rewrite in_app_iff. simpl. tauto.
Qed.

Lemma dequeue_entries : forall ts active b res ts' res' ev pre,
  dequeue concurrency maxAttempts apiKey active b ts res
    = (ts', res', ev) ->
  chunks = pre ++ map fst ts -> length pre = b ->
  exists more,
    res' = res ++ more /\ Forall (entry_ok maxAttempts chunks ev) more.
Proof.
  induction ts as [|[c p] ts IH]; intros active b res ts' res' ev pre.
  - intros [= <- <- <-]. exists [].
    split; [now rewrite app_nil_r|constructor].
  - assert (Hpre : forall pre0, chunks = pre0 ++ map fst ((c, p) :: ts) ->
              length pre0 = b ->
              chunks = (pre0 ++ [c]) ++ map fst ts /\
              length (pre0 ++ [c]) = S b /\
              nth_error chunks b = Some c).
    { intros pre0 E L. split; [now rewrite <- app_assoc|]. split.
      - rewrite length_app. simpl. lia.
      - rewrite E, nth_error_app2 by lia.
        rewrite L, Nat.sub_diag. reflexivity. }
    destruct p as [|a|a s|a|]; simpl;
      try (destruct (dequeue _ _ _ active (S b) ts res)
             as [[ts1 res1] ev1] eqn:E; intros [= <- <- <-] Hc Hl;
           destruct (Hpre _ Hc Hl) as (Hc' & Hl' & _);
           exact (IH _ _ _ _ _ _ _ E Hc' Hl')).
    destruct (active <? concurrency).
    + destruct (iterate_first maxAttempts apiKey b c res) as [res1 I].
      rewrite I.
      destruct (dequeue _ _ _ _ (S b) ts res1)
        as [[ts2 res2] ev2] eqn:E.
      intros [= <- <- <-] Hc Hl.
      destruct (Hpre _ Hc Hl) as (Hc' & Hl' & Hn).
      destruct (IH _ _ _ _ _ _ _ E Hc' Hl') as (more2 & E2 & F2).
      destruct (iterate_entries _ _ _ _ _ _ _ I Hn) as (more1 & E1 & F1).
      exists (more1 ++ more2).
      split; [rewrite E2, E1; now rewrite <- app_assoc|].
      apply Forall_app. split.
      * eapply Forall_impl; [|exact F1]. intros r.
        apply entry_ok_mono. intros e. simpl. rewrite in_app_iff. tauto.
      * eapply Forall_impl; [|exact F2]. intros r.
        apply entry_ok_mono. intros e. simpl. rewrite in_app_iff. tauto.
    + intros [= <- <- <-] _ _. exists [].
      split; [now rewrite app_nil_r|constructor].
Qed.

Lemma resume_to_text idx c p r rnd res a status res' ev :
  resume maxAttempts apiKey idx c p r rnd res
    = Some (AwaitText a status, res', ev) ->
  r = Response status /\ permanent status = true.
Proof.
  unfold permanent.
  destruct p as [|a0|a0 s0|a0|], r as [st0|err|body|err|];
    simpl; try discriminate;
    unfold on_error, iterate;
    repeat match goal with
      | |- context [if ?b then _ else _] => destruct b eqn:?
      end;
    intros [= ]; subst; auto.
  split; [reflexivity|]. now rewrite Heqb, Heqb0.
Qed.

Lemma step_trace_grows st tk st' :
  step concurrency maxAttempts apiKey st tk = Some st' ->
  exists more, trace st' = trace st ++ more.
Proof.
  destruct tk as [i r rnd|]; simpl; [|intros [= <-]; simpl; eauto].
  destruct (nth_error (tasks st) i) as [[c p]|]; [|discriminate].
  destruct (resume _ _ _ _ _ _ _ _) as [[[p' res1] ev]|]; [|discriminate].
  destruct (dequeue _ _ _ _ 0 _ res1) as [[ts2 res2] ev2].
  intros [= <-]. simpl. eauto.
Qed.

Lemma step_refusal_seen st tk st' :
  refusal_seen st ->
  step concurrency maxAttempts apiKey st tk = Some st' ->
  refusal_seen st'.
Proof.
  intros Seen S1.
  destruct (step_trace_grows _ _ _ S1) as (more & Tr).
  pose proof (step_length _ _ _ _ _ _ S1) as Len.
  destruct tk as [i r rnd|].
  - destruct (step_frame _ _ _ _ _ _ _ _ S1)
      as (c & p & p' & res1 & ev & N & R & N' & Pi & Others & _).
    intros idx c0 a status H.
    destruct (Nat.eq_dec idx i) as [->|Ne].
    + rewrite N' in H. injection H as <- ->.
      destruct (resume_to_text _ _ _ _ _ _ _ _ _ _ R) as [-> Perm].
      split; [exact Perm|].
      assert (Hin : In (Settled i (Response status)) (proj i (trace st')))
        by (rewrite Pi, in_app_iff; right; now left).
      unfold proj in Hin. now apply filter_In in Hin.
    + assert (Hlt : idx < length (tasks st))
        by (rewrite <- Len; apply nth_error_Some; congruence).
      destruct (nth_error (tasks st) idx) as [[c1 q]|] eqn:N1;
        [|apply nth_error_None in N1; lia].
      destruct (Others idx c1 q Ne N1) as [[H1 _]|(_ & H1 & _)];
        rewrite H1 in H.
      * injection H as -> ->. destruct (Seen _ _ _ _ N1) as [Perm Hin].
        split; [exact Perm|]. rewrite Tr, in_app_iff. now left.
      * unfold first_phase in H. destruct (0 <? maxAttempts); discriminate.
  - apply step_signal in S1 as (T & _ & _ & _).
    intros idx c0 a status H. rewrite T in H.
    destruct (Seen _ _ _ _ H) as [Perm Hin].
    split; [exact Perm|]. rewrite Tr, in_app_iff. now left.
Qed.

Lemma step_entries st tk st' :
  map fst (tasks st) = chunks -> refusal_seen st ->
  Forall (entry_ok maxAttempts chunks (trace st)) (results st) ->
  step concurrency maxAttempts apiKey st tk = Some st' ->
  Forall (entry_ok maxAttempts chunks (trace st')) (results st').
Proof.
  intros M Seen F. destruct tk as [i r rnd|]; simpl.
  - destruct (nth_error (tasks st) i) as [[c p]|] eqn:N; [|discriminate].
    destruct (resume _ _ _ _ _ _ _ _) as [[[p' res1] ev]|] eqn:R;
      [|discriminate].
    destruct (dequeue _ _ _ _ 0 _ res1) as [[ts2 res2] ev2] eqn:D.
    intros [= <-]. simpl.
    assert (Nc : nth_error chunks i = Some c).
    { rewrite <- M. now rewrite (map_nth_error fst _ _ N). }
    pose proof (update_fst i c p' _ _ N) as U.
    destruct (resume_entries _ _ _ _ _ _ _ _ _ (trace st) R Nc)
      as (more1 & E1 & F1).
    { intros a status ->. exact (Seen _ _ _ _ N). }
    destruct (dequeue_entries _ _ _ _ _ _ _ [] D)
      as (more2 & E2 & F2); [simpl; congruence|reflexivity|].
    rewrite E2, E1. rewrite !Forall_app. repeat split.
    + eapply Forall_impl; [|exact F]. intros x.
      apply entry_ok_mono. intros e. rewrite in_app_iff. tauto.
    + eapply Forall_impl; [|exact F1]. intros x.
      apply entry_ok_mono. intros e.
      rewrite !in_app_iff. simpl. rewrite in_app_iff. tauto.
    + eapply Forall_impl; [|exact F2]. intros x.
      apply entry_ok_mono. intros e.
      rewrite !in_app_iff. simpl. rewrite in_app_iff. tauto.
  - intros [= <-]. simpl.
    eapply Forall_impl; [|exact F]. intros x.
    apply entry_ok_mono. intros e. rewrite in_app_iff. tauto.
Qed.

Lemma start_queued_or_first aborted0 idx c p :
  nth_error (tasks (start concurrency maxAttempts apiKey chunks aborted0))
    idx = Some (c, p) ->
  p = Queued \/ p = first_phase maxAttempts.
Proof.
  unfold start.
  destruct (dequeue _ _ _ 0 0 _ []) as [[ts res] ev] eqn:D.
  intros Hn. simpl in *.
  destruct (dequeue_frame _ _ _ _ _ _ _ _ _ _ D) as [_ Fr].
  destruct (dequeue_length _ _ _ _ _ _ _ _ _ _ D) as [L _].
  assert (Hlt : idx < length ts) by (apply nth_error_Some; congruence).
  rewrite length_map in L.
  destruct (nth_error (map (fun c0 : list string => (c0, Queued)) chunks)
              idx) as [[c0 q0]|] eqn:N0;
    [|apply nth_error_None in N0; rewrite length_map in N0; lia].
  assert (q0 = Queued) as ->.
  { apply nth_error_In, in_map_iff in N0 as (x & [= _ <-] & _).
    reflexivity. }
  destruct (Fr idx c0 Queued N0) as [[H1 _]|(_ & H1 & _)];
    rewrite H1 in Hn; injection Hn as <- <-; auto.
Qed.

End ClientEntries.

Lemma follow_entries concurrency maxAttempts apiKey chunks aborted0 :
  forall sched st,
    follow concurrency maxAttempts apiKey
      (start concurrency maxAttempts apiKey chunks aborted0) sched
      = Some st ->
    entries_inv maxAttempts apiKey chunks st.
Proof.
  intros sched st.
  apply (follow_preserves concurrency maxAttempts apiKey
           (entries_inv maxAttempts apiKey chunks)).
  - intros s tk s' (Rq & Seen & F) S1. split; [|split].
    + eapply step_requests; eauto.
    + eapply step_refusal_seen; eauto.
    + eapply step_entries; eauto. apply Rq.
  - split; [apply start_requests|]. split.
    + intros idx c a status H.
      apply start_queued_or_first in H as [H|H]; [discriminate|].
      unfold first_phase in H. destruct (0 <? maxAttempts); discriminate.
    + unfold start.
      destruct (dequeue _ _ _ 0 0 _ []) as [[ts res] ev] eqn:D. simpl.
      destruct (dequeue_entries _ _ _ chunks _ _ _ _ _ _ _ [] D)
        as (more & -> & F); [|reflexivity|exact F].
      simpl. rewrite map_map. symmetry. apply map_id.
Qed.

(** X7. Every outcome entry the client holds, at any turn of any run,
    is warranted by what happened to the batch of its identifier.  An
    entry with [ok: true] has no error detail and its batch received a
    response with a status in 200-299.  An entry with [ok: false]
    carries exactly one of three details: ["Amplitude <status>: <body>"]
    for a status below 500 and outside 200-299 that the batch received,
    with the body read from it; ["Network error after <maxAttempts>
    attempts: <error>"] for a rejection the batch met; or
    ["Retry exhausted"], after the batch left its retry loop. *)
Theorem every_entry_is_warranted
  (concurrency maxAttempts : nat) (apiKey : string)
  (chunks : list (list string)) (aborted0 : bool) (sched : list tick)
  (st : state) (r : AmplitudeResult) :
  follow concurrency maxAttempts apiKey
    (start concurrency maxAttempts apiKey chunks aborted0) sched = Some st ->
  In r (results st) ->
  entry_ok maxAttempts chunks (trace st) r.
Proof.
  intros F Hin. apply follow_entries in F as (_ & _ & Fa).
  rewrite Forall_forall in Fa. exact (Fa _ Hin).
Qed.

Lemma every_entry_witness :
  exists st,
    follow 2 2 "amp-key"
      (start 2 2 "amp-key" [["u1"; "u2"]; ["u3"; "u4"]; ["u5"]] false)
      mixed_outcomes = Some st /\
    entry_ok 2 [["u1"; "u2"]; ["u3"; "u4"]; ["u5"]] (trace st)
      (failed "Amplitude 404: invalid user" "u3") /\
    entry_ok 2 [["u1"; "u2"]; ["u3"; "u4"]; ["u5"]] (trace st)
      (failed "Retry exhausted" "u5").
Proof.
  eexists. split; [reflexivity|]. split.
  - apply (every_entry_is_warranted 2 2 "amp-key"
             [["u1"; "u2"]; ["u3"; "u4"]; ["u5"]] false mixed_outcomes).
    + reflexivity.
    + simpl. repeat (first [left; reflexivity | right]).
  - apply (every_entry_is_warranted 2 2 "amp-key"
             [["u1"; "u2"]; ["u3"; "u4"]; ["u5"]] false mixed_outcomes).
    + reflexivity.
    + simpl. repeat (first [left; reflexivity | right]).
Defined.

(** ** Client: no attempt allowed, batches of no identifier *)

Lemma push_missing_fresh chunk : forall res,
  NoDup chunk -> (forall x, In x chunk -> ~ In x (map id res)) ->
  push_missing chunk res = res ++ map (failed "Retry exhausted") chunk.
Proof.
  unfold push_missing.
  induction chunk as [|a chunk IH]; intros res ND H; simpl.
  - now rewrite app_nil_r.
  - assert (E : existsb (fun r => String.eqb (id r) a) res = false).
    { apply not_true_is_false. intros E.
      apply existsb_exists in E as (r & Hin & Hr).
      apply String.eqb_eq in Hr. apply (H a (or_introl eq_refl)).
      rewrite <- Hr. now apply in_map. }
    rewrite E. inversion ND as [|? ? Hna ND']; subst.
    rewrite IH.
    + rewrite <- app_assoc. reflexivity.
    + exact ND'.
    + intros x Hx. rewrite map_app, in_app_iff. simpl.
      intros [Hin|[<-|[]]].
      * apply (H x); [now right|exact Hin].
      * exact (Hna Hx).
Qed.

Lemma dequeue_no_attempts concurrency apiKey : forall chunks active b res,
  active < concurrency -> NoDup (concat chunks) ->
  (forall x, In x (concat chunks) -> ~ In x (map id res)) ->
  exists ev,
    dequeue concurrency 0 apiKey active b
      (map (fun c => (c, Queued)) chunks) res
    = (map (fun c => (c, Finished)) chunks,
       res ++ map (failed "Retry exhausted") (concat chunks), ev) /\
    Forall (fun e => is_fetch e = false) ev.
Proof.
  induction chunks as [|c chunks IH]; intros active b res Ha ND Hf.
  - exists []. simpl. rewrite app_nil_r. split; [reflexivity|constructor].
  - simpl in ND, Hf.
    pose proof (NoDup_app_remove_l _ _ ND) as ND2.
    pose proof (NoDup_app_remove_r _ _ ND) as ND1.
    pose proof (NoDup_app_disjoint _ _ ND) as Dj.
    destruct (IH active (S b)
                (res ++ map (failed "Retry exhausted") c) Ha ND2)
      as (ev & E & F).
    { intros x Hx. rewrite map_app, in_app_iff, map_id_failed.
      intros [Hin|Hin].
      - apply (Hf x); [apply in_or_app; now right|exact Hin].
      - exact (Dj x Hin Hx). }
    exists (Start b :: [Exhausted b] ++ ev).
    cbn [map dequeue]. apply Nat.ltb_lt in Ha. rewrite Ha.
    unfold iterate. cbn [Nat.ltb Nat.leb is_active].
    rewrite push_missing_fresh.
    + rewrite E. cbn [concat]. rewrite map_app, <- app_assoc.
      split; [reflexivity|]. repeat constructor. exact F.
    + exact ND1.
    + intros x Hx. apply Hf. apply in_or_app. now left.
Qed.

(** X8. With [maxAttempts] 0 the client returns at once, having
    issued no request: every identifier of a duplicate-free list gets
    the entry [{ ok: false, error: "Retry exhausted" }], in the order of
    the list. *)
Theorem zero_attempts_marks_every_identifier
  (fuel : nat) (publicIds : list string) (apiKey : string)
  (options : AmplitudeOptions) (aborted0 : bool) :
  apiKey <> "" -> NoDup publicIds ->
  positive (match batchSize options with
            | Some c => c | None => Fin 300 end) ->
  1 <= match concurrentBatches options with Some n => n | None => 4 end ->
  maxAttempts options = Some 0 ->
  length publicIds <= fuel ->
  exists st,
    deleteUsersAmplitude fuel publicIds apiKey options aborted0 []
      = Some (inr st) /\
    results st = map (failed "Retry exhausted") publicIds /\
    Forall (fun e => is_fetch e = false) (trace st).
Proof.
  intros Hk ND Hb Hc Hm Hf. unfold deleteUsersAmplitude. rewrite Hm.
  apply String.eqb_neq in Hk. rewrite Hk.
  rewrite split_batches_slices.
  destruct (engine_slices_total fuel publicIds
              (match batchSize options with
               | Some c => c | None => Fin 300 end) 0 Hb)
    as [slices E]; [lia|].
  rewrite E. cbn [option_map].
  destruct (engine_slices_sound _ _ _ _ _ (positive_number _ Hb) E)
    as [Cat _].
  cbn [skipn] in Cat.
  destruct (match concurrentBatches options with
            | Some n => n | None => 4 end) as [|conc] eqn:Ec; [lia|].
  cbn [Nat.eqb]. unfold start.
  destruct (dequeue_no_attempts (S conc) apiKey (map snd slices) 0 0 [])
    as (ev & D & F); [lia|now rewrite Cat|intros x _ []|].
  rewrite D, Cat. cbn [app].
  assert (Fin_ : forall l : list (list string),
            forallb (fun t : task => is_finished (snd t))
              (map (fun c => (c, Finished)) l) = true)
    by (induction l; [reflexivity|assumption]).
  unfold run, all_finished. cbn [tasks]. rewrite Fin_.
  eexists. split; [reflexivity|]. split; [reflexivity|exact F].
Qed.

Lemma zero_attempts_witness :
  exists st,
    deleteUsersAmplitude 3 ["u1"; "u2"; "u3"] "amp-key" no_attempts false []
      = Some (inr st) /\
    results st = map (failed "Retry exhausted") ["u1"; "u2"; "u3"] /\
    Forall (fun e => is_fetch e = false) (trace st).
Proof.
  apply (zero_attempts_marks_every_identifier
           3 ["u1"; "u2"; "u3"] "amp-key" no_attempts false).
  - discriminate.
  - repeat constructor; simpl; intuition discriminate.
  - simpl. lia.
  - simpl. lia.
  - reflexivity.
  - simpl. lia.
Defined.

(** X9. With a batch size of zero and at least one identifier the
    batch loop of the client never advances: whatever the schedule,
    the client does not return, and it issues no request, since no
    batch is scheduled before the loop ends. *)
Theorem zero_batch_size_never_returns
  (fuel : nat) (publicIds : list string) (apiKey : string)
  (options : AmplitudeOptions) (aborted0 : bool) (sched : list tick) :
  apiKey <> "" -> publicIds <> [] -> batchSize options = Some (Fin 0) ->
  split_batches fuel publicIds (Fin 0) = None /\
  deleteUsersAmplitude fuel publicIds apiKey options aborted0 sched = None.
Proof.
  intros Hk Hi Hb.
  assert (Sp : split_batches fuel publicIds (Fin 0) = None).
  { rewrite split_batches_slices, engine_slices_zero; [reflexivity|].
    destruct publicIds; [congruence|simpl; lia]. }
  split; [exact Sp|].
  unfold deleteUsersAmplitude. rewrite Hb.
  apply String.eqb_neq in Hk. now rewrite Hk, Sp.
Qed.

Lemma zero_batch_size_witness :
  split_batches 7 ["u1"; "u2"] (Fin 0) = None /\
  deleteUsersAmplitude 7 ["u1"; "u2"] "amp-key" batches_of_zero false
    [Resolve 0 (Response 200) 0%Q] = None.
Proof.
  apply (zero_batch_size_never_returns 7 ["u1"; "u2"] "amp-key"
           batches_of_zero false [Resolve 0 (Response 200) 0%Q]).
  - discriminate.
  - discriminate.
  - reflexivity.
Defined.

(** ** Coordinator: what the exit code and the report say *)

(** What the slices of a list add up to: the list, or nothing when
    the size is no number. *)
Lemma engine_slices_concat {A : Type} fuel (ids : list A) c slices :
  engine_slices fuel ids c (Fin 0) = Some slices ->
  concat (map snd slices) = if is_NaN c then [] else ids.
Proof.
  intros E. destruct (is_NaN c) eqn:N.
  - destruct c; try discriminate N.
    destruct fuel as [|fuel].
    + simpl in E. destruct (0 <? length ids); [discriminate|].
      now injection E as <-.
    + rewrite engine_slices_NaN in E. injection E as <-.
      now destruct (0 <? length ids).
  - now destruct (engine_slices_sound _ _ _ _ _ N E) as [HC _].
Qed.


(** The entries a client returns are those of the identifiers of its
    batches: of every identifier, or of none when the batch size is no
    number. *)
Lemma client_accounted fuel publicIds apiKey options aborted0 sched st :
  NoDup publicIds ->
  deleteUsersAmplitude fuel publicIds apiKey options aborted0 sched
    = Some (inr st) ->
  Permutation (map id (results st))
    (if is_NaN (match batchSize options with
                | Some c => c | None => Fin 300 end)
     then [] else publicIds).
Proof.
  intros ND. unfold deleteUsersAmplitude.
  destruct (String.eqb apiKey ""); [discriminate|].
  rewrite split_batches_slices.
  destruct (engine_slices fuel publicIds _ (Fin 0)) as [slices|] eqn:E;
    [|discriminate].
  simpl. destruct (_ =? 0); [discriminate|].
  destruct (run _ _ _ _ sched) as [st1|] eqn:R; [|discriminate].
  intros [= ->].
  pose proof (engine_slices_concat _ _ _ _ E) as HC.
  assert (NDc : NoDup (concat (map snd slices))).
  { rewrite HC. destruct (is_NaN _); [constructor|exact ND]. }
  destruct (start_accounted
              (match concurrentBatches options with
               | Some n => n | None => 4 end)
              (match maxAttempts options with
               | Some n => n | None => 5 end)
              apiKey (map snd slices) aborted0 NDc) as [A0 F0].
  destruct (run_accounted _ _ _ _ _ _ ltac:(now rewrite F0) A0 R)
    as (A & F & Fin).
  unfold accounted in A. rewrite A, ids_where_all.
  - now rewrite F, F0, HC.
  - intros t Ht. unfold all_finished in Fin.
    rewrite forallb_forall in Fin. now apply Fin.
Qed.

Lemma client_permutation fuel publicIds apiKey options aborted0 sched st :
  NoDup publicIds -> batchSize options <> Some NaN ->
  deleteUsersAmplitude fuel publicIds apiKey options aborted0 sched
    = Some (inr st) ->
  Permutation (map id (results st)) publicIds.
Proof.
  intros ND Hb C. pose proof (client_accounted _ _ _ _ _ _ _ ND C) as P.
  now rewrite (batch_size_number _ Hb) in P.
Qed.

Lemma dedupe_NoDup (xs : list string) : NoDup (Main.dedupe xs).
Proof.
  destruct (set_add_all_spec xs []) as (N & _ & _); [constructor|exact N].
Qed.


(** A run that does not exit with 1 went through the two stages, with
    no signal seen at either check. *)
Lemma main_completes fuel w out :
  Main.main fuel w = Some out -> Main.code out <> 1 ->
  exists key parsedIds dt st,
    Main.requireEnv "AMPLITUDE_KEY" (Main.AMPLITUDE_KEY w) = inr key /\
    Main.ids_json w = Main.Array parsedIds /\
    Main.signal_while_loading w = false /\
    Main.signal_during_db w = false /\
    Db.runGdprSqlWithTempTable (Main.store w) fuel
      {| Db.sqlPath := Main.or_else (Main.SQL_PATH w) "sql/gdpr-deletion.sql";
         Db.ids := Main.dedupe (map Main.js_String parsedIds);
         Db.chunkSize :=
           Some (match Main.DB_CHUNK_SIZE w with
                 | Some c => c | None => Infinity end);
         Db.statementTimeoutMs :=
           Some (match Main.DB_STMT_TIMEOUT_MS w with
                 | Some t => t | None => 300000%Z end) |}
      = Some (dt, inr tt) /\
    deleteUsersAmplitude fuel (Main.dedupe (map Main.js_String parsedIds))
      key
      {| batchSize := Some (match Main.AMP_BATCH_SIZE w with
                            | Some c => c | None => Fin 300 end);
         concurrentBatches := Some (match Main.AMP_CONCURRENCY w with
                                    | Some n => n | None => 4 end);
         maxAttempts := Some (match Main.AMP_MAX_ATTEMPTS w with
                              | Some n => n | None => 5 end) |}
      false (Main.schedule w) = Some (inr st) /\
    Main.db_trace out = dt /\ Main.amp_trace out = trace st /\
    Main.summary_txt out = Main.SummaryDone /\
    Main.code out
    = (if 0 <? length (filter (fun r => negb (ok r)) (results st))
       then 2 else 0) /\
    exists report,
      Main.report_json out = Some report /\
      Main.input report
      = {| Main.totalIds := length parsedIds;
           Main.uniqueIds :=
             length (Main.dedupe (map Main.js_String parsedIds)) |} /\
      Main.database report
      = {| Main.status := Main.DbSuccess; Main.error := None |} /\
      Main.amplitude report
      = {| Main.successful := length (filter ok (results st));
           Main.failed :=
             length (filter (fun r => negb (ok r)) (results st));
           Main.results := results st |}.
Proof.
  unfold Main.main.
  destruct (Main.requireEnv "DB_URL" (Main.DB_URL w));
    [intros [= <-] H; now destruct H|].
  destruct (Main.requireEnv "AMPLITUDE_KEY" (Main.AMPLITUDE_KEY w))
    as [|key]; [intros [= <-] H; now destruct H|].
  destruct (Main.ids_json w) as [e|e| |parsedIds];
    try (intros [= <-] H; now destruct H).
  destruct (length parsedIds =? 0); [intros [= <-] H; now destruct H|].
  cbn -[Db.runGdprSqlWithTempTable deleteUsersAmplitude].
  destruct (Main.signal_while_loading w);
    [intros [= <-] H; now destruct H|].
  destruct (Db.runGdprSqlWithTempTable _ _ _) as [[dt [e|[]]]|] eqn:R;
    [intros [= <-] H; now destruct H| |discriminate].
  destruct (Main.signal_during_db w);
    [intros [= <-] H; now destruct H|].
  destruct (deleteUsersAmplitude _ _ _ _ _ _) as [[e|st]|] eqn:C;
    [intros [= <-] H; now destruct H| |discriminate].
  intros [= <-] _. exists key, parsedIds, dt, st.
  repeat (split; [first [reflexivity|exact R|exact C]|]). eexists.
  repeat (split; [reflexivity|]). reflexivity.
Qed.


(** *** Runs on a disk *)









(** [DB_CHUNK_SIZE=abc]: the run exits with 0, the report says
    success for the database and for both identifiers at Amplitude,
    and the engine has committed one transaction in which nothing was
    staged. *)
Example exit_0_with_nothing_committed :
  let out := remains_of (Main.program writable 2 chunk_size_abc) in
  Main.program writable 2 chunk_size_abc = Some out /\
  Main.exit_code out = 0 /\
  Db.committed (Main.db_calls out) [] = [[]] /\
  option_map (fun r => (Main.status (Main.database r),
                        Main.successful (Main.amplitude r),
                        Main.failed (Main.amplitude r)))
    (Main.report_file out)
  = Some (Main.DbSuccess, 2, 0).
Proof. repeat split. Qed.

(** The paths of [main] that end in an exit with 1. *)
Ltac fatal_path :=
  intros [= <-] _; simpl;
  split; [reflexivity|]; split; [discriminate|];
  intros report Hr;
  first [ discriminate Hr
        | injection Hr as <-; simpl;
          split; [reflexivity|]; split; [auto|]; auto ].

(** A run that exits with 1 stopped before the client issued
    anything; the report it leaves, if any, holds no outcome. *)
Lemma main_fatal fuel w out :
  Main.main fuel w = Some out -> Main.code out = 1 ->
  Main.amp_trace out = [] /\
  Main.summary_txt out <> Main.SummaryDone /\
  forall report,
    Main.report_json out = Some report ->
    Main.amplitude report
    = {| Main.successful := 0; Main.failed := 0; Main.results := [] |} /\
    Main.uniqueIds (Main.input report)
      <= Main.totalIds (Main.input report) /\
    (Main.db_trace out = [] ->
     Main.database report
     = {| Main.status := Main.DbSuccess; Main.error := None |}).
Proof.
  unfold Main.main.
  destruct (Main.requireEnv "DB_URL" (Main.DB_URL w)); [fatal_path|].
  destruct (Main.requireEnv "AMPLITUDE_KEY" (Main.AMPLITUDE_KEY w))
    as [|key]; [fatal_path|].
  destruct (Main.ids_json w) as [e|e| |parsedIds]; try fatal_path.
  destruct (length parsedIds =? 0); [fatal_path|].
  cbn -[Db.runGdprSqlWithTempTable deleteUsersAmplitude].
  assert (L : length (Main.dedupe (map Main.js_String parsedIds))
              <= length parsedIds).
  { destruct (set_add_all_spec (map Main.js_String parsedIds) [])
      as (_ & _ & L); [constructor|].
    rewrite length_map in L. exact L. }
  destruct (Main.signal_while_loading w); [fatal_path|].
  destruct (Db.runGdprSqlWithTempTable _ _ _) as [[dt [e|[]]]|] eqn:R;
    [| |discriminate].
  - fatal_path.
    intros ->. unfold Db.runGdprSqlWithTempTable in R.
    destruct (Db.chunk_loop _ _ _ _ _ _) as [[t1 r1]|]; [|discriminate].
    destruct r1; discriminate.
  - assert (Hdt : dt <> []).
    { destruct (engine_return_trace _ _ _ _ _ R) as (sl & _ & ->).
      discriminate. }
    destruct (Main.signal_during_db w); [fatal_path; tauto|].
    destruct (deleteUsersAmplitude _ _ _ _ _ _) as [[e|st]|] eqn:C;
      [fatal_path; tauto| |discriminate].
    intros [= <-]. cbn [Main.code].
    match goal with
    | |- context [if ?b then _ else _] => destruct b
    end; discriminate.
Qed.




(** Scenario C on a disk that refuses the summary: the report, with
    its two failures, is written, and the exit code is 1. *)
Example refused_summary_exits_1 :
  let out := remains_of (Main.program summary_refused 4 scenario_C) in
  Main.program summary_refused 4 scenario_C = Some out /\
  Main.exit_code out = 1 /\
  option_map (fun r => Main.failed (Main.amplitude r)) (Main.report_file out)
  = Some 2 /\
  Main.summary_file out
  = Some (Main.SummaryFatal "ENOSPC: no space left on device, write") /\
  fetches 0 (Main.amp_calls out) = 1 /\ fetches 1 (Main.amp_calls out) = 1.
Proof. repeat split. Qed.



(** A run in which every identifier is deleted in both places, on a
    disk that refuses the report: the exit code is 1 after two
    requests were posted and answered, no report is left, and the
    summary is the one of the handler. *)
Example refused_report_exits_1_after_requests :
  let out := remains_of (Main.program disk_full 3 clean_run) in
  Main.program disk_full 3 clean_run = Some out /\
  Main.exit_code out = 1 /\
  Main.report_file out = None /\ Main.summary_file out = None /\
  concat (Db.committed (Main.db_calls out) []) = ["u1"; "u2"] /\
  fetches 0 (Main.amp_calls out) = 1 /\ fetches 1 (Main.amp_calls out) = 1.
Proof. repeat split. Qed.

(** X13. A run in which the engine was never started (the input
    could not be used, or a signal was seen before the database step)
    exits with 1 without any request to Amplitude, and the report it
    writes still gives the database status as "success", with no
    error. *)
Theorem report_says_success_when_engine_never_ran
  (fuel : nat) (w : Main.world) (out : Main.exit) :
  Main.main fuel w = Some out -> Main.db_trace out = [] ->
  Main.code out = 1 /\ Main.amp_trace out = [] /\
  forall report,
    Main.report_json out = Some report ->
    Main.database report
    = {| Main.status := Main.DbSuccess; Main.error := None |} /\
    Main.results (Main.amplitude report) = [].
Proof.
  intros Hm Hd.
  assert (Hc : Main.code out = 1).
  { destruct (Nat.eq_dec (Main.code out) 1) as [E|Ne]; [exact E|].
    destruct (main_completes _ _ _ Hm Ne)
      as (key & parsedIds & dt & st & _ & _ & _ & _ & R & _ & Dt & _).
    destruct (engine_return_trace _ _ _ _ _ R) as (sl & _ & Tr).
    rewrite Hd in Dt. rewrite <- Dt in Tr. discriminate. }
  destruct (main_fatal _ _ _ Hm Hc) as (At & _ & Hrep).
  split; [exact Hc|]. split; [exact At|].
  intros report Hr. destruct (Hrep _ Hr) as (Amp & _ & Db).
  split; [exact (Db Hd)|]. now rewrite Amp.
Qed.

Lemma report_says_success_witness :
  let out := exit_of (Main.main 0 not_an_array) in
  Main.code out = 1 /\ Main.amp_trace out = [] /\
  exists report,
    Main.report_json out = Some report /\
    Main.database report
    = {| Main.status := Main.DbSuccess; Main.error := None |} /\
    Main.results (Main.amplitude report) = [].
Proof.
  intros out.
  destruct (report_says_success_when_engine_never_ran 0 not_an_array out)
    as (Hc & At & Hrep); [reflexivity..|].
  split; [exact Hc|]. split; [exact At|].
  eexists. split; [reflexivity|]. apply Hrep. reflexivity.
Defined.

(** X14. When DB_URL or AMPLITUDE_KEY is unset or empty, the run
    stops before it reads the input: for every fuel it ends, with exit
    code 1, no report, no call to the database and no request to
    Amplitude, and a summary that names the variable missing, DB_URL
    when both are. *)
Theorem missing_credentials_stop_the_run
  (fuel : nat) (w : Main.world) :
  (forall s, Main.DB_URL w = Some s -> s = "") \/
  (forall s, Main.AMPLITUDE_KEY w = Some s -> s = "") ->
  exists out name,
    Main.main fuel w = Some out /\
    Main.code out = 1 /\ Main.report_json out = None /\
    Main.db_trace out = [] /\ Main.amp_trace out = [] /\
    Main.summary_txt out
    = Main.SummaryFatal
        ("Missing required environment variable: " ++ name)%string /\
    (name = "DB_URL" \/
     name = "AMPLITUDE_KEY" /\
     exists s, Main.DB_URL w = Some s /\ s <> "").
Proof.
  intros H. unfold Main.main, Main.requireEnv.
  destruct (Main.DB_URL w) as [u|] eqn:U.
  - destruct (String.eqb u "") eqn:Eu.
    + eexists _, "DB_URL". repeat split; auto.
    + assert (Hu : u <> "") by now apply String.eqb_neq.
      destruct H as [H|H]; [destruct (Hu (H u eq_refl))|].
      destruct (Main.AMPLITUDE_KEY w) as [k|].
      * rewrite (H k eq_refl). simpl.
        eexists _, "AMPLITUDE_KEY". repeat split; eauto.
      * eexists _, "AMPLITUDE_KEY". repeat split; eauto.
  - eexists _, "DB_URL". repeat split; auto.
Qed.

Lemma missing_credentials_witness :
  exists out name,
    Main.main 0 no_credentials = Some out /\
    Main.code out = 1 /\ Main.report_json out = None /\
    Main.db_trace out = [] /\ Main.amp_trace out = [] /\
    Main.summary_txt out
    = Main.SummaryFatal
        ("Missing required environment variable: " ++ name)%string /\
    (name = "DB_URL" \/
     name = "AMPLITUDE_KEY" /\
     exists s, Main.DB_URL no_credentials = Some s /\ s <> "").
Proof.
  apply (missing_credentials_stop_the_run 0 no_credentials).
  left. discriminate.
Defined.

(** ** Backoff: the default schedule *)



(** ** Coordinator: removing the repeats *)

Lemma set_add_all_fresh : forall l seen,
  NoDup (seen ++ l) -> Main.set_add_all l seen = seen ++ l.
Proof.
  induction l as [|a l IH]; intros seen ND; simpl.
  - now rewrite app_nil_r.
  - assert (E : existsb (String.eqb a) seen = false).
    { apply not_true_is_false. intros E. apply existsb_eqb_In in E.
      apply NoDup_remove_2 in ND. apply ND.
      apply in_or_app. now left. }
    rewrite E, IH; rewrite <- app_assoc; [reflexivity|exact ND].
Qed.

Lemma main_input fuel w out report parsedIds :
  Main.main fuel w = Some out -> Main.report_json out = Some report ->
  Main.ids_json w = Main.Array parsedIds ->
  Main.input report = {| Main.totalIds := 0; Main.uniqueIds := 0 |} /\
  parsedIds = [] \/
  Main.input report
  = {| Main.totalIds := length parsedIds;
       Main.uniqueIds :=
         length (Main.dedupe (map Main.js_String parsedIds)) |}.
Proof.
  intros Hm Hr Hin. revert Hm Hr. unfold Main.main. rewrite Hin.
  destruct (Main.requireEnv "DB_URL" (Main.DB_URL w));
    [intros [= <-]; discriminate|].
  destruct (Main.requireEnv "AMPLITUDE_KEY" (Main.AMPLITUDE_KEY w));
    [intros [= <-]; discriminate|].
  destruct parsedIds as [|p parsedIds];
    [intros [= <-] [= <-]; left; auto|].
  cbn -[Db.runGdprSqlWithTempTable Amplitude.deleteUsersAmplitude
        Main.dedupe map length].
  destruct (Main.signal_while_loading w);
    [intros [= <-] [= <-]; right; reflexivity|].
  destruct (Db.runGdprSqlWithTempTable _ _ _) as [[dt [e|[]]]|];
    [intros [= <-] [= <-]; right; reflexivity| |discriminate].
  destruct (Main.signal_during_db w);
    [intros [= <-] [= <-]; right; reflexivity|].
  destruct (Amplitude.deleteUsersAmplitude _ _ _ _ _ _) as [[e|st]|];
    [intros [= <-] [= <-]; right; reflexivity| |discriminate].
  intros [= <-] [= <-]. right. reflexivity.
Qed.

(** X16. The coordinator's deduplication leaves a list without
    repeats as it is and changes every other list, so applying it twice
    is applying it once; it shortens the list exactly when two elements
    have the same string form.  Hence in every report written for an
    input array the count of unique identifiers equals the count of
    identifiers read if and only if no two elements of the array have
    the same [String(...)], the number 1 and the string "1" being the
    same identifier. *)
Theorem dedupe_changes_only_lists_with_repeats
  (xs : list string) :
  (Main.dedupe xs = xs <-> NoDup xs) /\
  (length (Main.dedupe xs) = length xs <-> NoDup xs) /\
  Main.dedupe (Main.dedupe xs) = Main.dedupe xs /\
  Main.dedupe (map Main.js_String [Main.JNumber 1; Main.JString "1"])
  = ["1"] /\
  (forall fuel w out report parsedIds,
      Main.main fuel w = Some out ->
      Main.report_json out = Some report ->
      Main.ids_json w = Main.Array parsedIds ->
      xs = map Main.js_String parsedIds ->
      (Main.uniqueIds (Main.input report)
       = Main.totalIds (Main.input report) <-> NoDup xs)).
Proof.
  pose proof (dedupe_NoDup xs) as ND.
  assert (Fresh : NoDup xs -> Main.dedupe xs = xs)
    by (intros H; now apply (set_add_all_fresh xs [])).
  assert (Len : length (Main.dedupe xs) = length xs <-> NoDup xs).
  { split; [|intros H; now rewrite Fresh].
    intros L. apply NoDup_incl_NoDup with (l := Main.dedupe xs);
      [exact ND|lia|].
    intros x Hx.
    destruct (set_add_all_spec xs []) as (_ & I & _); [constructor|].
    apply I in Hx as [[]|Hx]. exact Hx. }
  split; [|split; [|split; [|split]]].
  - split; [intros E; now rewrite <- E|exact Fresh].
  - exact Len.
  - now apply (set_add_all_fresh (Main.dedupe xs) []).
  - reflexivity.
  - intros fuel w out report parsedIds Hm Hr Hin ->.
    destruct (main_input _ _ _ _ _ Hm Hr Hin) as [[-> ->]| ->]; simpl.
    + split; [constructor|reflexivity].
    + rewrite <- Len, length_map. reflexivity.
Qed.

(** ** Client: the attempts of a batch, numbered *)

Lemma attempts_of_app (t1 t2 : list event) :
  attempts_of (t1 ++ t2) = attempts_of t1 ++ attempts_of t2.
Proof.
  induction t1 as [|e t1 IH]; [reflexivity|].
  destruct e; simpl; rewrite ?IH; reflexivity.
Qed.

Section ClientNumbering.

Variables (concurrency maxAttempts : nat) (apiKey : string).

Lemma first_attempts idx c :
  attempts_inv maxAttempts (first_phase maxAttempts)
    (Start idx :: first_events maxAttempts apiKey idx c).
Proof.
  unfold first_phase, first_events.
  destruct (0 <? maxAttempts) eqn:L.
  - apply Nat.ltb_lt in L. exists 1. simpl. auto.
  - exists 0. simpl. split; [reflexivity|lia].
Qed.

Lemma iterate_attempts idx c a res p res' ev evs :
  iterate maxAttempts apiKey idx c (S a) res = (p, res', ev) ->
  attempts_of evs = seq 0 (S a) -> a < maxAttempts ->
  attempts_inv maxAttempts p (evs ++ ev).
Proof.
  unfold iterate. intros I E La.
  destruct (S a <? maxAttempts) eqn:L; injection I as <- <- <-.
  - apply Nat.ltb_lt in L. exists (S (S a)).
    rewrite attempts_of_app, E. cbn [attempts_of].
    split; [|auto].
    change (seq 0 (S a) ++ [S a]) with (seq 0 (S a) ++ [0 + S a]).
    now rewrite <- seq_S.
  - exists (S a). rewrite attempts_of_app, E. cbn [attempts_of].
    rewrite app_nil_r. apply Nat.ltb_ge in L. split; [reflexivity|lia].
Qed.

Lemma resume_attempts idx c p r rnd res p' res' ev evs :
  attempts_inv maxAttempts p evs ->
  resume maxAttempts apiKey idx c p r rnd res = Some (p', res', ev) ->
  attempts_inv maxAttempts p' (evs ++ Settled idx r :: ev).
Proof.
  intros (n & E & Hp) R.
  assert (Keep : forall q,
            match q with
            | Queued => False
            | AwaitFetch a | AwaitText a _ | AwaitSleep a =>
                n = S a /\ a < maxAttempts
            | Finished => n <= maxAttempts
            end ->
            forall ev0, attempts_of ev0 = [] ->
            attempts_inv maxAttempts q (evs ++ Settled idx r :: ev0)).
  { intros q Hq ev0 E0. exists n. rewrite attempts_of_app.
    cbn [attempts_of]. rewrite E0, app_nil_r. split; [exact E|].
    destruct q; tauto. }
  assert (Next : forall a,
            n = S a -> a < maxAttempts ->
            iterate maxAttempts apiKey idx c (S a) res = (p', res', ev) \/
            (exists res0,
               iterate maxAttempts apiKey idx c (S a) res0
               = (p', res', ev)) ->
            attempts_inv maxAttempts p' (evs ++ Settled idx r :: ev)).
  { intros a Hn La I.
    assert (E1 : attempts_of (evs ++ [Settled idx r]) = seq 0 (S a))
      by (rewrite attempts_of_app; cbn [attempts_of]; rewrite app_nil_r;
          congruence).
    change (evs ++ Settled idx r :: ev)
      with (evs ++ [Settled idx r] ++ ev).
    rewrite app_assoc.
    destruct I as [I|[res0 I]]; eapply iterate_attempts; eauto. }
  destruct p as [|a|a s|a|], r as [status|err|body|err|];
    simpl in R; try discriminate; destruct Hp as [Hn La].
  - destruct (res_ok status); [|destruct (status <? 500)];
      injection R as <- <- <-; apply Keep; simpl; auto; lia.
  - injection R as R. unfold on_error in R.
    destruct (a + 1 =? maxAttempts).
    + eapply Next; eauto.
    + injection R as <- <- <-. apply Keep; simpl; auto.
  - injection R as <- <- <-. apply Keep; simpl; auto; lia.
  - injection R as R. unfold on_error in R.
    destruct (a + 1 =? maxAttempts).
    + eapply Next; eauto.
    + injection R as <- <- <-. apply Keep; simpl; auto.
  - injection R as R. eapply Next; eauto.
Qed.

Lemma step_attempts st tk st' :
  (forall idx c p, nth_error (tasks st) idx = Some (c, p) ->
     attempts_inv maxAttempts p (proj idx (trace st))) ->
  step concurrency maxAttempts apiKey st tk = Some st' ->
  forall idx c p, nth_error (tasks st') idx = Some (c, p) ->
    attempts_inv maxAttempts p (proj idx (trace st')).
Proof.
  intros Inv S1.
  pose proof (step_length _ _ _ _ _ _ S1) as Len.
  destruct tk as [i r rnd|].
  - destruct (step_frame _ _ _ _ _ _ _ _ S1)
      as (c & p & p' & res1 & ev & N & R & N' & Pi & Others & _).
    intros idx c0 p0 H.
    destruct (Nat.eq_dec idx i) as [->|Ne].
    + rewrite N' in H. injection H as <- <-. rewrite Pi.
      eapply resume_attempts; eauto.
    + assert (Hlt : idx < length (tasks st))
        by (rewrite <- Len; apply nth_error_Some; congruence).
      destruct (nth_error (tasks st) idx) as [[c1 q]|] eqn:N1;
        [|apply nth_error_None in N1; lia].
      destruct (Others idx c1 q Ne N1) as [[H1 H2]|(-> & H1 & H2)];
        rewrite H1 in H; injection H as <- <-; rewrite H2.
      * eapply Inv; eauto.
      * destruct (Inv _ _ _ N1) as (n & E & ->).
        destruct (first_attempts idx c1) as (m & E' & Hm).
        exists m. rewrite attempts_of_app, E, E'. split; [reflexivity|].
        exact Hm.
  - apply step_signal in S1 as (T & _ & Tr & _).
    intros idx c0 p0 H. rewrite T in H. rewrite Tr, proj_app. simpl.
    rewrite app_nil_r. eapply Inv; eauto.
Qed.

End ClientNumbering.

Lemma start_attempts concurrency maxAttempts apiKey chunks aborted0 :
  forall idx c p,
    nth_error (tasks (start concurrency maxAttempts apiKey chunks aborted0))
      idx = Some (c, p) ->
    attempts_inv maxAttempts p
      (proj idx
         (trace (start concurrency maxAttempts apiKey chunks aborted0))).
Proof.
  unfold start.
  destruct (dequeue _ _ _ 0 0 _ []) as [[ts res] ev] eqn:D.
  intros idx c p Hn. simpl in *.
  destruct (dequeue_frame _ _ _ _ _ _ _ _ _ _ D) as [_ Fr].
  destruct (dequeue_length _ _ _ _ _ _ _ _ _ _ D) as [L _].
  assert (Hlt : idx < length ts) by (apply nth_error_Some; congruence).
  rewrite length_map in L.
  destruct (nth_error (map (fun c0 : list string => (c0, Queued)) chunks)
              idx) as [[c0 q0]|] eqn:N0;
    [|apply nth_error_None in N0; rewrite length_map in N0; lia].
  assert (q0 = Queued) as ->.
  { apply nth_error_In, in_map_iff in N0 as (x & [= _ <-] & _).
    reflexivity. }
  destruct (Fr idx c0 Queued N0) as [[H1 H2]|(_ & H1 & H2)];
    simpl in H2; rewrite H1 in Hn; injection Hn as <- <-; rewrite H2.
  - exists 0. split; reflexivity.
  - apply first_attempts.
Qed.

Lemma attempts_of_length (evs : list event) :
  length (attempts_of evs) = length (filter is_fetch evs).
Proof.
  induction evs as [|e evs IH]; [reflexivity|].
  destruct e; simpl; rewrite ?IH; reflexivity.
Qed.

(** X17. At every turn of every run, the requests issued so far for
    a batch are those of attempts 0, 1, ..., n - 1 in this order, each
    attempt requested once, and n is at most [maxAttempts]: no batch is
    ever posted more than [maxAttempts] times. *)
Theorem requests_of_a_batch_are_numbered
  (concurrency maxAttempts : nat) (apiKey : string)
  (chunks : list (list string)) (aborted0 : bool) (sched : list tick)
  (st : state) (idx : nat) (c : list string) (p : phase) :
  follow concurrency maxAttempts apiKey
    (start concurrency maxAttempts apiKey chunks aborted0) sched = Some st ->
  nth_error (tasks st) idx = Some (c, p) ->
  exists n,
    n <= maxAttempts /\
    attempts_of (proj idx (trace st)) = seq 0 n /\
    fetches idx (trace st) = n.
Proof.
  intros F N.
  assert (Inv : forall idx c p,
             nth_error (tasks st) idx = Some (c, p) ->
             attempts_inv maxAttempts p (proj idx (trace st))).
  { apply (follow_preserves concurrency maxAttempts apiKey
             (fun s => forall idx c p,
                  nth_error (tasks s) idx = Some (c, p) ->
                  attempts_inv maxAttempts p (proj idx (trace s)))
             (step_attempts concurrency maxAttempts apiKey) _ _ _
             (start_attempts _ _ _ _ _) F). }
  destruct (Inv _ _ _ N) as (n & E & Hp). exists n.
  split; [destruct p; lia|]. split; [exact E|].
  unfold fetches. now rewrite <- attempts_of_length, E, length_seq.
Qed.

Lemma requests_numbered_witness :
  let st :=
    reached (follow 1 2 "amp-key" (start 1 2 "amp-key" [["u1"]] false)
               [Resolve 0 (Response 503) 0%Q; Resolve 0 Elapsed 0%Q;
                Resolve 0 (Response 200) 0%Q]) in
  exists n,
    n <= 2 /\ attempts_of (proj 0 (trace st)) = seq 0 n /\
    fetches 0 (trace st) = n.
Proof.
  intros st.
  apply (requests_of_a_batch_are_numbered 1 2 "amp-key" [["u1"]] false
           [Resolve 0 (Response 503) 0%Q; Resolve 0 Elapsed 0%Q;
            Resolve 0 (Response 200) 0%Q] st 0 ["u1"] Finished);
    vm_compute; reflexivity.
Defined.

(** ** Coordinator: a run that succeeds *)

Section ClientSuccess.

Variables (concurrency maxAttempts : nat) (apiKey : string).
Hypothesis attempts_allowed : 0 < maxAttempts.

Lemma step_on_track st i c p st' :
  on_track st ->
  nth_error (tasks st) i = Some (c, p) -> is_active p = true ->
  step concurrency maxAttempts apiKey st (Resolve i (Response 200) 0%Q)
    = Some st' ->
  on_track st'.
Proof.
  intros [Ph Ok] N A S1.
  pose proof (step_length _ _ _ _ _ _ S1) as Len.
  destruct (step_frame _ _ _ _ _ _ _ _ S1)
    as (c0 & p0 & p' & res1 & ev & N0 & R & N' & _ & Others & _).
  rewrite N in N0. injection N0 as <- <-.
  pose proof (step_results _ _ _ _ _ _ _ _ _ _ _ _ _ S1 N R
                attempts_allowed) as Res.
  pose proof (Ph _ _ _ N) as Hp.
  destruct p as [|a|a s|a|]; try discriminate; try contradiction.
  simpl in R. injection R as <- <- <-.
  split.
  - intros idx c1 p1 H.
    destruct (Nat.eq_dec idx i) as [->|Ne].
    + rewrite N' in H. now injection H as <- <-.
    + assert (Hlt : idx < length (tasks st))
        by (rewrite <- Len; apply nth_error_Some; congruence).
      destruct (nth_error (tasks st) idx) as [[c2 q]|] eqn:N1;
        [|apply nth_error_None in N1; lia].
      destruct (Others idx c2 q Ne N1) as [[H1 _]|(_ & H1 & _)];
        rewrite H1 in H; injection H as <- <-.
      * exact (Ph _ _ _ N1).
      * unfold first_phase. now destruct (0 <? maxAttempts).
  - rewrite Res. unfold push_all. apply Forall_app. split; [exact Ok|].
    apply Forall_forall. intros r Hr.
    apply in_map_iff in Hr as (x & <- & _). reflexivity.
Qed.

Lemma run_can_succeed : forall n st,
  1 <= concurrency -> saturated concurrency (tasks st) ->
  total_weight (tasks st) <= n -> on_track st ->
  exists sched st',
    run concurrency maxAttempts apiKey st sched = Some st' /\
    Forall answers_200 sched /\ on_track st'.
Proof.
  induction n as [|n IH]; intros st Hc Sat Hw Tr.
  - exists [], st. split; [|split; [constructor|exact Tr]]. simpl.
    destruct (all_finished st) eqn:F; [reflexivity|].
    destruct (some_batch_active _ _ Hc Sat F) as (i & c & p & N & A).
    destruct (step_favourable concurrency maxAttempts apiKey st i c p N A)
      as (st' & _ & W). lia.
  - destruct (all_finished st) eqn:F.
    + exists [], st.
      split; [simpl; now rewrite F|split; [constructor|exact Tr]].
    + destruct (some_batch_active _ _ Hc Sat F) as (i & c & p & N & A).
      destruct (step_favourable concurrency maxAttempts apiKey st i c p N A)
        as (st1 & S & W).
      assert (Fav : favourable p = Response 200).
      { destruct Tr as [Ph _]. specialize (Ph _ _ _ N).
        destruct p; try discriminate; try contradiction; reflexivity. }
      rewrite Fav in S.
      destruct (IH st1 Hc (step_saturated _ _ _ _ _ _ Sat S) ltac:(lia)
                  (step_on_track _ _ _ _ _ Tr N A S))
        as (sched & st' & R & Ok & Tr').
      exists (Resolve i (Response 200) 0%Q :: sched), st'. split.
      * simpl. simpl in S. rewrite F, S. exact R.
      * split; [constructor; [exact I|exact Ok]|exact Tr'].
Qed.

Lemma start_on_track chunks aborted0 :
  on_track (start concurrency maxAttempts apiKey chunks aborted0).
Proof.
  split.
  - intros idx c p H.
    apply start_queued_or_first in H as [->| ->]; [exact I|].
    unfold first_phase. now destruct (0 <? maxAttempts).
  - unfold start.
    destruct (dequeue _ _ _ 0 0 _ []) as [[ts res] ev] eqn:D. simpl.
    apply dequeue_grows in D as [_ D]. rewrite (D attempts_allowed).
    constructor.
Qed.

End ClientSuccess.

Lemma client_can_succeed fuel publicIds apiKey options aborted0 :
  apiKey <> "" ->
  positive (match batchSize options with
            | Some c => c | None => Fin 300 end) ->
  1 <= match concurrentBatches options with Some n => n | None => 4 end ->
  1 <= match maxAttempts options with Some n => n | None => 5 end ->
  length publicIds <= fuel ->
  exists sched st,
    Forall answers_200 sched /\
    deleteUsersAmplitude fuel publicIds apiKey options aborted0 sched
      = Some (inr st) /\
    Forall (fun r => ok r = true) (results st).
Proof.
  intros Hk Hb Hc Hm Hf. unfold deleteUsersAmplitude.
  destruct (String.eqb_spec apiKey ""); [contradiction|].
  rewrite split_batches_slices.
  destruct (engine_slices_total fuel publicIds
              (match batchSize options with
               | Some c => c | None => Fin 300 end) 0 Hb)
    as [slices ->]; [lia|].
  simpl.
  destruct (Nat.eqb_spec
              (match concurrentBatches options with
               | Some n => n | None => 4 end) 0) as [E|_]; [lia|].
  set (limit := match concurrentBatches options with
                | Some n => n | None => 4 end) in *.
  set (attempts := match maxAttempts options with
                   | Some n => n | None => 5 end) in *.
  set (st0 := start limit attempts apiKey (map snd slices) aborted0).
  destruct (run_can_succeed limit attempts apiKey Hm
              (total_weight (tasks st0)) st0 Hc
              (start_saturated limit attempts apiKey (map snd slices)
                 aborted0)
              (Nat.le_refl _)
              (start_on_track limit attempts apiKey Hm _ _))
    as (sched & st & R & Ok & [_ Tr]).
  exists sched, st. split; [exact Ok|]. rewrite R. split; [reflexivity|].
  exact Tr.
Qed.

Lemma engine_returns_when_sound oracle fuel options :
  positive (match Db.chunkSize options with
            | Some c => c | None => Infinity end) ->
  length (Db.ids options) <= fuel ->
  (forall k, chunk_passes oracle k) ->
  exists t, Db.runGdprSqlWithTempTable oracle fuel options
            = Some (t, inr tt).
Proof.
  intros Hc Hf Hp. unfold Db.runGdprSqlWithTempTable.
  destruct (engine_slices_total fuel (Db.ids options) _ 0 Hc)
    as [slices E]; [lia|].
  rewrite (chunk_loop_run_slices oracle _ _ _ _ 0 _ E).
  rewrite run_slices_all_pass by (intros j _; apply Hp).
  simpl. eauto.
Qed.

(** X23. The job can succeed.  With both credentials set, a
    non-empty input array, no signal, a store in which no call fails,
    a chunk size, a batch size, a concurrency and a number of attempts
    of at least 1 (or unset), and as many loop iterations allowed as
    there are identifiers, there is a schedule, in which every request
    is answered with status 200, under which the run ends with exit
    code 0, every unique identifier having been committed by the
    engine. *)
Theorem job_can_succeed
  (fuel : nat) (w : Main.world) (parsedIds : list Main.jsval) :
  (exists u, Main.DB_URL w = Some u /\ u <> "") ->
  (exists k, Main.AMPLITUDE_KEY w = Some k /\ k <> "") ->
  Main.ids_json w = Main.Array parsedIds -> parsedIds <> [] ->
  Main.signal_while_loading w = false ->
  Main.signal_during_db w = false ->
  (forall k, chunk_passes (Main.store w) k) ->
  (forall c, Main.DB_CHUNK_SIZE w = Some c -> positive c) ->
  (forall c, Main.AMP_BATCH_SIZE w = Some c -> positive c) ->
  (forall n, Main.AMP_CONCURRENCY w = Some n -> 1 <= n) ->
  (forall n, Main.AMP_MAX_ATTEMPTS w = Some n -> 1 <= n) ->
  length parsedIds <= fuel ->
  exists sched out,
    Forall answers_200 sched /\
    Main.main fuel (with_schedule w sched) = Some out /\
    Main.code out = 0 /\
    concat (Db.committed (Main.db_trace out) [])
    = Main.dedupe (map Main.js_String parsedIds).
Proof.
  intros (u & Hu & Une) (k & Hk & Kne) Hin Hne S1 S2 Hp Hc Hb Hl Hm Hf.
  assert (L : length (Main.dedupe (map Main.js_String parsedIds))
              <= fuel).
  { destruct (set_add_all_spec (map Main.js_String parsedIds) [])
      as (_ & _ & L); [constructor|].
    rewrite length_map in L. unfold Main.dedupe. simpl in L. lia. }
  destruct (engine_returns_when_sound (Main.store w) fuel
              {| Db.sqlPath :=
                   Main.or_else (Main.SQL_PATH w) "sql/gdpr-deletion.sql";
                 Db.ids := Main.dedupe (map Main.js_String parsedIds);
                 Db.chunkSize :=
                   Some (match Main.DB_CHUNK_SIZE w with
                         | Some c => c | None => Infinity end);
                 Db.statementTimeoutMs :=
                   Some (match Main.DB_STMT_TIMEOUT_MS w with
                         | Some t => t | None => 300000%Z end) |})
    as [dt R]; [|exact L|exact Hp|].
  { simpl. destruct (Main.DB_CHUNK_SIZE w) as [c|] eqn:E;
      [now apply Hc|exact I]. }
  destruct (client_can_succeed fuel
              (Main.dedupe (map Main.js_String parsedIds)) k
              {| batchSize := Some (match Main.AMP_BATCH_SIZE w with
                                    | Some c => c | None => Fin 300 end);
                 concurrentBatches :=
                   Some (match Main.AMP_CONCURRENCY w with
                         | Some n => n | None => 4 end);
                 maxAttempts := Some (match Main.AMP_MAX_ATTEMPTS w with
                                      | Some n => n | None => 5 end) |}
              false Kne)
    as (sched & st & Ok & C & AllOk); [| | |exact L|].
  { simpl. destruct (Main.AMP_BATCH_SIZE w) eqn:E;
      [now apply Hb|simpl; lia]. }
  { simpl. destruct (Main.AMP_CONCURRENCY w) eqn:E; [now apply Hl|lia]. }
  { simpl. destruct (Main.AMP_MAX_ATTEMPTS w) eqn:E; [now apply Hm|lia]. }
  exists sched. unfold Main.main, Main.requireEnv.
  cbn [with_schedule Main.DB_URL Main.AMPLITUDE_KEY Main.REQUEST_ID
       Main.REQUESTED_BY Main.DRY_RUN Main.SQL_PATH Main.DB_CHUNK_SIZE
       Main.DB_STMT_TIMEOUT_MS Main.AMP_BATCH_SIZE Main.AMP_CONCURRENCY
       Main.AMP_MAX_ATTEMPTS Main.randomUUID Main.ids_json Main.store
       Main.signal_while_loading Main.signal_during_db Main.schedule].
  rewrite Hu, Hk, Hin, S1.
  apply String.eqb_neq in Une, Kne. rewrite Une, Kne.
  destruct parsedIds as [|p0 rest]; [congruence|].
  cbn [length Nat.eqb orb].
  cbn -[Db.runGdprSqlWithTempTable deleteUsersAmplitude Main.dedupe map
        length filter].
  rewrite R, S2. cbn [orb]. rewrite C.
  assert (Z : filter (fun r => negb (ok r)) (results st) = []).
  { clear -AllOk. induction AllOk as [|r l Hr _ IH]; [reflexivity|].
    simpl. now rewrite Hr. }
  eexists. split; [exact Ok|]. split; [reflexivity|].
  cbn [Main.code Main.failed Main.amplitude Main.set_amplitude
       Main.db_trace].
  rewrite Z. split; [reflexivity|].
  apply (engine_return_committed _ _ _ _ _ R). cbn [Db.chunkSize].
  intros [= E]. destruct (Main.DB_CHUNK_SIZE w) as [c|] eqn:Ec;
    [|discriminate E].
  subst c. exact (Hc NaN eq_refl).
Qed.

Lemma job_can_succeed_witness :
  exists sched out,
    Forall answers_200 sched /\
    Main.main 3 (with_schedule clean_run sched) = Some out /\
    Main.code out = 0 /\
    concat (Db.committed (Main.db_trace out) [])
    = Main.dedupe (map Main.js_String
                     [Main.JString "u1"; Main.JString "u2";
                      Main.JString "u1"]).
Proof.
  apply (job_can_succeed 3 clean_run
           [Main.JString "u1"; Main.JString "u2"; Main.JString "u1"]).
  - eexists. split; [reflexivity|discriminate].
  - eexists. split; [reflexivity|discriminate].
  - reflexivity.
  - discriminate.
  - reflexivity.
  - reflexivity.
  - intros k s _. reflexivity.
  - intros c [= <-]. simpl. lia.
  - intros c [= <-]. simpl. lia.
  - intros n H. discriminate H.
  - intros n H. discriminate H.
  - simpl. lia.
Defined.

(* ================================================================== *)
(** * The per-user deletion script *)

(** Every way the calls of [DatabaseService.deleteUser] can go, call
    after call in the order of the program. *)
Ltac script_query w k s :=
  try match goal with
      | |- context [Script.query w k s] =>
          destruct (Script.query w k s) as [?|?] eqn:?; cbn
      end.

Ltac script_row_count w k :=
  try match goal with
      | |- context [Script.query w k Script.SelectUser] =>
          destruct (Script.query w k Script.SelectUser) as [?|[|?]] eqn:?;
          cbn
      end.

Ltac script_db_cases w k :=
  unfold Script.DatabaseService.deleteUser, Script.DatabaseService.acquire,
    Script.DatabaseService.run, Script.DatabaseService.audit;
  destruct (Script.connect w k) eqn:?; cbn;
  script_query w k Script.Begin;
  script_row_count w k;
  script_query w k Script.CountEvents;
  script_query w k Script.CountPreferences;
  script_query w k Script.CountSessions;
  script_query w k Script.DeleteEvents;
  script_query w k Script.DeletePreferences;
  script_query w k Script.DeleteSessions;
  script_query w k Script.DeleteUser;
  script_query w k Script.InsertAudit;
  script_query w k Script.Commit;
  script_query w k (Script.Rollback false);
  script_query w k (Script.Rollback true).

Lemma script_walk_app : forall t1 t2 u,
  script_walk u (t1 ++ t2) =
  match script_walk u t1 with
  | Some u' => script_walk u' t2
  | None => None
  end.
Proof.
  induction t1 as [|e t1 IH]; intros t2 u; simpl; [reflexivity|].
  destruct (script_use u e); [apply IH|reflexivity].
Qed.

Lemma db_deleteUser_walk w k publicId requestId requestedBy dryRun :
  script_walk idle
    (fst (Script.DatabaseService.deleteUser w k publicId requestId
            requestedBy dryRun)) = Some idle.
Proof.
  destruct dryRun; script_db_cases w k; reflexivity.
Qed.

Lemma amp_attempts_walk w config k publicId : forall todo,
  script_walk idle
    (fst (Script.AmplitudeService.attempts w config k publicId todo))
  = Some idle.
Proof.
  induction todo as [|a todo IH]; [reflexivity|]. simpl.
  destruct (Script.AmplitudeService.attempts w config k publicId todo)
    as [t r]. simpl in IH.
  destruct (Script.axios_post w k a) as [e|status].
  - destruct (a <? Script.maxRetries config); simpl; exact IH.
  - destruct (status =? 200); simpl; [reflexivity|exact IH].
Qed.

Lemma amp_deleteUser_walk w config k publicId dryRun :
  script_walk idle
    (fst (Script.AmplitudeService.deleteUser w config k publicId dryRun))
  = Some idle.
Proof.
  unfold Script.AmplitudeService.deleteUser.
  destruct (_ || _); [reflexivity|].
  destruct dryRun; [reflexivity|apply amp_attempts_walk].
Qed.

Lemma process_walk w config args : forall ids k acc,
  script_walk idle (fst (Script.process w config args k ids acc))
  = Some idle.
Proof.
  induction ids as [|publicId ids IH]; intros k acc; [reflexivity|].
  cbn [Script.process].
  pose proof (db_deleteUser_walk w k publicId (Script.requestId args)
                (Script.requestedBy args) (Script.dryRun args)) as W1.
  destruct (Script.DatabaseService.deleteUser w k publicId _ _ _)
    as [t1 [e|dbResult]]; simpl in W1; [exact W1|].
  cbn [bind].
  destruct (negb (Script.DatabaseService.success dbResult)).
  - specialize (IH (S k)). 
    match goal with
    | |- context [Script.process w config args (S k) ids ?a] =>
        specialize (IH a);
        destruct (Script.process w config args (S k) ids a) as [t2 r2]
    end.
    simpl in *. now rewrite script_walk_app, W1.
  - pose proof (amp_deleteUser_walk w config k publicId
                  (Script.dryRun args)) as W2.
    destruct (Script.AmplitudeService.deleteUser w config k publicId _)
      as [t2 ampResult]. simpl in W2. cbn [bind].
    match goal with
    | |- context [Script.process w config args (S k) ids ?a] =>
        specialize (IH (S k) a);
        destruct (Script.process w config args (S k) ids a) as [t3 r3]
    end.
    simpl in *. rewrite script_walk_app, W1, script_walk_app, W2.
    exact IH.
Qed.

(** X18. Whatever the database and Amplitude answer, the script's
    interactions respect the discipline [script_walk] checks event by
    event: one connection at a time, asked for only when none is held;
    BEGIN only outside a transaction; every other statement inside the
    transaction begun on the connection; the connection released only
    after COMMIT succeeded or a ROLLBACK was sent, and released on every
    path once it was had; and every request to Amplitude, and every wait
    between two of them, made while no connection is held. *)
Theorem script_holds_no_connection_across_requests
  (w : Script.world) (config : Script.Config) (args : Script.DeletionArgs) :
  script_walk idle (fst (Script.executeDeleteions w config args))
  = Some idle.
Proof.
  unfold Script.executeDeleteions.
  pose proof (process_walk w config args (Script.publicIds args) 0
                {| Script.successful := []; Script.failed := [];
                   Script.totalDbRowsDeleted := 0;
                   Script.totalAmplitudeDeleted := 0 |}) as W.
  destruct (Script.process _ _ _ _ _ _) as [t [e|r]]; exact W.
Qed.

Lemma db_deleteUser_dry w k publicId requestId requestedBy :
  Forall (fun e => changes_data e = false)
    (fst (Script.DatabaseService.deleteUser w k publicId requestId
            requestedBy true)).
Proof. script_db_cases w k; repeat constructor. Qed.

Lemma amp_deleteUser_dry w config k publicId :
  Script.AmplitudeService.deleteUser w config k publicId true
  = ([], {| Script.AmplitudeService.success := true;
            Script.AmplitudeService.error := None |}).
Proof.
  unfold Script.AmplitudeService.deleteUser. now destruct (_ || _).
Qed.

Lemma process_dry w config args : forall ids k acc t r,
  Script.dryRun args = true ->
  Script.process w config args k ids acc = (t, r) ->
  Forall (fun e => changes_data e = false) t /\
  forall acc',
    r = inr acc' ->
    Script.totalAmplitudeDeleted acc' + length (Script.successful acc)
    = Script.totalAmplitudeDeleted acc + length (Script.successful acc').
Proof.
  intros ids k acc t r Hd. revert k acc t r.
  induction ids as [|publicId ids IH]; intros k acc t r.
  - intros [= <- <-]. split; [constructor|]. intros acc' [= <-]. lia.
  - cbn [Script.process]. rewrite Hd.
    pose proof (db_deleteUser_dry w k publicId (Script.requestId args)
                  (Script.requestedBy args)) as D1.
    destruct (Script.DatabaseService.deleteUser w k publicId _ _ _)
      as [t1 [e|dbResult]]; simpl in D1.
    + intros [= <- <-]. split; [exact D1|discriminate].
    + cbn [bind]. rewrite amp_deleteUser_dry. cbn [bind app].
      destruct (negb (Script.DatabaseService.success dbResult));
        match goal with
        | |- context [Script.process w config args (S k) ids ?a] =>
            specialize (IH (S k) a);
            destruct (Script.process w config args (S k) ids a)
              as [t2 r2]
        end;
        destruct (IH _ _ eq_refl) as [F2 C2]; intros [= <- <-];
        (split; [apply Forall_app; split; assumption|]);
        intros acc' E; specialize (C2 _ E); cbn in C2;
        rewrite ?length_app in C2; simpl in C2; lia.
Qed.

(** X19. With [dryRun] true the script changes nothing: whatever the
    database answers, it sends no DELETE, no audit INSERT and no COMMIT,
    and it makes no request to Amplitude; yet each identifier found is
    counted in the summary as deleted from Amplitude. *)
Theorem script_dry_run_changes_nothing
  (w : Script.world) (config : Script.Config) (args : Script.DeletionArgs) :
  Script.dryRun args = true ->
  Forall (fun e => changes_data e = false)
    (fst (Script.executeDeleteions w config args)) /\
  forall s,
    Script.summary (snd (Script.executeDeleteions w config args)) = Some s ->
    Script.amplitudeDeleted s = Script.n_successful s.
Proof.
  intros Hd. unfold Script.executeDeleteions.
  destruct (Script.process _ _ _ _ _ _) as [t [e|r]] eqn:P;
    destruct (process_dry _ _ _ _ _ _ _ _ Hd P) as [F C]; simpl.
  - split; [exact F|discriminate].
  - split; [exact F|]. intros s [= <-]. simpl.
    specialize (C _ eq_refl). simpl in C. lia.
Qed.

Lemma script_dry_run_witness :
  Forall (fun e => changes_data e = false)
    (fst (Script.executeDeleteions script_store script_config
            script_dry_args)) /\
  exists s,
    Script.summary (snd (Script.executeDeleteions script_store
                           script_config script_dry_args)) = Some s /\
    Script.amplitudeDeleted s = Script.n_successful s.
Proof.
  destruct (script_dry_run_changes_nothing script_store script_config
              script_dry_args eq_refl) as [F C].
  split; [exact F|]. eexists. split; [reflexivity|].
  apply C. reflexivity.
Defined.

(** X20. Outside a dry run, [DatabaseService.deleteUser] reports
    success exactly when its COMMIT succeeded.  If it returns success,
    COMMIT succeeded after the audit record was inserted with the number
    of rows it returns, the sum of the row counts of the four DELETEs,
    and there is no error.  If it returns failure, no COMMIT succeeded,
    a ROLLBACK did, the number of rows is 0 and an error is given.  If
    it throws, no COMMIT succeeded either: no connection was had, or
    the ROLLBACK of the catch block failed. *)
Theorem script_success_means_committed
  (w : Script.world) (k : nat) (publicId requestId requestedBy : string) :
  let (t, r) :=
    Script.DatabaseService.deleteUser w k publicId requestId requestedBy
      false in
  match r with
  | inr res =>
      if Script.DatabaseService.success res then
        In (Script.Query k Script.Commit true) t /\
        In (Script.Audit k publicId requestId requestedBy
              (Script.DatabaseService.rowsDeleted res) true) t /\
        Script.DatabaseService.error res = None /\
        exists a b c d,
          Script.query w k Script.DeleteEvents = inr a /\
          Script.query w k Script.DeletePreferences = inr b /\
          Script.query w k Script.DeleteSessions = inr c /\
          Script.query w k Script.DeleteUser = inr d /\
          Script.DatabaseService.rowsDeleted res = a + b + c + d
      else
        ~ In (Script.Query k Script.Commit true) t /\
        Script.DatabaseService.rowsDeleted res = 0 /\
        Script.DatabaseService.error res <> None /\
        exists c, In (Script.Query k (Script.Rollback c) true) t
  | inl e =>
      ~ In (Script.Query k Script.Commit true) t /\
      (t = [Script.Connect k false] \/
       In (Script.Query k (Script.Rollback true) false) t)
  end.
Proof.
  script_db_cases w k;
    repeat match goal with
      | |- _ /\ _ => split
      | |- ~ _ => intuition discriminate
      | |- exists c, (_ = Script.Query _ (Script.Rollback c) true \/ _) =>
          first [exists true; tauto | exists false; tauto]
      | |- exists _, _ => eexists
      | |- _ = _ => reflexivity
      | |- _ <> _ => discriminate
      | |- _ \/ _ => tauto 
      end.
Qed.

(** What the promise of a request settles with, against the answer. *)
Lemma axios_post_cases w k a :
  match Script.axios_post w k a with
  | inr status => accepted w k a = (status =? 200)
  | inl _ => accepted w k a = false
  end.
Proof.
  unfold Script.axios_post, accepted.
  destruct (Script.post w k a) as [e|status]; [reflexivity|].
  destruct ((200 <=? status) && (status <? 300)) eqn:E; [reflexivity|].
  destruct (status =? 200) eqn:S200; [|reflexivity].
  apply Nat.eqb_eq in S200. subst status. discriminate E.
Qed.

Lemma amp_attempts_spec w config k publicId : forall m a,
  let (t, r) :=
    Script.AmplitudeService.attempts w config k publicId (seq a m) in
  (if Script.AmplitudeService.success r then
     exists n,
       S n <= m /\ posts t = seq a (S n) /\
       (forall i, a <= i < a + n -> accepted w k i = false) /\
       accepted w k (a + n) = true /\
       Script.AmplitudeService.error r = None
   else
     posts t = seq a m /\
     (forall i, a <= i < a + m -> accepted w k i = false) /\
     Script.AmplitudeService.error r = Some "Max retries exceeded") /\
  timeouts t
  = map (fun i => (1000 * 2 ^ Z.of_nat i)%Z)
      (filter (fun i => rejected w k i && (i <? Script.maxRetries config))
         (posts t)) /\
  Forall (amp_event_of config k publicId) t.
Proof.
  induction m as [|m IH]; intros a.
  - simpl. repeat split; [intros i Hi; lia|constructor].
  - specialize (IH (S a)). cbn [seq Script.AmplitudeService.attempts].
    destruct (Script.AmplitudeService.attempts w config k publicId
                (seq (S a) m)) as [t r].
    destruct IH as (IH & IHt & IHf).
    assert (Tail :
      accepted w k a = false ->
      if Script.AmplitudeService.success r
      then
        exists n : nat,
          S n <= S m /\ a :: posts t = seq a (S n) /\
          (forall i : nat, a <= i < a + n -> accepted w k i = false) /\
          accepted w k (a + n) = true /\
          Script.AmplitudeService.error r = None
      else
        a :: posts t = seq a (S m) /\
        (forall i : nat, a <= i < a + S m -> accepted w k i = false) /\
        Script.AmplitudeService.error r = Some "Max retries exceeded").
    { intros Ha. destruct (Script.AmplitudeService.success r).
      - destruct IH as (n & Hn & Hp & Hbefore & Hlast & He).
        exists (S n). split; [lia|]. split; [now rewrite Hp|].
        split; [|split; [now rewrite Nat.add_succ_r|exact He]].
        intros i Hi. destruct (Nat.eq_dec i a) as [->|]; [exact Ha|].
        apply Hbefore. lia.
      - destruct IH as (Hp & Hall & He).
        split; [now rewrite Hp|]. split; [|exact He].
        intros i Hi. destruct (Nat.eq_dec i a) as [->|]; [exact Ha|].
        apply Hall. lia. }
    pose proof (axios_post_cases w k a) as Ax.
    unfold rejected in *.
    destruct (Script.axios_post w k a) as [e|status] eqn:P.
    + cbn [posts timeouts filter map].
      destruct (a <? Script.maxRetries config); cbn [app posts timeouts];
        rewrite ?P; cbn [andb filter map];
        (split; [exact (Tail Ax)|]);
        (split; [now rewrite IHt|]);
        repeat (constructor; [simpl; auto|]); exact IHf.
    + destruct (status =? 200) eqn:S200.
      * cbn. rewrite P. cbn. split.
        -- exists 0. rewrite Nat.add_0_r, Ax.
           repeat split; [lia|intros i Hi; lia].
        -- split; [reflexivity|]. repeat constructor.
      * cbn [posts timeouts filter]. rewrite P. cbn [andb].
        split; [exact (Tail Ax)|]. split; [exact IHt|].
        constructor; [simpl; auto|exact IHf].
Qed.



Lemma db_deleteUser_facts w k publicId requestId requestedBy dryRun :
  let (t, r) :=
    Script.DatabaseService.deleteUser w k publicId requestId requestedBy
      dryRun in
  Forall (db_event_of k) t /\
  match r with
  | inr res =>
      length (filter is_commit_ok t)
      = (if Script.DatabaseService.success res && negb dryRun
         then 1 else 0)
  | inl e =>
      filter is_commit_ok t = [] /\
      (In (Script.Connect k false) t \/
       In (Script.Query k (Script.Rollback true) false) t)
  end.
Proof.
  destruct dryRun; script_db_cases w k;
    repeat match goal with
      | |- _ /\ _ => split
      | |- Forall _ _ => repeat constructor
      | |- _ = _ => reflexivity
      | |- _ \/ _ => tauto
      end.
Qed.

Lemma posts_In k a u n p : forall t,
  In (Script.Post k a u n p) t -> In a (posts t).
Proof.
  induction t as [|e t IH]; [intros []|].
  intros [->|H]; [now left|].
  destruct e; simpl; auto.
Qed.

Lemma amp_deleteUser_facts w config k publicId dryRun :
  let (t, r) :=
    Script.AmplitudeService.deleteUser w config k publicId dryRun in
  Forall (amp_event_of config k publicId) t /\
  forall a, In a (posts t) ->
    1 <= a <= Script.maxRetries config /\ dryRun = false /\
    Script.apiKey config <> "" /\ Script.secretKey config <> "".
Proof.
  unfold Script.AmplitudeService.deleteUser.
  destruct (String.eqb (Script.apiKey config) "") eqn:Ea;
    [split; [constructor|intros a []]|].
  destruct (String.eqb (Script.secretKey config) "") eqn:Es;
    [split; [constructor|intros a []]|].
  cbn [orb]. destruct dryRun; [split; [constructor|intros a []]|].
  apply String.eqb_neq in Ea, Es.
  pose proof (amp_attempts_spec w config k publicId
                (Script.maxRetries config) 1) as Sp.
  destruct (Script.AmplitudeService.attempts w config k publicId _)
    as [t r].
  destruct Sp as (Sp & _ & Sf). split; [exact Sf|].
  intros a Ha. repeat split; auto;
    destruct (Script.AmplitudeService.success r);
    [destruct Sp as (n & Hn & Hp & _)|destruct Sp as (Hp & _)
    |destruct Sp as (n & Hn & Hp & _)|destruct Sp as (Hp & _)];
    rewrite Hp in Ha; apply in_seq in Ha; lia.
Qed.

Lemma filter_commit_amp config k publicId t :
  Forall (amp_event_of config k publicId) t -> filter is_commit_ok t = [].
Proof.
  induction 1 as [|e t He _ IH]; [reflexivity|].
  destruct e; simpl in *; try tauto; exact IH.
Qed.

Lemma commit_of_count k t :
  Forall (db_event_of k) t -> length (filter is_commit_ok t) = 1 ->
  In (Script.Query k Script.Commit true) t.
Proof.
  intros F L.
  destruct (filter is_commit_ok t) as [|e rest] eqn:E; [discriminate|].
  assert (Hin : In e (filter is_commit_ok t)) by (rewrite E; now left).
  apply filter_In in Hin as [Hin Hc].
  rewrite Forall_forall in F. specialize (F _ Hin).
  destruct e as [| k' s ok | | | |]; try discriminate.
  destruct s, ok; try discriminate. simpl in F. now subst.
Qed.

Lemma process_spec w config args : forall ids k acc t r,
  Script.process w config args k ids acc = (t, r) ->
  (forall k' a u n p, In (Script.Post k' a u n p) t ->
     Script.dryRun args = false /\
     In (Script.Query k' Script.Commit true) t /\
     k <= k' /\ nth_error ids (k' - k) = Some u /\
     n = Script.apiKey config /\ p = Script.secretKey config /\
     1 <= a <= Script.maxRetries config /\
     Script.apiKey config <> "" /\ Script.secretKey config <> "") /\
  match r with
  | inr acc' =>
      exists s f,
        Script.successful acc' = Script.successful acc ++ s /\
        Script.failed acc' = Script.failed acc ++ f /\
        Permutation (s ++ map fst f) ids /\
        Script.totalAmplitudeDeleted acc'
          <= Script.totalAmplitudeDeleted acc + length s /\
        (Script.dryRun args = false ->
         length (filter is_commit_ok t) = length s)
  | inl _ =>
      exists k', In (Script.Connect k' false) t \/
                 In (Script.Query k' (Script.Rollback true) false) t
  end.
Proof.
  induction ids as [|publicId ids IH]; intros k acc t r.
  - intros [= <- <-]. split; [intros k' a u n p []|].
    exists [], []. rewrite !app_nil_r. repeat split; auto.
    simpl. lia.
  - cbn [Script.process].
    pose proof (db_deleteUser_facts w k publicId (Script.requestId args)
                  (Script.requestedBy args) (Script.dryRun args)) as D.
    destruct (Script.DatabaseService.deleteUser w k publicId _ _ _)
      as [t1 [e|dbResult]]; destruct D as [D1 D2].
    + intros [= <- <-]. split.
      * intros k' a u n p Hin. rewrite Forall_forall in D1.
        destruct (D1 _ Hin).
      * exists k. apply D2.
    + cbn [bind].
      assert (NoPost : forall k' a u n p,
                 ~ In (Script.Post k' a u n p) t1).
      { intros k' a u n p Hin. rewrite Forall_forall in D1.
        destruct (D1 _ Hin). }
      destruct (Script.DatabaseService.success dbResult) eqn:Ok;
        cbn [negb].
      * pose proof (amp_deleteUser_facts w config k publicId
                      (Script.dryRun args)) as A.
        destruct (Script.AmplitudeService.deleteUser w config k publicId _)
          as [t2 ampResult]. destruct A as [A1 A2]. cbn [bind].
        match goal with
        | |- context [Script.process w config args (S k) ids ?a] =>
            specialize (IH (S k) a);
            destruct (Script.process w config args (S k) ids a)
              as [t3 r3]
        end.
        destruct (IH _ _ eq_refl) as [IP IR]. intros [= <- <-].
        split.
        -- intros k' a u n p Hin.
           rewrite !in_app_iff in Hin. destruct Hin as [Hin|[Hin|Hin]].
           ++ destruct (NoPost _ _ _ _ _ Hin).
           ++ pose proof (posts_In _ _ _ _ _ _ Hin) as Hp.
              destruct (A2 _ Hp) as (Ha & Hd & Hk1 & Hk2).
              rewrite Forall_forall in A1. specialize (A1 _ Hin).
              destruct A1 as (-> & -> & -> & ->).
              rewrite Hd in D2. cbn in D2.
              repeat split; auto; try lia.
              ** rewrite !in_app_iff. left.
                 now apply commit_of_count.
              ** now rewrite Nat.sub_diag.
           ++ destruct (IP _ _ _ _ _ Hin)
                as (Hd & Hc & Hk & Hn & Hrest).
              repeat split; try apply Hrest; auto; try lia.
              ** rewrite !in_app_iff. auto.
              ** replace (k' - k) with (S (k' - S k)) by lia. exact Hn.
        -- destruct r3 as [e3|acc3].
           ++ destruct IR as (k' & IR). exists k'.
              rewrite !in_app_iff. tauto.
           ++ destruct IR as (s & f & Hs & Hf & Hp & Ha & Hc).
              cbn in Hs, Hf, Ha.
              exists (publicId :: s), f.
              split; [rewrite Hs, <- app_assoc; reflexivity|].
              split; [exact Hf|]. split; [now constructor|].
              split.
              { simpl. destruct (Script.AmplitudeService.success ampResult);
                  lia. }
              intros Hd. rewrite !filter_app, !length_app.
              rewrite (filter_commit_amp _ _ _ _ A1), (Hc Hd), D2, Hd.
              simpl. reflexivity.
      * match goal with
        | |- context [Script.process w config args (S k) ids ?a] =>
            specialize (IH (S k) a);
            destruct (Script.process w config args (S k) ids a)
              as [t3 r3]
        end.
        destruct (IH _ _ eq_refl) as [IP IR]. intros [= <- <-].
        split.
        -- intros k' a u n p Hin.
           rewrite in_app_iff in Hin. destruct Hin as [Hin|Hin].
           ++ destruct (NoPost _ _ _ _ _ Hin).
           ++ destruct (IP _ _ _ _ _ Hin)
                as (Hd & Hc & Hk & Hn & Hrest).
              repeat split; try apply Hrest; auto; try lia.
              ** rewrite in_app_iff. auto.
              ** replace (k' - k) with (S (k' - S k)) by lia. exact Hn.
        -- destruct r3 as [e3|acc3].
           ++ destruct IR as (k' & IR). exists k'.
              rewrite !in_app_iff. tauto.
           ++ destruct IR as (s & f & Hs & Hf & Hp & Ha & Hc).
              cbn in Hs, Hf, Ha.
              eexists s, (_ :: f).
              split; [exact Hs|].
              split; [rewrite Hf, <- app_assoc; reflexivity|].
              split.
              { cbn [map fst]. symmetry. apply Permutation_cons_app.
                now symmetry. }
              split; [exact Ha|].
              intros Hd. rewrite filter_app, length_app, (Hc Hd), D2.
              reflexivity.
Qed.

(** X22. What a run of the script leaves.  A request goes to
    Amplitude only outside a dry run, with both credentials configured,
    for the identifier at a position whose database deletion was
    committed, in an attempt from 1 to [maxRetries].  When the loop
    comes to its end, every identifier requested is listed once, as
    successful or as failed; outside a dry run the identifiers listed
    as successful are as many as the COMMITs that succeeded; the
    Amplitude counter is at most the number of successful identifiers;
    and the exit code is 1 exactly when some identifier failed in the
    database, 0 otherwise, whatever Amplitude answered.  When the
    loop is left by an error, the exit code is 1, and the error is a
    connection that could not be had or a ROLLBACK that failed in the
    catch block. *)
Theorem script_exit_code_and_requests
  (w : Script.world) (config : Script.Config) (args : Script.DeletionArgs) :
  let (t, x) := Script.executeDeleteions w config args in
  (forall k a u n p, In (Script.Post k a u n p) t ->
     Script.dryRun args = false /\
     In (Script.Query k Script.Commit true) t /\
     nth_error (Script.publicIds args) k = Some u /\
     n = Script.apiKey config /\ p = Script.secretKey config /\
     1 <= a <= Script.maxRetries config /\
     Script.apiKey config <> "" /\ Script.secretKey config <> "") /\
  match Script.listed x, Script.summary x with
  | Some r, Some s =>
      Permutation (Script.successful r ++ map fst (Script.failed r))
        (Script.publicIds args) /\
      Script.n_successful s = length (Script.successful r) /\
      Script.n_failed s = length (Script.failed r) /\
      Script.n_successful s + Script.n_failed s = Script.totalRequested s /\
      Script.amplitudeDeleted s <= Script.n_successful s /\
      (Script.dryRun args = false ->
       length (filter is_commit_ok t) = Script.n_successful s) /\
      (Script.code x = 1 <-> Script.failed r <> []) /\
      (Script.code x = 0 <-> Script.failed r = [])
  | None, None =>
      Script.code x = 1 /\
      exists k, In (Script.Connect k false) t \/
                In (Script.Query k (Script.Rollback true) false) t
  | _, _ => False
  end.
Proof.
  unfold Script.executeDeleteions.
  destruct (Script.process _ _ _ _ _ _) as [t [e|r]] eqn:P;
    destruct (process_spec _ _ _ _ _ _ _ _ P) as [Posts R].
  - split.
    + intros k a u n p Hin.
      destruct (Posts _ _ _ _ _ Hin) as (Hd & Hc & _ & Hn & Hrest).
      rewrite Nat.sub_0_r in Hn. auto.
    + simpl. split; [reflexivity|exact R].
  - split.
    + intros k a u n p Hin.
      destruct (Posts _ _ _ _ _ Hin) as (Hd & Hc & _ & Hn & Hrest).
      rewrite Nat.sub_0_r in Hn. auto.
    + destruct R as (s & f & Hs & Hf & Hp & Ha & Hc).
      cbn in Hs, Hf, Ha |- *. subst s f.
      split; [exact Hp|]. split; [reflexivity|]. split; [reflexivity|].
      split.
      { apply Permutation_length in Hp.
        rewrite length_app, length_map in Hp. exact Hp. }
      split; [exact Ha|]. split; [exact Hc|].
      destruct (Script.failed r); simpl; split; split;
        congruence || discriminate || auto.
Qed.
